(** * Admissibility-Physics: the routing / admission / relaxation engine

    A shallow embedding of the capacity-constrained routing engine that the
    repository duplicates across
      - [src/utils/routing_engine_v1.py]   (module [RoutingEngine] below),
      - [src/utils/accumulated_cost.py]    (module [AccumulatedCost]),
      - [src/utils/lambda_floor.py]        (module [LambdaFloor]),
      - [src/core/admissibility_unified_V4.py] (module [UnifiedV4]).

    Numeric model.  Python [int] values (loads, demands, bounds) are [Z].
    Python [float] values (capacities, coefficients, costs) are embedded
    twice.  The modules of the four files work over exact rationals [Q]:
    [+], [-], [*], [/], [abs] and the comparisons are the exact ones and
    [float('inf')] is an absent value; what is stated over them are
    comparisons, orders and structural facts.  The module [Binary64] works
    over IEEE binary64 numbers, with the rounding of every operation and
    with the OverflowError of a conversion from [int] beyond the float
    range; it carries what depends on rounding or on that range.  Python
    [dict] is an insertion-ordered association list with unique keys
    ([PyDict]).  Printing ([verbose]) has no effect on any returned value
    and is left out. *)

From Stdlib Require Import String.
From Stdlib Require Import ZArith QArith Qabs List Bool Lia Lqa Psatz.
From Stdlib Require Import Sorting.Sorted Permutation.
From Stdlib Require PrimFloat SpecFloat FloatOps FloatAxioms.
Import ListNotations.

Open Scope Z_scope.

(** ** Python dictionaries: insertion-ordered association lists *)

Module PyDict.
Section Dict.
Context {V : Type}.

Definition dict := list (string * V).

(** [d.get(k)] *)
Fixpoint get (d : dict) (k : string) : option V :=
  match d with
  | [] => None
  | (k', v) :: r => if String.eqb k' k then Some v else get r k
  end.

(** [d.get(k, dflt)] *)
Definition get_default (d : dict) (k : string) (dflt : V) : V :=
  match get d k with Some v => v | None => dflt end.

(** [k in d] *)
Definition contains (d : dict) (k : string) : bool :=
  match get d k with Some _ => true | None => false end.

(** [d[k] = v]: an existing key keeps its position, a new key goes last. *)
Fixpoint set (d : dict) (k : string) (v : V) : dict :=
  match d with
  | [] => [(k, v)]
  | (k', v') :: r =>
      if String.eqb k' k then (k', v) :: r else (k', v') :: set r k v
  end.

Definition keys (d : dict) : list string := map fst d.
Definition values (d : dict) : list V := map snd d.

End Dict.
Arguments dict : clear implicits.
End PyDict.

(** ** Numbers *)

(** [a < b] on floats. *)
Definition Qlt_bool (a b : Q) : bool := negb (Qle_bool b a).

(** ** Constants *)

Definition EPS_SLACK : Q := 1 # 1000000.       (* 1e-6 *)
Definition EPS_COST : Q := 1 # 1000000000.     (* 1e-9 *)
Definition ETA_ZERO : Q := 1 # 1000000000000.  (* the literal 1e-12 of max_n *)

(** ** Interface (identical in the four files, up to [max_n] in V4)

    [max_n] takes a square root and truncates a quotient: it is embedded
    over binary64 only, in the module [Binary64]. *)

Record Interface : Type := mkInterface
  { name : string; capacity : Q; epsilon : Q; eta : Q }.

(** The dataclass-generated [__init__]: it stores its arguments; there is
    no [__post_init__] on [Interface], so no argument is ever refused. *)
Definition Interface_init (nm : string) (c eps et : Q) : option Interface :=
  Some (mkInterface nm c eps et).

Definition cost (itf : Interface) (n : Z) : Q :=
  if n <=? 0 then 0%Q
  else (epsilon itf * inject_Z n
        + eta itf * inject_Z n * inject_Z (n - 1) / 2)%Q.

Definition headroom (itf : Interface) (n : Z) : Q :=
  (capacity itf - cost itf n)%Q.

(** ** LoadVector *)

Record LoadVector : Type := mkLoad { loads : PyDict.dict Z }.

Definition LoadVector_empty : LoadVector := mkLoad [].

(** [__getitem__]: a missing key reads as zero. *)
Definition lv_get (L : LoadVector) (nm : string) : Z :=
  PyDict.get_default (loads L) nm 0.

(** [__add__] *)
Definition lv_add (A B : LoadVector) : LoadVector :=
  mkLoad (fold_left
            (fun combined '(nm, load) =>
               PyDict.set combined nm (PyDict.get_default combined nm 0 + load))
            (loads B) (loads A)).

(** [__eq__] of accumulated_cost.py and V4: equality by content over the
    union of the keys. *)
Definition lv_eq (A B : LoadVector) : bool :=
  forallb (fun k => lv_get A k =? lv_get B k)
          (PyDict.keys (loads A) ++ PyDict.keys (loads B)).

(** [__sub__] *)
Definition lv_sub (A B : LoadVector) : LoadVector :=
  mkLoad (fold_left
            (fun result '(nm, load) =>
               PyDict.set result nm (PyDict.get_default result nm 0 - load))
            (loads B) (loads A)).

(** [copy] *)
Definition lv_copy (A : LoadVector) : LoadVector := mkLoad (loads A).

(** [LoadVector.uniform] *)
Definition LoadVector_uniform (interfaces : list Interface) (n : Z) : LoadVector :=
  mkLoad (fold_left (fun d itf => PyDict.set d (name itf) n) interfaces []).

(** ** Network *)

Record Edge : Type := mkEdge { u : string; v : string; interface : Interface }.

Definition other (e : Edge) (node : string) : string :=
  if String.eqb node (u e) then v e else u e.

Record Network : Type := mkNetwork { nodes : list string; edges : list Edge }.

(** [__post_init__]: the adjacency [defaultdict(list)] and the interface
    registry, both rebuilt from [edges] whatever was passed for them. *)
Definition adjacency (net : Network) : PyDict.dict (list Edge) :=
  fold_left
    (fun adj e =>
       let adj1 := PyDict.set adj (u e) (PyDict.get_default adj (u e) [] ++ [e]) in
       PyDict.set adj1 (v e) (PyDict.get_default adj1 (v e) [] ++ [e]))
    (edges net) [].

Definition interfaces_dict (net : Network) : PyDict.dict Interface :=
  fold_left (fun m e => PyDict.set m (name (interface e)) (interface e))
            (edges net) [].

Definition neighbors (net : Network) (node : string) : list (string * Edge) :=
  map (fun e => (other e node, e)) (PyDict.get_default (adjacency net) node []).

Definition interfaces (net : Network) : list Interface :=
  PyDict.values (interfaces_dict net).

Definition get_interface (net : Network) (nm : string) : option Interface :=
  PyDict.get (interfaces_dict net) nm.

(** ** Path *)

Record Path : Type := mkPath { p_nodes : list string; p_edges : list Edge }.

Definition path_length (p : Path) : nat := length (p_edges p).

(** [Path.load_contribution] (lambda_floor.py, V4) and
    [LoadVector.from_edges] (routing_engine_v1.py): one unit per traversed
    edge, keyed by interface name. *)
Definition load_contribution (p : Path) : PyDict.dict Z :=
  fold_left
    (fun ld e =>
       let nm := name (interface e) in
       PyDict.set ld nm (PyDict.get_default ld nm 0 + 1))
    (p_edges p) [].

Definition load_vector (p : Path) : LoadVector := mkLoad (load_contribution p).

(** ** Path search

    [find_paths] of routing_engine_v1.py and [find_all_paths] of
    lambda_floor.py share one body.  The nested [dfs] closes over
    [network], [target], the two bounds and the result list [paths], which
    it extends in place: here [paths] is threaded through.  [visited] is
    extended before each recursive call and restored after it, which is
    passing the extended set down.  [fuel] only makes the recursion
    structural; the length guard fires before it can run out
    ([dfs_fuel_irrelevant]). *)

Section PathSearch.
Variable network : Network.
Variable target : string.
Variable max_paths max_length : Z.

Fixpoint dfs (fuel : nat) (current : string) (visited : list string)
         (path_nodes : list string) (path_edges : list Edge)
         (paths : list Path) : list Path :=
  if (Z.of_nat (length paths) >=? max_paths)
     || (Z.of_nat (length path_edges) >? max_length)
  then paths
  else
    match fuel with
    | O => paths
    | S fuel' =>
        if String.eqb current target
        then paths ++ [mkPath path_nodes path_edges]
        else
          fold_left
            (fun paths '(neighbor, edge) =>
               if existsb (String.eqb neighbor) visited then paths
               else dfs fuel' neighbor (neighbor :: visited)
                        (path_nodes ++ [neighbor]) (path_edges ++ [edge])
                        paths)
            (neighbors network current) paths
    end.
End PathSearch.

(** [paths.sort(key=lambda p: len(p.edges))]: Python's sort is stable, and
    a stable sort has one possible result; a stable insertion sort gives it. *)
Fixpoint insert_by_length (p : Path) (l : list Path) : list Path :=
  match l with
  | [] => [p]
  | q :: r =>
      if (path_length p <? path_length q)%nat then p :: q :: r
      else q :: insert_by_length p r
  end.

Definition sort_by_length (l : list Path) : list Path :=
  fold_left (fun acc p => insert_by_length p acc) l [].

(** The paths in discovery order, before the sort. *)
Definition dfs_discovery (network : Network) (source target : string)
           (max_paths max_length : Z) : list Path :=
  dfs network target max_paths max_length (Z.to_nat (max_length + 1))
      source [source] [source] [] [].

Definition find_paths (network : Network) (source target : string)
           (max_paths max_length : Z) : list Path :=
  if String.eqb source target then [mkPath [source] []]
  else sort_by_length (dfs_discovery network source target max_paths max_length).

(** lambda_floor.py takes the bounds in the other order. *)
Definition find_all_paths (network : Network) (source target : string)
           (max_length max_paths : Z) : list Path :=
  find_paths network source target max_paths max_length.

(** [find_k_shortest_paths] of routing_engine_v1.py: [all_paths[:k]]. *)
Definition py_slice_to {A} (l : list A) (k : Z) : list A :=
  if k <? 0 then firstn (Z.to_nat (Z.of_nat (length l) + k)) l
  else firstn (Z.to_nat k) l.

Definition find_k_shortest_paths (network : Network) (source target : string)
           (k : Z) : list Path :=
  py_slice_to (find_paths network source target (k * 3) 15) k.

(** ** Obligations *)

Record Obligation : Type := mkObligation
  { ob_id : Z; source : string; target : string; demand : Z }.

Record RoutedObligation : Type := mkRouted
  { obligation : Obligation; path : Path }.

(** The block
    [for name, contrib in path_contrib.items():
         new_loads[name] = new_loads.get(name, 0) + contrib * demand]
    of [route_obligation] and [relax_routing], which is also the
    [loads[name] += contrib * demand] of [compute_load_from_routed]. *)
Definition add_contribution (base contrib : PyDict.dict Z) (demand : Z)
  : PyDict.dict Z :=
  fold_left
    (fun new_loads '(nm, c) =>
       PyDict.set new_loads nm (PyDict.get_default new_loads nm 0 + c * demand))
    contrib base.

(** The same block with [-], for the load that remains without a route. *)
Definition remove_contribution (base contrib : PyDict.dict Z) (demand : Z)
  : PyDict.dict Z :=
  fold_left
    (fun remaining '(nm, c) =>
       PyDict.set remaining nm (PyDict.get_default remaining nm 0 - c * demand))
    contrib base.

Definition compute_load_from_routed (routed : list RoutedObligation) : LoadVector :=
  mkLoad (fold_left
            (fun ld r =>
               add_contribution ld (load_contribution (path r))
                                (demand (obligation r)))
            routed []).

(** ** Cost functions shared by the files *)

Definition is_admissible (load : LoadVector) (interfaces : list Interface) : bool :=
  forallb
    (fun itf => negb (Qle_bool (headroom itf (lv_get load (name itf))) EPS_SLACK))
    interfaces.

Definition transition_cost (L_prev L_next : LoadVector)
           (interfaces : list Interface) : Q :=
  fold_left
    (fun acc itf =>
       let E_prev := cost itf (lv_get L_prev (name itf)) in
       let E_next := cost itf (lv_get L_next (name itf)) in
       (acc + Qabs (E_next - E_prev))%Q)
    interfaces 0%Q.

(** The running minimum of the headrooms, started at [float('inf')]
    ([None]); [_make_step], [min_headroom] and [analyze_routing] all keep
    the first interface that attains it. *)
Definition min_headroom (load : LoadVector) (interfaces : list Interface)
  : option Q * string :=
  fold_left
    (fun '(worst_h, bottleneck) itf =>
       let h := headroom itf (lv_get load (name itf)) in
       if match worst_h with None => true | Some w => Qlt_bool h w end
       then (Some h, name itf) else (worst_h, bottleneck))
    interfaces (None, EmptyString).

(** [h > EPS_SLACK] where [h] may be [float('inf')]. *)
Definition above_slack (h : option Q) : bool :=
  match h with None => true | Some x => Qlt_bool EPS_SLACK x end.

(** [l[-1]], absent on an empty list. *)
Definition last_error {A} (l : list A) : option A :=
  match rev l with [] => None | x :: _ => Some x end.

(** [list[i] = x] for [i] in range. *)
Fixpoint list_set {A} (l : list A) (i : nat) (x : A) : list A :=
  match l, i with
  | [], _ => []
  | _ :: r, O => x :: r
  | y :: r, S j => y :: list_set r j x
  end.

(** ** Admission and relaxation

    [route_obligation] and [relax_routing] have the same body in
    lambda_floor.py and in V4; the files differ in [total_cost] and in the
    bounds handed to the path search, which are the section's variables. *)

Section Engine.
Variable total_cost : LoadVector -> list Interface -> Q.
(** network, source, target, max_paths *)
Variable candidate_paths : Network -> string -> string -> Z -> list Path.

(** One turn of the [for path in paths] loop; [best] is
    [(best_path, best_cost)], [None] before the first admissible path
    ([best_path is None], [best_cost = float('inf')]). *)
Definition route_step (interfaces : list Interface) (ob : Obligation)
           (existing_load : LoadVector) (best : option (Path * Q))
           (p : Path) : option (Path * Q) :=
  let new_load :=
    mkLoad (add_contribution (loads existing_load) (load_contribution p)
                             (demand ob)) in
  if negb (is_admissible new_load interfaces) then best
  else
    let c := total_cost new_load interfaces in
    if match best with None => true | Some (_, best_cost) => Qlt_bool c best_cost end
    then Some (p, c) else best.

Definition route_obligation (network : Network) (ob : Obligation)
           (existing_load : LoadVector) (max_paths : Z)
  : option RoutedObligation :=
  let paths := candidate_paths network (source ob) (target ob) max_paths in
  match fold_left (route_step (interfaces network) ob existing_load) paths None with
  | None => None
  | Some (best_path, _) => Some (mkRouted ob best_path)
  end.

Record RelaxState : Type := mkRelax
  { current : list RoutedObligation;
    current_load : LoadVector;
    current_cost : Q;
    improved : bool }.

(** The body of [for i in range(len(current))]. *)
Definition relax_step (network : Network) (st : RelaxState) (i : nat)
  : RelaxState :=
  match nth_error (current st) i with
  | None => st
  | Some r =>
      let ob := obligation r in
      let old_contrib := load_contribution (path r) in
      let remaining_load :=
        mkLoad (remove_contribution (loads (current_load st)) old_contrib
                                    (demand ob)) in
      match route_obligation network ob remaining_load 10 with
      | None => st
      | Some new_routed =>
          let new_contrib := load_contribution (path new_routed) in
          let new_load :=
            mkLoad (add_contribution (loads remaining_load) new_contrib
                                     (demand ob)) in
          let new_cost := total_cost new_load (interfaces network) in
          if Qlt_bool (new_cost + EPS_COST) (current_cost st)
          then mkRelax (list_set (current st) i new_routed) new_load new_cost true
          else st
      end
  end.

(** One pass: [improved = False], then the inner loop. *)
Definition relax_pass (network : Network) (st : RelaxState) : RelaxState :=
  fold_left (relax_step network) (seq 0 (length (current st)))
            (mkRelax (current st) (current_load st) (current_cost st) false).

(** [for _ in range(iterations): ...; if not improved: break] *)
Fixpoint relax_iterate (network : Network) (iterations : nat)
         (st : RelaxState) : RelaxState :=
  match iterations with
  | O => st
  | S k =>
      let st' := relax_pass network st in
      if improved st' then relax_iterate network k st' else st'
  end.

Definition relax_start (network : Network) (routed : list RoutedObligation)
  : RelaxState :=
  let current_load := compute_load_from_routed routed in
  mkRelax routed current_load (total_cost current_load (interfaces network)) false.

Definition relax_run (network : Network) (routed : list RoutedObligation)
           (iterations : Z) : RelaxState :=
  relax_iterate network (Z.to_nat iterations) (relax_start network routed).
End Engine.

(** The exceptions that the embedded code can raise. *)
Inductive exn : Type := ZeroDivisionError | OverflowError | ValueError.

Inductive outcome (A : Type) : Type :=
| Returned (a : A)
| Raised (e : exn).
Arguments Returned {A} a.
Arguments Raised {A} e.

(** A float that may be infinite. *)
Inductive xfloat : Type :=
| Finite (q : Q)
| PosInf
| NegInf.

(** [range(lo, hi)] *)
Definition py_range (lo hi : Z) : list Z :=
  map (fun i => lo + Z.of_nat i) (seq 0 (Z.to_nat (hi - lo))).

(** ** src/utils/lambda_floor.py *)

Module LambdaFloor.

Definition total_cost (load : LoadVector) (interfaces : list Interface) : Q :=
  let itf_map := fold_left (fun m i => PyDict.set m (name i) i) interfaces [] in
  fold_left
    (fun acc '(nm, n) =>
       match PyDict.get itf_map nm with
       | Some itf => (acc + cost itf n)%Q
       | None => acc
       end)
    (loads load) 0%Q.

Definition residual_fraction (load : LoadVector) (interfaces : list Interface)
  : Q * string :=
  fold_left
    (fun '(worst, bn) itf =>
       let n := lv_get load (name itf) in
       let frac := if Qlt_bool 0 (capacity itf)
                   then (cost itf n / capacity itf)%Q else 1%Q in
       if Qlt_bool worst frac then (frac, name itf) else (worst, bn))
    interfaces (0%Q, EmptyString).

(** [find_all_paths(network, source, target, max_length=6, max_paths=max_paths)] *)
Definition candidate_paths (network : Network) (s t : string) (max_paths : Z) :=
  find_all_paths network s t 6 max_paths.

Definition route_obligation := route_obligation total_cost candidate_paths.

Definition relax_routing (network : Network) (routed : list RoutedObligation)
           (iterations : Z) : list RoutedObligation * LoadVector :=
  let st := relax_run total_cost candidate_paths network routed iterations in
  (current st, current_load st).

(** The loop of [route_all_obligations]: [routed] and [load] are the two
    variables it updates; a failed admission returns [None] at once. *)
Fixpoint route_all_loop (network : Network) (obligations : list Obligation)
         (routed : list RoutedObligation) (load : LoadVector)
  : option (list RoutedObligation * LoadVector) :=
  match obligations with
  | [] => Some (routed, load)
  | ob :: rest =>
      match route_obligation network ob load 10 with
      | None => None
      | Some result =>
          route_all_loop network rest (routed ++ [result])
            (mkLoad (add_contribution (loads load)
                                      (load_contribution (path result))
                                      (demand ob)))
      end
  end.

(** [route_all_obligations]; the loop works on a copy of [initial_load]. *)
Definition route_all_obligations (network : Network)
           (obligations : list Obligation) (initial_load : option LoadVector)
  : option (list RoutedObligation * LoadVector) :=
  route_all_loop network obligations []
                 (match initial_load with
                  | Some l => lv_copy l
                  | None => LoadVector_empty
                  end).

Record LambdaState : Type := mkLambda
  { time_step : Z;
    raw_load : LoadVector;
    raw_cost : Q;
    residual_load : LoadVector;
    lambda_E : Q;
    lambda_sigma : Q;
    bottleneck : string;
    action : Q;
    relaxation_savings : Q }.

(** The variables the stream loop of [estimate_lambda_floor] updates. *)
Record FloorState : Type := mkFloor
  { history : list LambdaState;
    active_routed : list RoutedObligation;
    fs_action : Q;
    prev_load : LoadVector }.

(** [(t + 1) % relax_every == 0 or t == len(obligation_stream) - 1];
    the [%] is evaluated first and raises when [relax_every] is zero. *)
Definition relax_due (relax_every t len_stream : Z) : bool :=
  ((t + 1) mod relax_every =? 0) || (t =? len_stream - 1).

(** The record appended to [history] on a relaxation step. *)
Definition relaxation_report (network : Network) (t : Z)
           (active : list RoutedObligation) (new_load : LoadVector) (act : Q)
  : list RoutedObligation * LambdaState :=
  let interfaces := interfaces network in
  let raw := total_cost new_load interfaces in
  let '(relaxed_routed, residual) := relax_routing network active 3 in
  let lam_E := total_cost residual interfaces in
  let '(lam_sigma, bn) := residual_fraction residual interfaces in
  (relaxed_routed,
   mkLambda t new_load raw residual lam_E lam_sigma bn act (raw - lam_E)%Q).

(** The rest of the loop body once [route_obligation] has answered
    [routed]: the route joins the active set, the action grows by the
    transition cost, and on a relaxation step the active set is relaxed and
    a report is recorded. *)
Definition admit_routed (network : Network) (relax_every len_stream : Z) (t : Z)
           (st : FloorState) (routed : RoutedObligation) : FloorState :=
  let active := active_routed st ++ [routed] in
  let new_load := compute_load_from_routed active in
  let act := (fs_action st
              + transition_cost (prev_load st) new_load (interfaces network))%Q in
  if relax_due relax_every t len_stream then
    let '(relaxed_routed, state) :=
      relaxation_report network t active new_load act in
    mkFloor (history st ++ [state]) relaxed_routed act new_load
  else mkFloor (history st) active act new_load.

(** [for t, ob in enumerate(obligation_stream)], from index [t] on: a
    rejection breaks out of the loop; [%] raises on a zero [relax_every]. *)
Fixpoint floor_loop (network : Network) (relax_every len_stream : Z)
         (t : Z) (stream : list Obligation) (st : FloorState)
  : outcome (list LambdaState) :=
  match stream with
  | [] => Returned (history st)
  | ob :: rest =>
      let current_load := compute_load_from_routed (active_routed st) in
      match route_obligation network ob current_load 10 with
      | None => Returned (history st)
      | Some routed =>
          if relax_every =? 0 then Raised ZeroDivisionError
          else floor_loop network relax_every len_stream (t + 1) rest
                          (admit_routed network relax_every len_stream t st routed)
      end
  end.

(** The state after the first [n] obligations of the stream, when each of
    them was admitted in its turn. *)
Fixpoint floor_after (network : Network) (relax_every len_stream : Z)
         (t : Z) (stream : list Obligation) (n : nat) (st : FloorState)
  : option FloorState :=
  match n with
  | O => Some st
  | S n' =>
      match stream with
      | [] => None
      | ob :: rest =>
          match route_obligation network ob
                                 (compute_load_from_routed (active_routed st)) 10 with
          | None => None
          | Some routed =>
              floor_after network relax_every len_stream (t + 1) rest n'
                          (admit_routed network relax_every len_stream t st routed)
          end
      end
  end.

Definition floor_start : FloorState := mkFloor [] [] 0%Q LoadVector_empty.

Definition estimate_lambda_floor (network : Network)
           (obligation_stream : list Obligation) (relax_every : Z)
  : outcome (list LambdaState) :=
  floor_loop network relax_every (Z.of_nat (length obligation_stream)) 0
             obligation_stream floor_start.

End LambdaFloor.

(** ** src/core/admissibility_unified_V4.py *)

Module UnifiedV4.

Definition MAX_RELAX_ITERS : Z := 10.
Definition MAX_PATH_LENGTH : Z := 8.
Definition MAX_PATHS : Z := 20.
Definition MAX_LOAD_PER_INTERFACE : Z := 100.

(** [x or dflt] for an optional integer: [None] and [0] are falsy. *)
Definition py_or (x : option Z) (dflt : Z) : Z :=
  match x with
  | None => dflt
  | Some z => if z =? 0 then dflt else z
  end.

Definition find_all_paths (network : Network) (s t : string)
           (max_length max_paths : option Z) : list Path :=
  find_paths network s t (py_or max_paths MAX_PATHS)
             (py_or max_length MAX_PATH_LENGTH).

Definition total_cost (load : LoadVector) (interfaces : list Interface) : Q :=
  fold_left (fun acc itf => (acc + cost itf (lv_get load (name itf)))%Q)
            interfaces 0%Q.

(** [find_all_paths(network, source, target, max_paths=max_paths)] *)
Definition candidate_paths (network : Network) (s t : string) (max_paths : Z) :=
  find_all_paths network s t None (Some max_paths).

Definition route_obligation := route_obligation total_cost candidate_paths.

Definition relax_routing (network : Network) (routed : list RoutedObligation)
           (iterations : option Z)
  : list RoutedObligation * LoadVector * Q :=
  let iterations := py_or iterations MAX_RELAX_ITERS in
  let initial_cost :=
    total_cost (compute_load_from_routed routed) (interfaces network) in
  let st := relax_run total_cost candidate_paths network routed iterations in
  (current st, current_load st, (initial_cost - current_cost st)%Q).

Record LambdaState : Type := mkLambda
  { time_step : Z;
    raw_cost : Q;
    lambda_E : Q;
    lambda_sigma : Q;
    bottleneck : string;
    action : Q;
    relaxation_savings : Q;
    n_obligations : Z }.

Record FloorState : Type := mkFloor
  { history : list LambdaState;
    active_routed : list RoutedObligation;
    fs_action : Q;
    prev_load : LoadVector }.

(** The report of a relaxation step; the division by the bottleneck's
    capacity raises on a zero capacity. *)
Definition relaxation_report (network : Network) (t : Z)
           (active : list RoutedObligation) (new_load : LoadVector) (act : Q)
  : outcome (list RoutedObligation * LambdaState) :=
  let interfaces := interfaces network in
  let raw := total_cost new_load interfaces in
  let '(relaxed, residual, savings) := relax_routing network active None in
  let lam_E := total_cost residual interfaces in
  let '(_, bn) := min_headroom residual interfaces in
  match get_interface network bn with
  | Some bn_itf =>
      if Qeq_bool (capacity bn_itf) 0 then Raised ZeroDivisionError
      else
        Returned
          (relaxed,
           mkLambda t raw lam_E
                    (cost bn_itf (lv_get residual bn) / capacity bn_itf)%Q
                    bn act savings (Z.of_nat (length relaxed)))
  | None =>
      Returned
        (relaxed,
         mkLambda t raw lam_E 0%Q bn act savings (Z.of_nat (length relaxed)))
  end.

Fixpoint floor_loop (network : Network) (relax_every : Z)
         (t : Z) (stream : list Obligation) (st : FloorState)
  : outcome (list LambdaState) :=
  match stream with
  | [] => Returned (history st)
  | ob :: rest =>
      let current_load := compute_load_from_routed (active_routed st) in
      match route_obligation network ob current_load 10 with
      | None => Returned (history st)
      | Some routed =>
          let active := active_routed st ++ [routed] in
          let new_load := compute_load_from_routed active in
          let act := (fs_action st
                      + transition_cost (prev_load st) new_load
                                        (interfaces network))%Q in
          if relax_every =? 0 then Raised ZeroDivisionError
          else if (t + 1) mod relax_every =? 0 then
            match relaxation_report network t active new_load act with
            | Raised e => Raised e
            | Returned (relaxed, state) =>
                floor_loop network relax_every (t + 1) rest
                           (mkFloor (history st ++ [state]) relaxed act new_load)
            end
          else
            floor_loop network relax_every (t + 1) rest
                       (mkFloor (history st) active act new_load)
      end
  end.

Definition estimate_lambda_floor (network : Network)
           (obligation_stream : list Obligation) (relax_every : Z)
  : outcome (list LambdaState) :=
  floor_loop network relax_every 0 obligation_stream
             (mkFloor [] [] 0%Q LoadVector_empty).

Record HistoryStep : Type := mkStep
  { load : LoadVector;
    time : Q;
    step_cost : Q;                (* the field [transition_cost] *)
    step_admissible : bool;       (* the field [is_admissible] *)
    step_min_headroom : option Q; (* [None] is [float('inf')] *)
    step_bottleneck : string }.

Record History : Type := mkHistory
  { h_interfaces : list Interface; steps : list HistoryStep }.

Definition append (self : History) (ld : LoadVector) : History :=
  let step :=
    match last_error (steps self) with
    | None =>
        let '(h, bn) := min_headroom ld (h_interfaces self) in
        mkStep ld 0%Q 0%Q (above_slack h) h bn
    | Some prev =>
        let t_cost := transition_cost (load prev) ld (h_interfaces self) in
        let '(h, bn) := min_headroom ld (h_interfaces self) in
        mkStep ld (time prev + t_cost)%Q t_cost (above_slack h) h bn
    end in
  mkHistory (h_interfaces self) (steps self ++ [step]).

(** [linear_cost], [quadratic_cost] and [eta_share] of [Interface]. *)
Definition linear_cost (itf : Interface) (n : Z) : Q :=
  if 0 <? n then (epsilon itf * inject_Z n)%Q else 0%Q.

Definition quadratic_cost (itf : Interface) (n : Z) : Q :=
  if n <=? 1 then 0%Q
  else (eta itf * inject_Z n * inject_Z (n - 1) / 2)%Q.

Definition eta_share (itf : Interface) (n : Z) : Q :=
  let total := cost itf n in
  if Qle_bool total 0 then 0%Q else (quadratic_cost itf n / total)%Q.

(** [min(itf.capacity for itf in interfaces) if interfaces else 1.0] *)
Definition min_capacity (interfaces : list Interface) : Q :=
  match interfaces with
  | [] => 1%Q
  | itf :: rest =>
      fold_left (fun m i => if Qlt_bool (capacity i) m then capacity i else m)
                rest (capacity itf)
  end.

(** [composability_index]: the division raises on a zero minimal
    capacity; the minimal headroom is infinite on an empty interface list. *)
Definition composability_index (load : LoadVector) (interfaces : list Interface)
  : outcome xfloat :=
  let '(h, _) := min_headroom load interfaces in
  let min_cap := min_capacity interfaces in
  if Qeq_bool min_cap 0 then Raised ZeroDivisionError
  else
    match h with
    | Some x => Returned (Finite ((x - EPS_SLACK) / min_cap))
    | None => Returned (if Qlt_bool 0 min_cap then PosInf else NegInf)
    end.

(** The [info] dictionary of [analyze_regime_boundary]. *)
Record RegimeInfo : Type := mkInfo
  { size : Z;
    info_headroom : option Q;     (* [None] is [float('inf')] *)
    kappa : xfloat;
    info_bottleneck : string;
    info_eta_share : Q;
    admissible : bool }.

(** The dictionary that [analyze_regime_boundary] returns; [analyses] is
    keyed by the sizes, which are distinct and inserted in order. *)
Record RegimeBoundary : Type := mkBoundary
  { composable : list Z;
    saturating : list Z;
    analyses : list (Z * RegimeInfo);
    max_composable : Z }.

(** One turn of [for size in range(1, max_size + 1)]. *)
Definition regime_step (interfaces : list Interface)
           (acc : outcome (list Z * list Z * list (Z * RegimeInfo))) (sz : Z)
  : outcome (list Z * list Z * list (Z * RegimeInfo)) :=
  match acc with
  | Raised e => Raised e
  | Returned (comp, sat, an) =>
      let load := LoadVector_uniform interfaces sz in
      let '(h, bn) := min_headroom load interfaces in
      match composability_index load interfaces with
      | Raised e => Raised e
      | Returned kap =>
          let share :=
            match interfaces with
            | [] => 0%Q
            | first :: _ =>
                let bn_itf :=
                  match find (fun i => String.eqb (name i) bn) interfaces with
                  | Some i => i
                  | None => first
                  end in
                eta_share bn_itf sz
            end in
          let info := mkInfo sz h kap bn share (above_slack h) in
          if above_slack h
          then Returned (comp ++ [sz], sat, an ++ [(sz, info)])
          else Returned (comp, sat ++ [sz], an ++ [(sz, info)])
      end
  end.

Definition analyze_regime_boundary (interfaces : list Interface) (max_size : Z)
  : outcome RegimeBoundary :=
  match fold_left (regime_step interfaces) (py_range 1 (max_size + 1))
                  (Returned ([], [], [])) with
  | Raised e => Raised e
  | Returned (comp, sat, an) =>
      Returned (mkBoundary comp sat an
                  (match comp with
                   | [] => 0
                   | c :: rest => fold_left Z.max rest c
                   end))
  end.

Record OptimalityResult : Type := mkOptimality
  { best_cost : Q;
    lower_bound : Q;
    optimality_gap : Q;
    is_optimal : bool;
    method : string;
    paths_explored : Z }.

(** [min(xs, key=...)] on a non-empty list: the first item with the least
    key. *)
Definition py_min_by {A : Type} (key : A -> Q) (first : A) (rest : list A) : A :=
  fold_left (fun b x => if Qlt_bool (key x) (key b) then x else b) rest first.

(** [route_obligation_optimal]; [paths_explored] counts the turns of the
    loop over [paths], which has no early exit. *)
Definition route_obligation_optimal (network : Network) (ob : Obligation)
           (existing_load : LoadVector) (method : string) (budget : Z)
  : option (RoutedObligation * OptimalityResult) :=
  let paths := find_all_paths network (source ob) (target ob) None (Some budget) in
  let interfaces := interfaces network in
  let solutions :=
    fold_left
      (fun solutions p =>
         let new_load :=
           mkLoad (add_contribution (loads existing_load) (load_contribution p)
                                    (demand ob)) in
         if is_admissible new_load interfaces
         then solutions ++ [(p, total_cost new_load interfaces)]
         else solutions)
      paths [] in
  let paths_explored := Z.of_nat (length paths) in
  match solutions with
  | [] => None
  | first :: rest =>
      let '(best_path, best_cost) := py_min_by snd first rest in
      let min_epsilon :=
        match interfaces with
        | [] => 1%Q
        | itf :: others =>
            fold_left (fun m i => if Qlt_bool (epsilon i) m then epsilon i else m)
                      others (epsilon itf)
        end in
      let min_path_length :=
        fold_left Z.min
                  (map (fun s => Z.of_nat (length (p_edges (fst s)))) rest)
                  (Z.of_nat (length (p_edges (fst first)))) in
      let existing_cost := total_cost existing_load interfaces in
      let lower_bound :=
        (existing_cost
         + min_epsilon * inject_Z min_path_length * inject_Z (demand ob))%Q in
      let gap := if Qlt_bool 0 lower_bound
                 then ((best_cost - lower_bound) / lower_bound)%Q else 0%Q in
      Some (mkRouted ob best_path,
            mkOptimality best_cost lower_bound gap
                         (String.eqb method "exhaustive"
                          && (paths_explored =? Z.of_nat (length paths)))
                         method paths_explored)
  end.

End UnifiedV4.

(** ** src/utils/accumulated_cost.py *)

Module AccumulatedCost.

Record HistoryStep : Type := mkStep
  { load : LoadVector;
    time : Q;
    step_cost : Q;                (* the field [transition_cost] *)
    step_admissible : bool;       (* the field [is_admissible] *)
    step_min_headroom : option Q; (* [None] is [float('inf')] *)
    step_bottleneck : string }.

Record History : Type := mkHistory
  { h_interfaces : list Interface; steps : list HistoryStep }.

Definition _make_step (self : History) (ld : LoadVector) (tm t_cost : Q)
  : HistoryStep :=
  let '(min_h, bn) := min_headroom ld (h_interfaces self) in
  mkStep ld tm t_cost (above_slack min_h) min_h bn.

Definition append (self : History) (ld : LoadVector) : History :=
  match last_error (steps self) with
  | None =>
      let step := _make_step self ld 0%Q 0%Q in
      mkHistory (h_interfaces self) (steps self ++ [step])
  | Some prev =>
      let t_cost := transition_cost (load prev) ld (h_interfaces self) in
      let new_time := (time prev + t_cost)%Q in
      let step := _make_step self ld new_time t_cost in
      mkHistory (h_interfaces self) (steps self ++ [step])
  end.

(** [History(interfaces)] followed by one [append] per load. *)
Definition appended (interfaces : list Interface) (lds : list LoadVector)
  : History :=
  fold_left append lds (mkHistory interfaces []).

(** [transition_cost_signed]: the increases and the decreases apart. *)
Definition transition_cost_signed (L_prev L_next : LoadVector)
           (interfaces : list Interface) : Q * Q :=
  fold_left
    (fun '(increase, decrease) itf =>
       let n_prev := lv_get L_prev (name itf) in
       let n_next := lv_get L_next (name itf) in
       let delta_E := (cost itf n_next - cost itf n_prev)%Q in
       if Qlt_bool 0 delta_E then ((increase + delta_E)%Q, decrease)
       else (increase, (decrease + Qabs delta_E)%Q))
    interfaces (0%Q, 0%Q).

(** The property [History.action]. *)
Definition action (self : History) : Q :=
  match last_error (steps self) with
  | Some s => time s
  | None => 0%Q
  end.

(** The property [History.duration]. *)
Definition duration (self : History) : Z :=
  Z.max 0 (Z.of_nat (length (steps self)) - 1).

(** The property [History.is_admissible]. *)
Definition history_is_admissible (self : History) : bool :=
  forallb step_admissible (steps self).

Definition initial_load (self : History) : option LoadVector :=
  match steps self with
  | [] => None
  | s :: _ => Some (load s)
  end.

Definition final_load (self : History) : option LoadVector :=
  match last_error (steps self) with
  | Some s => Some (load s)
  | None => None
  end.

(** [sum(...)] over a generator: Python adds from the left, starting at 0. *)
Definition py_sum (l : list Q) : Q := fold_left Qplus l 0%Q.

(** [history_cost]; [loads[i]] stays in range, the default of [nth] is
    never read. *)
Definition history_cost (lds : list LoadVector) (interfaces : list Interface) : Q :=
  if (length lds <? 2)%nat then 0%Q
  else py_sum (map (fun i => transition_cost (nth i lds LoadVector_empty)
                                             (nth (i + 1) lds LoadVector_empty)
                                             interfaces)
                   (seq 0 (length lds - 1))).

Definition is_transition_admissible (L_prev L_next : LoadVector)
           (interfaces : list Interface) : bool :=
  forallb
    (fun itf =>
       let n := lv_get L_next (name itf) in
       negb (Qle_bool (headroom itf n) EPS_SLACK))
    interfaces.

(** [range(-max_delta, max_delta + 1)] *)
Definition delta_range (max_delta : Z) : list Z :=
  map (fun i => - max_delta + Z.of_nat i) (seq 0 (Z.to_nat (2 * max_delta + 1))).

(** [itertools.product(deltas, repeat=n)]: the last position varies fastest. *)
Fixpoint product (deltas : list Z) (n : nat) : list (list Z) :=
  match n with
  | O => [[]]
  | S n' => flat_map (fun d => map (cons d) (product deltas n')) deltas
  end.

(** The loop over [zip(interface_names, delta_combo)]: [None] when it
    breaks on a negative load ([valid = False]). *)
Fixpoint shifted_loads (ld : LoadVector) (pairs : list (string * Z))
         (new_loads : PyDict.dict Z) : option (PyDict.dict Z) :=
  match pairs with
  | [] => Some new_loads
  | (nm, delta) :: rest =>
      let new_n := lv_get ld nm + delta in
      if new_n <? 0 then None
      else shifted_loads ld rest (PyDict.set new_loads nm new_n)
  end.

Definition admissible_neighbors (ld : LoadVector) (interfaces : list Interface)
           (max_delta : Z) : list LoadVector :=
  let interface_names := map name interfaces in
  fold_left
    (fun neighbors delta_combo =>
       if forallb (fun d => d =? 0) delta_combo then neighbors
       else
         match shifted_loads ld (combine interface_names delta_combo) [] with
         | None => neighbors
         | Some new_loads =>
             let new_load := mkLoad new_loads in
             if is_transition_admissible ld new_load interfaces
             then neighbors ++ [new_load] else neighbors
         end)
    (product (delta_range max_delta) (length interface_names)) [].

(** [min(itf.epsilon for itf in interfaces)], [0.0] on an empty list. *)
Definition minimum_action_quantum (interfaces : list Interface) : Q :=
  match interfaces with
  | [] => 0%Q
  | itf :: rest =>
      fold_left (fun m i => if Qlt_bool (epsilon i) m then epsilon i else m)
                rest (epsilon itf)
  end.

End AccumulatedCost.

(** ** src/utils/routing_engine_v1.py *)

Module RoutingEngine.

Record RoutingResult : Type := mkResult
  { r_path : Path;
    r_load_vector : LoadVector;
    r_total_cost : Q;
    r_is_admissible : bool;
    r_min_headroom : option Q;   (* [None] is [float('inf')] *)
    r_bottleneck : string;
    r_costs : PyDict.dict Q;
    r_headrooms : PyDict.dict Q }.

(** The variables updated by the interface loop of [analyze_routing]. *)
Record Analysis : Type := mkAnalysis
  { costs : PyDict.dict Q;
    headrooms : PyDict.dict Q;
    total_cost : Q;
    min_headroom : option Q;
    bottleneck : string }.

Definition analyze_step (total_load : LoadVector) (a : Analysis)
           (itf : Interface) : Analysis :=
  let n := lv_get total_load (name itf) in
  let c := cost itf n in
  let h := headroom itf n in
  let lower := match min_headroom a with
               | None => true
               | Some m => Qlt_bool h m
               end in
  mkAnalysis (PyDict.set (costs a) (name itf) c)
             (PyDict.set (headrooms a) (name itf) h)
             (total_cost a + c)%Q
             (if lower then Some h else min_headroom a)
             (if lower then name itf else bottleneck a).

Definition analyze_routing (p : Path) (interfaces : list Interface)
           (existing_load : option LoadVector) : RoutingResult :=
  let path_load := load_vector p in
  let total_load := match existing_load with
                    | Some e => lv_add e path_load
                    | None => path_load
                    end in
  let a := fold_left (analyze_step total_load) interfaces
                     (mkAnalysis [] [] 0%Q None EmptyString) in
  mkResult p total_load (total_cost a) (above_slack (min_headroom a))
           (min_headroom a) (bottleneck a) (costs a) (headrooms a).

(** One turn of [for path in paths]; the state is
    [(best_result, best_cost)], [best_cost = None] for [float('inf')]. *)
Definition best_step (interfaces : list Interface)
           (existing_load : option LoadVector)
           (best : option RoutingResult * option Q) (p : Path)
  : option RoutingResult * option Q :=
  let result := analyze_routing p interfaces existing_load in
  if r_is_admissible result
     && match snd best with
        | None => true
        | Some best_cost => Qlt_bool (r_total_cost result) best_cost
        end
  then (Some result, Some (r_total_cost result))
  else best.

Definition best_routing (network : Network) (s t : string)
           (existing_load : option LoadVector) (k : Z)
  : option RoutingResult :=
  let paths := find_k_shortest_paths network s t k in
  fst (fold_left (best_step (interfaces network) existing_load) paths
                 (None, None)).

(** [distance]; the distance is [None] for [float('inf')].  [best_routing]
    is called with its default [k = 10]. *)
Definition distance (network : Network) (u v : string)
           (existing_load : option LoadVector)
  : option Q * option RoutingResult :=
  if String.eqb u v then
    (Some 0%Q,
     Some (mkResult (mkPath [u] [])
                    (match existing_load with
                     | Some l => l
                     | None => LoadVector_empty
                     end)
                    0%Q true None EmptyString [] []))
  else
    match best_routing network u v existing_load 10 with
    | None => (None, None)
    | Some result => (Some (r_total_cost result), Some result)
    end.

Record MotifConnection : Type := mkConnection
  { c_source : string; c_target : string; c_demand : Z }.

Record Motif : Type := mkMotif
  { m_name : string; connections : list MotifConnection }.

Record MotifRoutingResult : Type := mkMotifResult
  { motif : Motif;
    routes : list RoutingResult;
    combined_load : LoadVector;
    m_total_cost : Q;
    m_is_admissible : bool;
    m_min_headroom : option Q;   (* [None] is [float('inf')] *)
    m_bottleneck : string }.

(** [Motif.total_demand] *)
Definition total_demand (m : Motif) : Z :=
  fold_left (fun acc c => acc + c_demand c) (connections m) 0.

(** The turns of the two nested loops of [route_motif], in order: each
    connection [range(conn.demand)] times. *)
Definition motif_requests (m : Motif) : list MotifConnection :=
  flat_map (fun conn => repeat conn (Z.to_nat (c_demand conn))) (connections m).

(** The loops of [route_motif] over [routes] and [current_load]; a failed
    routing returns [None] at once. *)
Fixpoint motif_loop (network : Network) (requests : list MotifConnection)
         (routes : list RoutingResult) (current_load : LoadVector)
  : option (list RoutingResult * LoadVector) :=
  match requests with
  | [] => Some (routes, current_load)
  | conn :: rest =>
      match best_routing network (c_source conn) (c_target conn)
                         (Some current_load) 10 with
      | None => None
      | Some result =>
          motif_loop network rest (routes ++ [result]) (r_load_vector result)
      end
  end.

Definition route_motif (network : Network) (m : Motif)
           (existing_load : option LoadVector) : option MotifRoutingResult :=
  let interfaces := interfaces network in
  let start := match existing_load with
               | Some l => l
               | None => LoadVector_empty
               end in
  match motif_loop network (motif_requests m) [] start with
  | None => None
  | Some (routes, current_load) =>
      let '(min_h, bn) :=
        fold_left
          (fun '(worst_h, worst_name) itf =>
             let h := headroom itf (lv_get current_load (name itf)) in
             if match worst_h with None => true | Some w => Qlt_bool h w end
             then (Some h, name itf) else (worst_h, worst_name))
          interfaces (None, EmptyString) in
      Some (mkMotifResult m routes current_load
              (fold_left (fun acc itf =>
                            (acc + cost itf (lv_get current_load (name itf)))%Q)
                         interfaces 0%Q)
              (above_slack min_h) min_h bn)
  end.

End RoutingEngine.

(** ** Binary64 arithmetic

    Where a statement depends on the rounding or on the range of Python's
    [float], the code is embedded a second time over IEEE binary64 numbers
    (the kernel's primitive floats): [cost], [headroom] and [max_n] of
    [Interface], the admission functions [is_admissible], [total_cost] and
    [route_obligation] of lambda_floor.py, and [analyze_routing] and
    [best_routing] of routing_engine_v1.py.  The fields of an [Interface]
    stand for the doubles nearest to them, as float literals do. *)

Module Binary64.
Import PrimFloat.

(** The least magnitude that the conversion of an [int] to a [float]
    refuses: halfway between the largest double and [2^1024]. *)
Definition FLOAT_OVERFLOW : Z := 2 ^ 1024 - 2 ^ 970.

(** [m * 2^e], rounded to the nearest double, ties to even. *)
Definition round (m e : Z) : float :=
  FloatOps.SF2Prim
    (SpecFloat.binary_normalize FloatOps.prec FloatOps.emax m e false).

(** The conversion of an [int] operand in mixed arithmetic; it raises
    "int too large to convert to float". *)
Definition float_of_int (n : Z) : outcome float :=
  if FLOAT_OVERFLOW <=? Z.abs n then Raised OverflowError
  else Returned (round n 0).

(** The double nearest to a rational: the quotient is cut after at least
    64 bits and a sticky bit records whether anything was cut off. *)
Definition to_float (q : Q) : float :=
  let n := Z.abs (Qnum q) in
  let d := Zpos (Qden q) in
  let s := Z.max 0 (Z.log2 d - Z.log2 n + 64) in
  let m := n * 2 ^ s / d in
  let sticky := if (n * 2 ^ s) mod d =? 0 then 0 else 1 in
  let mag := 2 * m + sticky in
  round (if Qnum q <? 0 then - mag else mag) (- s - 1).

(** [int(x)]: truncation towards zero; it raises on an infinity
    ("cannot convert float infinity to integer") and on a NaN. *)
Definition int_of_float (x : float) : outcome Z :=
  match FloatOps.Prim2SF x with
  | SpecFloat.S754_nan => Raised ValueError
  | SpecFloat.S754_infinity _ => Raised OverflowError
  | SpecFloat.S754_zero _ => Returned 0
  | SpecFloat.S754_finite s m e =>
      let mag := if 0 <=? e then Zpos m * 2 ^ e else Zpos m / 2 ^ (- e) in
      Returned (if s then - mag else mag)
  end.

Definition bind {A B} (x : outcome A) (f : A -> outcome B) : outcome B :=
  match x with
  | Returned a => f a
  | Raised e => Raised e
  end.

Notation "x <- e ;; k" := (bind e (fun x => k))
  (at level 61, e at next level, right associativity).

(** *** Interface *)

(** [self.epsilon * n + self.eta * n * (n - 1) / 2]: both [n] and [n - 1]
    are converted to [float]. *)
Definition cost (itf : Interface) (n : Z) : outcome float :=
  if n <=? 0 then Returned 0%float
  else
    x <- float_of_int n ;;
    y <- float_of_int (n - 1) ;;
    Returned (to_float (epsilon itf) * x + to_float (eta itf) * x * y / 2)%float.

Definition headroom (itf : Interface) (n : Z) : outcome float :=
  c <- cost itf n ;;
  Returned (to_float (capacity itf) - c)%float.

(** [max_n] of routing_engine_v1.py, lambda_floor.py and
    accumulated_cost.py. *)
Definition max_n (itf : Interface) : outcome Z :=
  let capacity := to_float (capacity itf) in
  let epsilon := to_float (epsilon itf) in
  let eta := to_float (eta itf) in
  if (eta <? to_float ETA_ZERO)%float then
    if (0 <? epsilon)%float then int_of_float (capacity / epsilon)%float
    else Returned 999
  else
    let a := (eta / 2)%float in
    let b := (epsilon - eta / 2)%float in
    let c := (- capacity)%float in
    let disc := (b * b - 4 * a * c)%float in
    if (0 <=? disc)%float then
      n <- int_of_float ((- b + sqrt disc) / (2 * a))%float ;;
      Returned (Z.max 0 n)
    else Returned 0.

(** [max_n] of V4, which clamps to [Constants.MAX_LOAD_PER_INTERFACE]. *)
Module V4.
Definition max_n (itf : Interface) : outcome Z :=
  let capacity := to_float (capacity itf) in
  let epsilon := to_float (epsilon itf) in
  let eta := to_float (eta itf) in
  if (eta <? to_float ETA_ZERO)%float then
    n <- (if (0 <? epsilon)%float then int_of_float (capacity / epsilon)%float
          else Returned 999) ;;
    Returned (Z.min n UnifiedV4.MAX_LOAD_PER_INTERFACE)
  else
    let a := (eta / 2)%float in
    let b := (epsilon - eta / 2)%float in
    let c := (- capacity)%float in
    let disc := (b * b - 4 * a * c)%float in
    if (disc <? 0)%float then Returned 0
    else
      n <- int_of_float ((- b + sqrt disc) / (2 * a))%float ;;
      Returned (Z.min (Z.max 0 n) UnifiedV4.MAX_LOAD_PER_INTERFACE).
End V4.

(** *** lambda_floor.py *)

(** The loop returns [False] at the first interface without headroom above
    the slack; the interfaces after it are not looked at. *)
Fixpoint is_admissible (load : LoadVector) (interfaces : list Interface)
  : outcome bool :=
  match interfaces with
  | [] => Returned true
  | itf :: rest =>
      h <- headroom itf (lv_get load (name itf)) ;;
      if (h <=? to_float EPS_SLACK)%float then Returned false
      else is_admissible load rest
  end.

(** [sum(...)] over the entries of the load, added from left to right. *)
Definition total_cost (load : LoadVector) (interfaces : list Interface)
  : outcome float :=
  let itf_map := fold_left (fun m i => PyDict.set m (name i) i) interfaces [] in
  fold_left
    (fun acc '(nm, n) =>
       a <- acc ;;
       match PyDict.get itf_map nm with
       | Some itf => c <- cost itf n ;; Returned (a + c)%float
       | None => Returned a
       end)
    (loads load) (Returned 0%float).

(** One turn of [for path in paths]; the state is
    [(best_path, best_cost)], started at [(None, float('inf'))]. *)
Definition route_step (interfaces : list Interface) (ob : Obligation)
           (existing_load : LoadVector) (best : outcome (option Path * float))
           (p : Path) : outcome (option Path * float) :=
  b <- best ;;
  let new_load :=
    mkLoad (add_contribution (loads existing_load) (load_contribution p)
                             (demand ob)) in
  ok <- is_admissible new_load interfaces ;;
  if negb ok then Returned b
  else
    c <- total_cost new_load interfaces ;;
    if (c <? snd b)%float then Returned (Some p, c) else Returned b.

Definition route_obligation (network : Network) (ob : Obligation)
           (existing_load : LoadVector) (max_paths : Z)
  : outcome (option RoutedObligation) :=
  let paths :=
    LambdaFloor.candidate_paths network (source ob) (target ob) max_paths in
  b <- fold_left (route_step (interfaces network) ob existing_load) paths
                 (Returned (None, infinity)) ;;
  Returned (option_map (mkRouted ob) (fst b)).

(** *** routing_engine_v1.py *)

Record RoutingResult : Type := mkResult
  { r_path : Path;
    r_load_vector : LoadVector;
    r_total_cost : float;
    r_is_admissible : bool;
    r_min_headroom : float;
    r_bottleneck : string;
    r_costs : PyDict.dict float;
    r_headrooms : PyDict.dict float }.

(** The variables updated by the interface loop of [analyze_routing]. *)
Record Analysis : Type := mkAnalysis
  { a_costs : PyDict.dict float;
    a_headrooms : PyDict.dict float;
    a_total_cost : float;
    a_min_headroom : float;
    a_bottleneck : string }.

Definition analyze_step (total_load : LoadVector) (acc : outcome Analysis)
           (itf : Interface) : outcome Analysis :=
  a <- acc ;;
  let n := lv_get total_load (name itf) in
  c <- cost itf n ;;
  h <- headroom itf n ;;
  let lower := (h <? a_min_headroom a)%float in
  Returned (mkAnalysis (PyDict.set (a_costs a) (name itf) c)
                       (PyDict.set (a_headrooms a) (name itf) h)
                       (a_total_cost a + c)%float
                       (if lower then h else a_min_headroom a)
                       (if lower then name itf else a_bottleneck a)).

Definition analyze_routing (p : Path) (interfaces : list Interface)
           (existing_load : option LoadVector) : outcome RoutingResult :=
  let path_load := load_vector p in
  let total_load := match existing_load with
                    | Some e => lv_add e path_load
                    | None => path_load
                    end in
  a <- fold_left (analyze_step total_load) interfaces
                 (Returned (mkAnalysis [] [] 0%float infinity EmptyString)) ;;
  Returned (mkResult p total_load (a_total_cost a)
                     (to_float EPS_SLACK <? a_min_headroom a)%float
                     (a_min_headroom a) (a_bottleneck a)
                     (a_costs a) (a_headrooms a)).

(** One turn of [for path in paths]; the state is
    [(best_result, best_cost)], started at [(None, float('inf'))]. *)
Definition best_step (interfaces : list Interface)
           (existing_load : option LoadVector)
           (best : outcome (option RoutingResult * float)) (p : Path)
  : outcome (option RoutingResult * float) :=
  b <- best ;;
  result <- analyze_routing p interfaces existing_load ;;
  if r_is_admissible result && (r_total_cost result <? snd b)%float
  then Returned (Some result, r_total_cost result)
  else Returned b.

Definition best_routing (network : Network) (s t : string)
           (existing_load : option LoadVector) (k : Z)
  : outcome (option RoutingResult) :=
  let paths := find_k_shortest_paths network s t k in
  b <- fold_left (best_step (interfaces network) existing_load) paths
                 (Returned (None, infinity)) ;;
  Returned (fst b).

End Binary64.

(** ** Vocabulary of the statements *)

(** [existing_load] with [demand] units added on every edge of [p]: the
    [new_load] that [route_obligation] builds for a candidate. *)
Definition hypothetical_load (existing : LoadVector) (p : Path) (demand : Z)
  : LoadVector :=
  mkLoad (add_contribution (loads existing) (load_contribution p) demand).

(** The [total_load] of [analyze_routing]: the path's own load, on top of
    [existing_load] when one is given. *)
Definition total_load (existing : option LoadVector) (p : Path) : LoadVector :=
  match existing with
  | Some e => lv_add e (load_vector p)
  | None => load_vector p
  end.

(** The units a contribution puts on the interface [nm]. *)
Fixpoint contribution_weight (contrib : PyDict.dict Z) (nm : string) : Z :=
  match contrib with
  | [] => 0
  | (k, c) :: r =>
      (if String.eqb k nm then c else 0) + contribution_weight r nm
  end.

(** The load that a list of routed obligations puts on [nm]: demand times
    the units of the path, summed over the obligations. *)
Fixpoint routed_load (routed : list RoutedObligation) (nm : string) : Z :=
  match routed with
  | [] => 0
  | r :: l =>
      contribution_weight (load_contribution (path r)) nm * demand (obligation r)
      + routed_load l nm
  end.

(** What the relaxation loop maintains: the running cost is the cost of
    the running load, the obligations are those of the input, and the
    running load is the load of the current routes. *)
Definition relax_inv (total_cost : LoadVector -> list Interface -> Q)
           (itfs : list Interface) (routed0 : list RoutedObligation)
           (st : RelaxState) : Prop :=
  current_cost st = total_cost (current_load st) itfs
  /\ map obligation (current st) = map obligation routed0
  /\ forall nm, lv_get (current_load st) nm = routed_load (current st) nm.

(** [e] is an edge of the network between [a] and [b], in either direction. *)
Definition connects (net : Network) (e : Edge) (a b : string) : Prop :=
  In e (edges net) /\ ((u e = a /\ v e = b) \/ (v e = a /\ u e = b)).

(** [es] are the edges of a walk through the nodes [ns], one per hop. *)
Fixpoint is_walk (net : Network) (ns : list string) (es : list Edge) : Prop :=
  match ns, es with
  | [_], [] => True
  | a :: ((b :: _) as ns'), e :: es' => connects net e a b /\ is_walk net ns' es'
  | _, _ => False
  end.

(** A simple path from [s] to [t] of at most [max_length] edges. *)
Definition simple_path (net : Network) (s t : string) (max_length : Z)
           (p : Path) : Prop :=
  hd_error (p_nodes p) = Some s
  /\ last_error (p_nodes p) = Some t
  /\ NoDup (p_nodes p)
  /\ is_walk net (p_nodes p) (p_edges p)
  /\ Z.of_nat (path_length p) <= max_length.

(** The paths of [l] with exactly [k] edges, in the order of [l]. *)
Definition of_length (k : nat) (l : list Path) : list Path :=
  filter (fun p => (path_length p =? k)%nat) l.

Definition sorted_by_length (l : list Path) : Prop :=
  StronglySorted (fun p q => (path_length p <= path_length q)%nat) l.

(** The stream indices among [t, t+1, ..., t+m-1] on which
    lambda_floor.py relaxes and reports. *)
Definition due_steps (relax_every len_stream t : Z) (m : nat) : list Z :=
  filter (fun i => LambdaFloor.relax_due relax_every i len_stream)
         (map (fun i => t + Z.of_nat i) (seq 0 m)).

(** Every interface keeps a headroom strictly above the slack margin. *)
Definition admissible_load (L : LoadVector) (itfs : list Interface) : Prop :=
  forall itf, In itf itfs -> (EPS_SLACK < headroom itf (lv_get L (name itf)))%Q.

(** A step of the relaxation loop that replaces the route at position [i]:
    the obligation is kept, the new load is admissible, and its cost is
    below the previous cost by more than the tolerance. *)
Definition strict_improvement (total_cost : LoadVector -> list Interface -> Q)
           (itfs : list Interface) (st st' : RelaxState) (i : nat) : Prop :=
  exists r r',
    nth_error (current st) i = Some r
    /\ current st' = list_set (current st) i r'
    /\ obligation r' = obligation r
    /\ improved st' = true
    /\ admissible_load (current_load st') itfs
    /\ current_cost st' = total_cost (current_load st') itfs
    /\ (current_cost st' + EPS_COST < current_cost st)%Q.

(** [p] is admissible, strictly cheaper than every admissible candidate
    before it and at most as expensive as every admissible one after it. *)
Definition first_cheapest {A : Type} (adm : A -> bool) (c : A -> Q)
           (paths : list A) (p : A) : Prop :=
  adm p = true
  /\ exists l1 l2,
      paths = l1 ++ p :: l2
      /\ (forall q, In q l1 -> adm q = true -> (c p < c q)%Q)
      /\ (forall q, In q l2 -> adm q = true -> (c p <= c q)%Q).

(** Keeping the first cheapest admissible candidate, one candidate at a
    time; the loops of [route_obligation] and [best_routing] are instances. *)
Definition select_step {A : Type} (adm : A -> bool) (c : A -> Q)
           (best : option A) (x : A) : option A :=
  if adm x && match best with
              | None => true
              | Some b => Qlt_bool (c x) (c b)
              end
  then Some x else best.

(** The histories grown from [History(interfaces)] in V4. *)
Definition v4_appended (itfs : list Interface) (lds : list LoadVector)
  : UnifiedV4.History :=
  fold_left UnifiedV4.append lds (UnifiedV4.mkHistory itfs []).

Definition ac_view (s : AccumulatedCost.HistoryStep) : LoadVector * Q * Q :=
  (AccumulatedCost.load s, AccumulatedCost.time s, AccumulatedCost.step_cost s).

Definition v4_view (s : UnifiedV4.HistoryStep) : LoadVector * Q * Q :=
  (UnifiedV4.load s, UnifiedV4.time s, UnifiedV4.step_cost s).

(** The steps of a history, in order: the first has time 0 and step cost
    0, each later one costs the transition from its predecessor and adds
    that cost to the time. *)
Definition time_ordered {T : Type} (load : T -> LoadVector)
           (time step_cost : T -> Q)
           (itfs : list Interface) (st : list T) : Prop :=
  (forall s, nth_error st 0 = Some s -> time s = 0%Q /\ step_cost s = 0%Q)
  /\ (forall i s s',
         nth_error st i = Some s -> nth_error st (S i) = Some s' ->
         step_cost s' = transition_cost (load s) (load s') itfs
         /\ (0 <= step_cost s')%Q
         /\ time s' = (time s + step_cost s')%Q
         /\ (time s <= time s')%Q).

(** [after] is [before] with one more step, for the load [ld]: at time 0
    and cost 0 when [before] is empty, else at the time of the last step
    plus the transition cost from it. *)
Definition extends_by {T : Type} (load : T -> LoadVector)
           (time step_cost : T -> Q) (itfs : list Interface)
           (before after : list T) (ld : LoadVector) : Prop :=
  exists s,
    after = before ++ [s]
    /\ load s = ld
    /\ match last_error before with
       | None => time s = 0%Q /\ step_cost s = 0%Q
       | Some prev =>
           step_cost s = transition_cost (load prev) ld itfs
           /\ time s = (time prev + step_cost s)%Q
           /\ (time prev <= time s)%Q
       end.

(** The [(load, time, transition_cost)] triples of a history grown from
    empty by [append]. *)
Inductive ledger (itfs : list Interface) : list (LoadVector * Q * Q) -> Prop :=
| ledger_nil : ledger itfs []
| ledger_first ld : ledger itfs [(ld, 0%Q, 0%Q)]
| ledger_snoc l pl pt pc ld :
    ledger itfs (l ++ [(pl, pt, pc)]) ->
    ledger itfs ((l ++ [(pl, pt, pc)])
                 ++ [(ld, (pt + transition_cost pl ld itfs)%Q,
                      transition_cost pl ld itfs)]).

(** What a report of the floor estimator of lambda_floor.py holds: the
    costs of its two loads, their non-negative difference, the fraction
    and bottleneck of the residual load; both loads are admissible. *)
Definition sound_report (network : Network) (s : LambdaFloor.LambdaState)
  : Prop :=
  let itfs := interfaces network in
  LambdaFloor.raw_cost s = LambdaFloor.total_cost (LambdaFloor.raw_load s) itfs
  /\ LambdaFloor.lambda_E s
     = LambdaFloor.total_cost (LambdaFloor.residual_load s) itfs
  /\ LambdaFloor.relaxation_savings s
     = (LambdaFloor.raw_cost s - LambdaFloor.lambda_E s)%Q
  /\ (0 <= LambdaFloor.relaxation_savings s)%Q
  /\ (LambdaFloor.lambda_sigma s, LambdaFloor.bottleneck s)
     = LambdaFloor.residual_fraction (LambdaFloor.residual_load s) itfs
  /\ admissible_load (LambdaFloor.raw_load s) itfs
  /\ admissible_load (LambdaFloor.residual_load s) itfs
  /\ (0 <= LambdaFloor.action s)%Q.

(** The fraction of its capacity that an interface spends under a load,
    as [residual_fraction] computes it: 1 on a capacity that is not
    positive. *)
Definition spent_fraction (load : LoadVector) (itf : Interface) : Q :=
  if Qlt_bool 0 (capacity itf)
  then (cost itf (lv_get load (name itf)) / capacity itf)%Q else 1%Q.

(** The number of edges of [p] that run over the interface named [nm]. *)
Definition path_hops (p : Path) (nm : string) : Z :=
  Z.of_nat (length (filter (fun e => String.eqb (name (interface e)) nm)
                           (p_edges p))).

(** The load that the routes of a motif put on [nm]: one unit per
    traversed edge. *)
Fixpoint routes_hops (routes : list RoutingEngine.RoutingResult) (nm : string)
  : Z :=
  match routes with
  | [] => 0
  | r :: l => path_hops (RoutingEngine.r_path r) nm + routes_hops l nm
  end.

(** Every entry of the load is below the magnitude from which its
    conversion to a [float] raises. *)
Definition in_float_range (L : LoadVector) : Prop :=
  Forall (fun kv => snd kv < Binary64.FLOAT_OVERFLOW) (loads L).

(** What [is_admissible] checks over binary64: at no interface the
    headroom is found to be at most the slack margin. *)
Definition b64_admissible_load (L : LoadVector) (itfs : list Interface) : Prop :=
  forall itf, In itf itfs ->
    exists h, Binary64.headroom itf (lv_get L (name itf)) = Returned h
              /\ PrimFloat.leb h (Binary64.to_float EPS_SLACK) = false.

(** [first_cheapest] over binary64: [p] is admissible and its cost is
    below infinity, strictly below the cost of every admissible candidate
    before it (unless that cost is a NaN), and no admissible candidate
    after it has a cost strictly below. *)
Definition b64_first_cheapest {A : Type} (adm : A -> outcome bool)
           (c : A -> outcome PrimFloat.float) (paths : list A) (p : A) : Prop :=
  adm p = Returned true
  /\ exists cp l1 l2,
      c p = Returned cp
      /\ PrimFloat.ltb cp PrimFloat.infinity = true
      /\ paths = l1 ++ p :: l2
      /\ (forall q cq, In q l1 -> adm q = Returned true -> c q = Returned cq ->
                       PrimFloat.eqb cq cq = true -> PrimFloat.ltb cp cq = true)
      /\ (forall q cq, In q l2 -> adm q = Returned true -> c q = Returned cq ->
                       PrimFloat.ltb cq cp = false).

(** What [analyze_routing] over binary64 says of a path: whether it is
    admissible, and its total cost. *)
Definition b64_analysis_admissible (itfs : list Interface)
           (existing : option LoadVector) (p : Path) : outcome bool :=
  Binary64.bind (Binary64.analyze_routing p itfs existing)
                (fun r => Returned (Binary64.r_is_admissible r)).

Definition b64_analysis_cost (itfs : list Interface)
           (existing : option LoadVector) (p : Path)
  : outcome PrimFloat.float :=
  Binary64.bind (Binary64.analyze_routing p itfs existing)
                (fun r => Returned (Binary64.r_total_cost r)).

(** [cost(n) <= capacity], as the code evaluates it. *)
Definition feasible (itf : Interface) (n : Z) : Prop :=
  exists c, Binary64.cost itf n = Returned c
            /\ PrimFloat.leb c (Binary64.to_float (capacity itf)) = true.

(** [existing_load or LoadVector.empty()] *)
Definition load_or_empty (existing : option LoadVector) : LoadVector :=
  match existing with
  | Some l => l
  | None => LoadVector_empty
  end.

(** What a report of the floor estimator of V4 holds when the relaxation
    interval is [K]: it is taken on a step that [K] divides, counts the
    obligations admitted so far, its savings are the non-negative
    difference of its two costs, and its saturation fraction lies in
    [0, 1). *)
Definition v4_sound_report (K : Z) (s : UnifiedV4.LambdaState) : Prop :=
  (UnifiedV4.time_step s + 1) mod K = 0
  /\ UnifiedV4.n_obligations s = UnifiedV4.time_step s + 1
  /\ UnifiedV4.relaxation_savings s
     = (UnifiedV4.raw_cost s - UnifiedV4.lambda_E s)%Q
  /\ (0 <= UnifiedV4.lambda_E s)%Q
  /\ (UnifiedV4.lambda_E s <= UnifiedV4.raw_cost s)%Q
  /\ (0 <= UnifiedV4.lambda_sigma s)%Q
  /\ (UnifiedV4.lambda_sigma s < 1)%Q
  /\ (0 <= UnifiedV4.action s)%Q.

(** All six fields of a history step, in accumulated_cost.py and in V4. *)
Definition ac_fields (s : AccumulatedCost.HistoryStep)
  : LoadVector * Q * Q * bool * option Q * string :=
  (AccumulatedCost.load s, AccumulatedCost.time s, AccumulatedCost.step_cost s,
   AccumulatedCost.step_admissible s, AccumulatedCost.step_min_headroom s,
   AccumulatedCost.step_bottleneck s).

Definition v4_fields (s : UnifiedV4.HistoryStep)
  : LoadVector * Q * Q * bool * option Q * string :=
  (UnifiedV4.load s, UnifiedV4.time s, UnifiedV4.step_cost s,
   UnifiedV4.step_admissible s, UnifiedV4.step_min_headroom s,
   UnifiedV4.step_bottleneck s).

(** The transition costs between consecutive loads of a list, summed. *)
Fixpoint consecutive_cost (itfs : list Interface) (lds : list LoadVector) : Q :=
  match lds with
  | a :: ((b :: _) as rest) =>
      (transition_cost a b itfs + consecutive_cost itfs rest)%Q
  | _ => 0%Q
  end.

(** ** Example networks *)

Module Examples.
Local Open Scope string_scope.

(** A triangle [A - M - B] where the cheap edge [A - M] holds two units.
    [narrow] is that edge's interface, [detour] the dear parallel edge,
    [direct] the edge [A - B], [shared] the edge [M - B]. *)
Definition narrow : Interface := mkInterface "I1" 4 1 (1 # 2).
Definition detour : Interface := mkInterface "I2" 100 4 (1 # 2).
Definition direct : Interface := mkInterface "I3" 100 (5 # 2) (1 # 2).
Definition shared : Interface := mkInterface "I4" 100 1 (1 # 2).

Definition triangle : Network :=
  mkNetwork ["A"; "M"; "B"]
            [mkEdge "A" "M" narrow; mkEdge "A" "M" detour;
             mkEdge "M" "B" shared; mkEdge "A" "B" direct].

Definition triangle_stream : list Obligation :=
  [mkObligation 0 "A" "B" 2; mkObligation 1 "A" "M" 1; mkObligation 2 "M" "B" 1].

(** The single edge of [example_lambda_saturation]. *)
Definition I1 : Interface := mkInterface "I1" 8 1 (1 # 2).
Definition single_edge : Network := mkNetwork ["A"; "B"] [mkEdge "A" "B" I1].
End Examples.

(** * Properties *)

(** ** The scenarios of the repository, run on the model *)

(** [example_lambda_saturation]: unit obligations on the single edge, relaxed
    every step; four are admitted, with residual costs 1, 2.5, 4.5 and 7,
    and the fifth is rejected. *)
Example saturation_after_four :
  match LambdaFloor.estimate_lambda_floor
          Examples.single_edge
          (map (fun i => mkObligation i "A" "B" 1) [0; 1; 2; 3; 4; 5; 6]) 1 with
  | Returned h =>
      map (fun s => (LambdaFloor.time_step s, Qred (LambdaFloor.lambda_E s))) h
  | Raised _ => []
  end
  = [(0, 1%Q); (1, 5 # 2); (2, 9 # 2); (3, 7%Q)].
Proof. vm_compute. reflexivity. Qed.

(** The candidates from [A] to [B] on the triangle, shortest first. *)
Example triangle_candidates :
  map p_nodes (find_all_paths Examples.triangle "A" "B" 6 10)
  = [["A"; "B"]; ["A"; "M"; "B"]; ["A"; "M"; "B"]]%string.
Proof. vm_compute. reflexivity. Qed.

(** A zero relaxation interval raises at the first admission. *)
Example zero_interval_raises :
  LambdaFloor.estimate_lambda_floor
    Examples.single_edge [mkObligation 0 "A" "B" 1] 0
  = Raised ZeroDivisionError.
Proof. vm_compute. reflexivity. Qed.

(** ** Dictionaries *)

Section DictFacts.
Context {V : Type}.
Implicit Types (d : PyDict.dict V) (k : string) (v : V).

Lemma get_set_same d k v : PyDict.get (PyDict.set d k v) k = Some v.
Proof.
  induction d as [|[k' v'] r IH]; simpl.
  - now rewrite String.eqb_refl.
  - destruct (String.eqb k' k) eqn:E; simpl; rewrite E; auto.
Qed.

Lemma get_set_other d k k' v :
  k <> k' -> PyDict.get (PyDict.set d k v) k' = PyDict.get d k'.
Proof.
  intros Hne. induction d as [|[k0 v0] r IH]; simpl.
  - destruct (String.eqb k k') eqn:E; auto.
    apply String.eqb_eq in E. contradiction.
  - destruct (String.eqb k0 k) eqn:E; simpl.
    + apply String.eqb_eq in E. subst k0.
      destruct (String.eqb k k') eqn:E'; auto.
      apply String.eqb_eq in E'. contradiction.
    + now rewrite IH.
Qed.

Lemma get_default_set d k k' v dflt :
  PyDict.get_default (PyDict.set d k v) k' dflt
  = if String.eqb k k' then v else PyDict.get_default d k' dflt.
Proof.
  unfold PyDict.get_default. destruct (String.eqb k k') eqn:E.
  - apply String.eqb_eq in E. subst. now rewrite get_set_same.
  - apply String.eqb_neq in E. now rewrite get_set_other.
Qed.

Lemma keys_set d k v :
  PyDict.keys (PyDict.set d k v)
  = if PyDict.contains d k then PyDict.keys d else PyDict.keys d ++ [k].
Proof.
  unfold PyDict.contains, PyDict.keys.
  induction d as [|[k' v'] r IH]; simpl; auto.
  destruct (String.eqb k' k) eqn:E; simpl; auto.
  rewrite IH. now destruct (PyDict.get r k).
Qed.

Lemma contains_In d k : PyDict.contains d k = true <-> In k (PyDict.keys d).
Proof.
  unfold PyDict.contains, PyDict.keys.
  induction d as [|[k' v'] r IH]; simpl.
  - split; [discriminate | tauto].
  - destruct (String.eqb k' k) eqn:E.
    + apply String.eqb_eq in E. tauto.
    + apply String.eqb_neq in E. rewrite IH. tauto.
Qed.

Lemma NoDup_snoc (A : Type) (l : list A) (x : A) :
  NoDup l -> ~ In x l -> NoDup (l ++ [x]).
Proof.
  intros Hl Hx. induction Hl as [|y l Hy Hl IH]; simpl.
  - constructor; [tauto | constructor].
  - constructor.
    + rewrite in_app_iff. simpl. intros [H|[H|[]]]; [tauto|].
      subst. apply Hx. now left.
    + apply IH. intros H. apply Hx. now right.
Qed.

Lemma NoDup_keys_set d k v :
  NoDup (PyDict.keys d) -> NoDup (PyDict.keys (PyDict.set d k v)).
Proof.
  intros Hd. rewrite keys_set. destruct (PyDict.contains d k) eqn:E; auto.
  apply NoDup_snoc; auto. rewrite <- contains_In. congruence.
Qed.

Lemma get_In d k v : PyDict.get d k = Some v -> In (k, v) d.
Proof.
  induction d as [|[k' v'] r IH]; simpl; [discriminate|].
  destruct (String.eqb k' k) eqn:E.
  - apply String.eqb_eq in E. intros [= ->]. subst. now left.
  - auto.
Qed.

End DictFacts.

(** ** Float comparisons *)

Lemma Qlt_bool_iff a b : Qlt_bool a b = true <-> (a < b)%Q.
Proof.
  unfold Qlt_bool. rewrite negb_true_iff. split; intros H.
  - apply Qnot_le_lt. intros Hle. apply Qle_bool_iff in Hle. congruence.
  - destruct (Qle_bool b a) eqn:E; auto.
    apply Qle_bool_iff in E. exfalso. eapply Qlt_not_le; eauto.
Qed.

Lemma Qlt_bool_false_iff a b : Qlt_bool a b = false <-> (b <= a)%Q.
Proof.
  unfold Qlt_bool. rewrite negb_false_iff. apply Qle_bool_iff.
Qed.

Lemma Qle_bool_false_iff a b : Qle_bool a b = false <-> (b < a)%Q.
Proof.
  rewrite <- Qlt_bool_iff. unfold Qlt_bool. now rewrite negb_true_iff.
Qed.

(** ** Transition cost *)

Lemma transition_cost_acc A B itfs acc :
  (fold_left
     (fun acc itf =>
        acc + Qabs (cost itf (lv_get B (name itf)) - cost itf (lv_get A (name itf))))
     itfs acc
   == acc + transition_cost A B itfs)%Q.
Proof.
  unfold transition_cost. revert acc.
  induction itfs as [|itf r IH]; intros acc; cbn [fold_left].
  - lra.
  - rewrite IH. rewrite (IH (0 + _)%Q). lra.
Qed.

Lemma transition_cost_cons A B itf itfs :
  (transition_cost A B (itf :: itfs)
   == Qabs (cost itf (lv_get B (name itf)) - cost itf (lv_get A (name itf)))
      + transition_cost A B itfs)%Q.
Proof.
  unfold transition_cost at 1. cbn [fold_left].
  rewrite transition_cost_acc. lra.
Qed.

Lemma transition_cost_nonneg A B itfs : (0 <= transition_cost A B itfs)%Q.
Proof.
  induction itfs as [|itf r IH].
  - unfold transition_cost. simpl. lra.
  - rewrite transition_cost_cons.
    pose proof (Qabs_nonneg
                  (cost itf (lv_get B (name itf)) - cost itf (lv_get A (name itf)))).
    lra.
Qed.

Lemma transition_cost_sym A B itfs :
  (transition_cost A B itfs == transition_cost B A itfs)%Q.
Proof.
  induction itfs as [|itf r IH].
  - reflexivity.
  - rewrite !transition_cost_cons, IH.
    rewrite (Qabs_Qminus (cost itf (lv_get B (name itf)))). reflexivity.
Qed.

(** ** Histories *)

Lemma last_error_snoc {A} (l : list A) (x : A) : last_error (l ++ [x]) = Some x.
Proof. unfold last_error. now rewrite rev_app_distr. Qed.

Lemma last_error_None {A} (l : list A) : last_error l = None -> l = [].
Proof.
  unfold last_error. destruct (rev l) eqn:E; [|discriminate].
  intros _. apply (f_equal (@rev A)) in E. now rewrite rev_involutive in E.
Qed.

Lemma last_error_Some {A} (l : list A) (x : A) :
  last_error l = Some x -> exists l', l = l' ++ [x].
Proof.
  unfold last_error. destruct (rev l) eqn:E; [discriminate|].
  intros [= ->]. exists (rev l0).
  apply (f_equal (@rev A)) in E. now rewrite rev_involutive in E.
Qed.

Lemma nth_error_snoc_last {A} (l : list A) (x : A) :
  nth_error (l ++ [x]) (length l) = Some x.
Proof. rewrite nth_error_app2 by lia. now rewrite Nat.sub_diag. Qed.

Lemma ledger_first_step itfs l :
  ledger itfs l ->
  forall s, nth_error l 0 = Some s ->
            exists ld, s = (ld, 0%Q, 0%Q).
Proof.
  induction 1 as [|ld|l pl pt pc ld Hl IH]; intros s Hs.
  - discriminate.
  - simpl in Hs. inversion Hs. eauto.
  - apply IH. rewrite nth_error_app1 in Hs; auto.
    rewrite length_app. simpl. lia.
Qed.

Lemma ledger_next_step itfs l :
  ledger itfs l ->
  forall i pl pt pc ld tm c,
    nth_error l i = Some (pl, pt, pc) ->
    nth_error l (S i) = Some (ld, tm, c) ->
    c = transition_cost pl ld itfs /\ tm = (pt + c)%Q.
Proof.
  induction 1 as [|ld0|l pl0 pt0 pc0 ld0 Hl IH]; intros i pl pt pc ld tm c Hi HSi.
  - destruct i; discriminate.
  - simpl in HSi. destruct i; discriminate.
  - assert (Hlen : (S i < length (l ++ [(pl0, pt0, pc0)]) + 1)%nat).
    { assert (Hs : nth_error ((l ++ [(pl0, pt0, pc0)])
                                ++ [(ld0, (pt0 + transition_cost pl0 ld0 itfs)%Q,
                                     transition_cost pl0 ld0 itfs)]) (S i) <> None)
        by congruence.
      apply nth_error_Some in Hs. rewrite length_app in Hs. exact Hs. }
    rewrite length_app in Hlen. simpl in Hlen.
    destruct (Nat.eq_dec (S i) (length l + 1)) as [E|E].
    + rewrite nth_error_app1 in Hi by (rewrite length_app; simpl; lia).
      replace i with (length l) in Hi by lia.
      rewrite nth_error_snoc_last in Hi. inversion Hi; subst.
      replace (S i) with (length (l ++ [(pl, pt, pc)])) in HSi
        by (rewrite length_app; simpl; lia).
      rewrite nth_error_snoc_last in HSi. inversion HSi; subst. auto.
    + rewrite nth_error_app1 in Hi by (rewrite length_app; simpl; lia).
      rewrite nth_error_app1 in HSi by (rewrite length_app; simpl; lia).
      eauto.
Qed.

Lemma ac_make_step_view h ld tm c :
  ac_view (AccumulatedCost._make_step h ld tm c) = (ld, tm, c).
Proof.
  unfold AccumulatedCost._make_step.
  now destruct (min_headroom ld (AccumulatedCost.h_interfaces h)).
Qed.

Lemma ac_append_interfaces h ld :
  AccumulatedCost.h_interfaces (AccumulatedCost.append h ld)
  = AccumulatedCost.h_interfaces h.
Proof.
  unfold AccumulatedCost.append.
  now destruct (last_error (AccumulatedCost.steps h)).
Qed.

Lemma ac_append_ledger h ld :
  ledger (AccumulatedCost.h_interfaces h) (map ac_view (AccumulatedCost.steps h)) ->
  ledger (AccumulatedCost.h_interfaces h)
         (map ac_view (AccumulatedCost.steps (AccumulatedCost.append h ld))).
Proof.
  intros Hl. unfold AccumulatedCost.append.
  destruct (last_error (AccumulatedCost.steps h)) as [prev|] eqn:E; simpl.
  - apply last_error_Some in E. destruct E as [l' E]. rewrite E in *.
    rewrite map_app in Hl. cbn [map] in Hl.
    rewrite 2 map_app. cbn [map]. rewrite ac_make_step_view.
    change (ac_view prev)
      with (AccumulatedCost.load prev, AccumulatedCost.time prev,
            AccumulatedCost.step_cost prev) in *.
    now apply ledger_snoc.
  - apply last_error_None in E. rewrite E. cbn [map app].
    rewrite ac_make_step_view. constructor.
Qed.

Lemma ac_appended_snoc itfs lds ld :
  AccumulatedCost.appended itfs (lds ++ [ld])
  = AccumulatedCost.append (AccumulatedCost.appended itfs lds) ld.
Proof. unfold AccumulatedCost.appended. now rewrite fold_left_app. Qed.

Lemma ac_appended_interfaces itfs lds :
  AccumulatedCost.h_interfaces (AccumulatedCost.appended itfs lds) = itfs.
Proof.
  induction lds as [|ld lds IH] using rev_ind; auto.
  now rewrite ac_appended_snoc, ac_append_interfaces.
Qed.

Lemma ac_appended_ledger itfs lds :
  ledger itfs (map ac_view (AccumulatedCost.steps (AccumulatedCost.appended itfs lds))).
Proof.
  induction lds as [|ld lds IH] using rev_ind.
  - constructor.
  - rewrite ac_appended_snoc.
    rewrite <- (ac_appended_interfaces itfs lds) at 1.
    apply ac_append_ledger. now rewrite ac_appended_interfaces.
Qed.

Lemma ac_appended_loads itfs lds :
  map AccumulatedCost.load (AccumulatedCost.steps (AccumulatedCost.appended itfs lds))
  = lds.
Proof.
  induction lds as [|ld lds IH] using rev_ind; auto.
  rewrite ac_appended_snoc. unfold AccumulatedCost.append.
  destruct (last_error _); simpl; rewrite map_app, IH; simpl;
    unfold AccumulatedCost._make_step;
    now destruct (min_headroom _ _).
Qed.

Lemma v4_append_ledger h ld :
  ledger (UnifiedV4.h_interfaces h) (map v4_view (UnifiedV4.steps h)) ->
  ledger (UnifiedV4.h_interfaces h)
         (map v4_view (UnifiedV4.steps (UnifiedV4.append h ld))).
Proof.
  intros Hl. unfold UnifiedV4.append. cbn [UnifiedV4.steps].
  destruct (last_error (UnifiedV4.steps h)) as [prev|] eqn:E.
  - apply last_error_Some in E. destruct E as [l' E]. rewrite E in *.
    rewrite map_app in Hl. cbn [map] in Hl.
    rewrite 2 map_app. cbn [map].
    destruct (min_headroom ld (UnifiedV4.h_interfaces h)) as [mh bn].
    unfold v4_view at 3. cbn [UnifiedV4.load UnifiedV4.time UnifiedV4.step_cost].
    change (v4_view prev)
      with (UnifiedV4.load prev, UnifiedV4.time prev, UnifiedV4.step_cost prev) in *.
    now apply ledger_snoc.
  - apply last_error_None in E. rewrite E. cbn [map app].
    destruct (min_headroom ld (UnifiedV4.h_interfaces h)) as [mh bn].
    constructor.
Qed.

Lemma v4_appended_snoc itfs lds ld :
  v4_appended itfs (lds ++ [ld]) = UnifiedV4.append (v4_appended itfs lds) ld.
Proof. unfold v4_appended. now rewrite fold_left_app. Qed.

Lemma v4_appended_interfaces itfs lds :
  UnifiedV4.h_interfaces (v4_appended itfs lds) = itfs.
Proof.
  induction lds as [|ld lds IH] using rev_ind; auto.
  now rewrite v4_appended_snoc.
Qed.

Lemma v4_appended_ledger itfs lds :
  ledger itfs (map v4_view (UnifiedV4.steps (v4_appended itfs lds))).
Proof.
  induction lds as [|ld lds IH] using rev_ind.
  - constructor.
  - rewrite v4_appended_snoc.
    rewrite <- (v4_appended_interfaces itfs lds) at 1.
    apply v4_append_ledger. now rewrite v4_appended_interfaces.
Qed.

Lemma v4_appended_loads itfs lds :
  map UnifiedV4.load (UnifiedV4.steps (v4_appended itfs lds)) = lds.
Proof.
  induction lds as [|ld lds IH] using rev_ind; auto.
  rewrite v4_appended_snoc. unfold UnifiedV4.append. cbn [UnifiedV4.steps].
  rewrite map_app, IH. cbn [map].
  destruct (last_error _); destruct (min_headroom _ _); reflexivity.
Qed.

Lemma ledger_time_ordered {T : Type} (load : T -> LoadVector)
      (time step_cost : T -> Q) itfs st :
  ledger itfs (map (fun s => (load s, time s, step_cost s)) st) ->
  time_ordered load time step_cost itfs st.
Proof.
  intros Hl. split.
  - intros s Hs.
    destruct (ledger_first_step _ _ Hl (load s, time s, step_cost s)) as [ld E].
    { now rewrite nth_error_map, Hs. }
    inversion E. now split.
  - intros i s s' Hs Hs'.
    destruct (ledger_next_step _ _ Hl i (load s) (time s) (step_cost s)
                               (load s') (time s') (step_cost s')) as [Hc Ht].
    { now rewrite nth_error_map, Hs. }
    { now rewrite nth_error_map, Hs'. }
    pose proof (transition_cost_nonneg (load s) (load s') itfs).
    rewrite <- Hc in *. repeat split; auto. rewrite Ht. lra.
Qed.

Lemma ac_append_extends h ld :
  extends_by AccumulatedCost.load AccumulatedCost.time AccumulatedCost.step_cost
             (AccumulatedCost.h_interfaces h)
             (AccumulatedCost.steps h)
             (AccumulatedCost.steps (AccumulatedCost.append h ld)) ld.
Proof.
  unfold extends_by, AccumulatedCost.append, AccumulatedCost._make_step.
  destruct (min_headroom ld (AccumulatedCost.h_interfaces h)) as [mh bn].
  destruct (last_error (AccumulatedCost.steps h)) as [prev|];
    eexists; cbn [AccumulatedCost.steps]; (split; [reflexivity|]);
    cbn [AccumulatedCost.load AccumulatedCost.time AccumulatedCost.step_cost];
    repeat split.
  pose proof (transition_cost_nonneg (AccumulatedCost.load prev) ld
                                     (AccumulatedCost.h_interfaces h)).
  lra.
Qed.

Lemma v4_append_extends h ld :
  extends_by UnifiedV4.load UnifiedV4.time UnifiedV4.step_cost
             (UnifiedV4.h_interfaces h)
             (UnifiedV4.steps h)
             (UnifiedV4.steps (UnifiedV4.append h ld)) ld.
Proof.
  unfold extends_by, UnifiedV4.append.
  destruct (min_headroom ld (UnifiedV4.h_interfaces h)) as [mh bn].
  destruct (last_error (UnifiedV4.steps h)) as [prev|];
    eexists; cbn [UnifiedV4.steps]; (split; [reflexivity|]);
    cbn [UnifiedV4.load UnifiedV4.time UnifiedV4.step_cost];
    repeat split.
  pose proof (transition_cost_nonneg (UnifiedV4.load prev) ld
                                     (UnifiedV4.h_interfaces h)).
  lra.
Qed.


(** ** Admission *)

Lemma is_admissible_iff L itfs :
  is_admissible L itfs = true <-> admissible_load L itfs.
Proof.
  unfold is_admissible, admissible_load. rewrite forallb_forall.
  split; intros H itf Hin; specialize (H itf Hin).
  - apply negb_true_iff in H. now apply Qle_bool_false_iff.
  - apply negb_true_iff. now apply Qle_bool_false_iff.
Qed.

Section Selection.
Context {A : Type} (adm : A -> bool) (c : A -> Q).

Lemma select_snoc l x best :
  fold_left (select_step adm c) (l ++ [x]) best
  = select_step adm c (fold_left (select_step adm c) l best) x.
Proof. now rewrite fold_left_app. Qed.

Lemma select_spec paths :
  match fold_left (select_step adm c) paths None with
  | None => forall q, In q paths -> adm q = false
  | Some p => first_cheapest adm c paths p
  end.
Proof.
  induction paths as [|x l IH] using rev_ind.
  - simpl. tauto.
  - rewrite select_snoc.
    destruct (fold_left (select_step adm c) l None) as [p|]; unfold select_step.
    + destruct IH as [Hp (l1 & l2 & El & H1 & H2)].
      destruct (adm x) eqn:Ex; cbn [andb].
      * destruct (Qlt_bool (c x) (c p)) eqn:Elt.
        -- apply Qlt_bool_iff in Elt. split; auto.
           exists l, []. split; [reflexivity|]. split; [|intros q []].
           intros q Hq Hadm. subst l.
           apply in_app_or in Hq. destruct Hq as [Hq|[Hq|Hq]].
           ++ specialize (H1 q Hq Hadm). lra.
           ++ now subst q.
           ++ specialize (H2 q Hq Hadm). lra.
        -- apply Qlt_bool_false_iff in Elt. split; auto.
           exists l1, (l2 ++ [x]). subst l. rewrite <- app_assoc. split; auto.
           split; auto. intros q Hq Hadm.
           apply in_app_or in Hq. destruct Hq as [Hq|[Hq|[]]]; auto.
           now subst q.
      * split; auto. exists l1, (l2 ++ [x]). subst l.
        rewrite <- app_assoc. split; auto. split; auto.
        intros q Hq Hadm. apply in_app_or in Hq.
        destruct Hq as [Hq|[Hq|[]]]; auto. subst q. congruence.
    + destruct (adm x) eqn:Ex; cbn [andb].
      * split; auto. exists l, []. split; [reflexivity|].
        split; [|intros q []]. intros q Hq Hadm.
        rewrite (IH q Hq) in Hadm. discriminate.
      * intros q Hq. apply in_app_or in Hq.
        destruct Hq as [Hq|[Hq|[]]]; auto. now subst q.
Qed.
End Selection.

Section EngineFacts.
Variable total_cost : LoadVector -> list Interface -> Q.
Variable candidate_paths : Network -> string -> string -> Z -> list Path.

Let adm_of (itfs : list Interface) (ob : Obligation) (existing : LoadVector)
    (p : Path) : bool :=
  is_admissible (hypothetical_load existing p (demand ob)) itfs.
Let cost_of (itfs : list Interface) (ob : Obligation) (existing : LoadVector)
    (p : Path) : Q :=
  total_cost (hypothetical_load existing p (demand ob)) itfs.

Lemma route_fold_select itfs ob existing paths best :
  fold_left (route_step total_cost itfs ob existing) paths
            (option_map (fun p => (p, cost_of itfs ob existing p)) best)
  = option_map (fun p => (p, cost_of itfs ob existing p))
               (fold_left (select_step (adm_of itfs ob existing)
                                       (cost_of itfs ob existing)) paths best).
Proof.
  revert best. induction paths as [|x l IH]; intros best; auto.
  cbn [fold_left]. rewrite <- IH. f_equal.
  unfold route_step, select_step, adm_of, cost_of, hypothetical_load.
  destruct (is_admissible _ itfs); cbn [negb andb]; auto.
  destruct best as [b|]; cbn [option_map]; auto.
  now destruct (Qlt_bool _ _).
Qed.

Lemma route_obligation_spec network ob existing max_paths :
  let paths := candidate_paths network (source ob) (target ob) max_paths in
  let itfs := interfaces network in
  match route_obligation total_cost candidate_paths network ob existing max_paths with
  | Some r =>
      obligation r = ob
      /\ first_cheapest
           (fun p => is_admissible (hypothetical_load existing p (demand ob)) itfs)
           (fun p => total_cost (hypothetical_load existing p (demand ob)) itfs)
           paths (path r)
  | None =>
      forall q, In q paths ->
                is_admissible (hypothetical_load existing q (demand ob)) itfs = false
  end.
Proof.
  intros paths itfs. unfold route_obligation. fold paths. fold itfs.
  pose proof (route_fold_select itfs ob existing paths None) as E.
  cbn [option_map] in E. rewrite E. clear E.
  pose proof (select_spec (adm_of itfs ob existing) (cost_of itfs ob existing) paths) as S.
  destruct (fold_left (select_step _ _) paths None) as [p|];
    cbn [option_map]; cbv iota beta.
  - cbn [obligation path]. split; [reflexivity | exact S].
  - exact S.
Qed.
End EngineFacts.

(** *** [analyze_routing] and [best_routing] *)

Lemma analyze_fold_total L itfs a :
  RoutingEngine.total_cost (fold_left (RoutingEngine.analyze_step L) itfs a)
  = fold_left (fun acc itf => (acc + cost itf (lv_get L (name itf)))%Q) itfs
              (RoutingEngine.total_cost a).
Proof.
  revert a. induction itfs as [|itf r IH]; intros a; auto.
  cbn [fold_left]. now rewrite IH.
Qed.

Lemma above_slack_step h m :
  above_slack (if match m with None => true | Some w => Qlt_bool h w end
               then Some h else m)
  = above_slack m && negb (Qle_bool h EPS_SLACK).
Proof.
  destruct m as [w|]; cbn [above_slack andb]; [|reflexivity].
  destruct (Qlt_bool h w) eqn:E1; cbn [above_slack];
    destruct (Qlt_bool EPS_SLACK w) eqn:E2;
    destruct (Qle_bool h EPS_SLACK) eqn:E3; cbn [andb negb];
    try reflexivity;
    try apply Qlt_bool_iff in E1; try apply Qlt_bool_false_iff in E1;
    try apply Qlt_bool_iff in E2; try apply Qlt_bool_false_iff in E2;
    try apply Qle_bool_iff in E3; try apply Qle_bool_false_iff in E3;
    try (apply Qlt_bool_iff; lra); try (apply Qlt_bool_false_iff; lra);
    exfalso; lra.
Qed.

Lemma analyze_fold_admissible L itfs a :
  above_slack (RoutingEngine.min_headroom
                 (fold_left (RoutingEngine.analyze_step L) itfs a))
  = above_slack (RoutingEngine.min_headroom a) && is_admissible L itfs.
Proof.
  revert a. induction itfs as [|itf r IH]; intros a.
  - cbn. now rewrite andb_true_r.
  - cbn [fold_left]. rewrite IH.
    unfold RoutingEngine.analyze_step at 1. cbn [RoutingEngine.min_headroom].
    rewrite above_slack_step. unfold is_admissible. cbn [forallb].
    now rewrite andb_assoc.
Qed.

Lemma analyze_routing_facts p itfs existing :
  let r := RoutingEngine.analyze_routing p itfs existing in
  RoutingEngine.r_path r = p
  /\ RoutingEngine.r_load_vector r = total_load existing p
  /\ RoutingEngine.r_is_admissible r = is_admissible (total_load existing p) itfs
  /\ RoutingEngine.r_total_cost r = UnifiedV4.total_cost (total_load existing p) itfs.
Proof.
  unfold RoutingEngine.analyze_routing.
  cbn [RoutingEngine.r_path RoutingEngine.r_load_vector
       RoutingEngine.r_is_admissible RoutingEngine.r_total_cost].
  repeat split.
  - fold (total_load existing p). now rewrite analyze_fold_admissible.
  - fold (total_load existing p). now rewrite analyze_fold_total.
Qed.

Section BestRouting.
Variables (itfs : list Interface) (existing : option LoadVector).

Let analyze (p : Path) := RoutingEngine.analyze_routing p itfs existing.
Let adm (p : Path) := RoutingEngine.r_is_admissible (analyze p).
Let c (p : Path) := RoutingEngine.r_total_cost (analyze p).

Lemma best_fold_select paths best :
  fold_left (RoutingEngine.best_step itfs existing) paths
            (option_map analyze best, option_map c best)
  = (option_map analyze (fold_left (select_step adm c) paths best),
     option_map c (fold_left (select_step adm c) paths best)).
Proof.
  revert best. induction paths as [|x l IH]; intros best; auto.
  cbn [fold_left]. rewrite <- IH. f_equal.
  unfold RoutingEngine.best_step, select_step. cbn [snd].
  fold (analyze x). fold (adm x). fold (c x).
  destruct (adm x); cbn [andb]; auto.
  destruct best as [b|]; cbn [option_map]; auto.
  now destruct (Qlt_bool (c x) (c b)).
Qed.
End BestRouting.

Lemma best_routing_spec network s t existing k :
  let paths := find_k_shortest_paths network s t k in
  let itfs := interfaces network in
  let analyze p := RoutingEngine.analyze_routing p itfs existing in
  match RoutingEngine.best_routing network s t existing k with
  | Some r =>
      r = analyze (RoutingEngine.r_path r)
      /\ first_cheapest (fun p => RoutingEngine.r_is_admissible (analyze p))
                        (fun p => RoutingEngine.r_total_cost (analyze p))
                        paths (RoutingEngine.r_path r)
  | None =>
      forall q, In q paths -> RoutingEngine.r_is_admissible (analyze q) = false
  end.
Proof.
  intros paths itfs analyze. unfold RoutingEngine.best_routing.
  fold paths. fold itfs.
  pose proof (best_fold_select itfs existing paths None) as E.
  cbn [option_map] in E. rewrite E. clear E. cbn [fst].
  pose proof (select_spec
                (fun p => RoutingEngine.r_is_admissible (analyze p))
                (fun p => RoutingEngine.r_total_cost (analyze p)) paths) as S.
  destruct (fold_left (select_step _ _) paths None) as [p|]; cbn [option_map].
  - destruct (analyze_routing_facts p itfs existing) as [Hp _].
    cbv zeta in Hp. rewrite Hp. split; [reflexivity | exact S].
  - exact S.
Qed.

(** ** Loads of routed obligations *)

Lemma lv_get_set d k k' x :
  PyDict.get_default (PyDict.set d k x) k' 0 =
  if String.eqb k k' then x else PyDict.get_default d k' 0.
Proof. apply get_default_set. Qed.

Lemma add_contribution_get contrib : forall base d nm,
  PyDict.get_default (add_contribution base contrib d) nm 0
  = PyDict.get_default base nm 0 + contribution_weight contrib nm * d.
Proof.
  unfold add_contribution.
  induction contrib as [|[k c] r IH]; intros base d nm; cbn [fold_left contribution_weight].
  - lia.
  - rewrite IH, lv_get_set.
    destruct (String.eqb k nm) eqn:E.
    + apply String.eqb_eq in E. subst. lia.
    + lia.
Qed.

Lemma remove_contribution_get contrib : forall base d nm,
  PyDict.get_default (remove_contribution base contrib d) nm 0
  = PyDict.get_default base nm 0 - contribution_weight contrib nm * d.
Proof.
  unfold remove_contribution.
  induction contrib as [|[k c] r IH]; intros base d nm; cbn [fold_left contribution_weight].
  - lia.
  - rewrite IH, lv_get_set.
    destruct (String.eqb k nm) eqn:E.
    + apply String.eqb_eq in E. subst. lia.
    + lia.
Qed.

Lemma compute_load_acc routed : forall base nm,
  PyDict.get_default
    (fold_left
       (fun ld r =>
          add_contribution ld (load_contribution (path r)) (demand (obligation r)))
       routed base) nm 0
  = PyDict.get_default base nm 0 + routed_load routed nm.
Proof.
  induction routed as [|r l IH]; intros base nm; cbn [fold_left routed_load].
  - lia.
  - rewrite IH, add_contribution_get. lia.
Qed.

Lemma compute_load_get routed nm :
  lv_get (compute_load_from_routed routed) nm = routed_load routed nm.
Proof.
  unfold lv_get, compute_load_from_routed. cbn [loads].
  rewrite compute_load_acc. reflexivity.
Qed.

Lemma routed_load_list_set l : forall i r r' nm,
  nth_error l i = Some r ->
  routed_load (list_set l i r') nm
  = routed_load l nm
    - contribution_weight (load_contribution (path r)) nm * demand (obligation r)
    + contribution_weight (load_contribution (path r')) nm * demand (obligation r').
Proof.
  induction l as [|x l IH]; intros i r r' nm Hi.
  - destruct i; discriminate.
  - destruct i; cbn [list_set routed_load nth_error] in *.
    + inversion Hi; subst. lia.
    + rewrite (IH i r r' nm Hi). lia.
Qed.

Lemma list_set_map_same {A B} (f : A -> B) (l : list A) : forall i x y,
  nth_error l i = Some y -> f x = f y -> map f (list_set l i x) = map f l.
Proof.
  induction l as [|z l IH]; intros i x y Hi Hf; destruct i;
    cbn [list_set map nth_error] in *; try discriminate.
  - inversion Hi; subst. now rewrite Hf.
  - f_equal. eauto.
Qed.

(** Equality by content is agreement of the loads at every name. *)
Lemma lv_eq_pointwise A B :
  lv_eq A B = true <-> forall nm, lv_get A nm = lv_get B nm.
Proof.
  unfold lv_eq. rewrite forallb_forall. split.
  - intros H nm.
    destruct (in_dec string_dec nm (PyDict.keys (loads A) ++ PyDict.keys (loads B)))
      as [Hin|Hout].
    + now apply Z.eqb_eq, H.
    + unfold lv_get, PyDict.get_default.
      destruct (PyDict.get (loads A) nm) eqn:EA.
      { exfalso. apply Hout, in_or_app. left. apply contains_In.
        unfold PyDict.contains. now rewrite EA. }
      destruct (PyDict.get (loads B) nm) eqn:EB; auto.
      exfalso. apply Hout, in_or_app. right. apply contains_In.
      unfold PyDict.contains. now rewrite EB.
  - intros H nm _. apply Z.eqb_eq, H.
Qed.

(** ** Relaxation *)

Section RelaxFacts.
Variable total_cost : LoadVector -> list Interface -> Q.
Variable candidate_paths : Network -> string -> string -> Z -> list Path.
Variable network : Network.

Let step := relax_step total_cost candidate_paths network.

Lemma relax_step_cases st i :
  step st i = st \/ strict_improvement total_cost (interfaces network) st (step st i) i.
Proof.
  unfold step, relax_step.
  destruct (nth_error (current st) i) as [r|] eqn:Er; [|now left].
  set (remaining := mkLoad (remove_contribution _ _ _)).
  pose proof (route_obligation_spec total_cost candidate_paths network
                (obligation r) remaining 10) as S.
  cbv zeta in S.
  destruct (route_obligation total_cost candidate_paths network
                             (obligation r) remaining 10) as [r'|]; [|now left].
  destruct S as [Hob [Hadm _]].
  destruct (Qlt_bool _ (current_cost st)) eqn:Elt; [|now left].
  right. exists r, r'. cbn [current current_load current_cost improved].
  apply Qlt_bool_iff in Elt. apply is_admissible_iff in Hadm.
  repeat split; auto.
Qed.

Lemma relax_step_cost st i : (current_cost (step st i) <= current_cost st)%Q.
Proof.
  destruct (relax_step_cases st i) as [E|(r & r' & _ & _ & _ & _ & _ & _ & Hlt)].
  - rewrite E. lra.
  - unfold EPS_COST in Hlt. lra.
Qed.

Lemma relax_step_inv routed0 st i :
  relax_inv total_cost (interfaces network) routed0 st ->
  relax_inv total_cost (interfaces network) routed0 (step st i).
Proof.
  intros (Hc & Hob & Hld). unfold step, relax_step.
  destruct (nth_error (current st) i) as [r|] eqn:Er; [|now repeat split].
  set (remaining := mkLoad (remove_contribution _ _ _)).
  pose proof (route_obligation_spec total_cost candidate_paths network
                (obligation r) remaining 10) as S.
  cbv zeta in S.
  destruct (route_obligation total_cost candidate_paths network
                             (obligation r) remaining 10) as [r'|];
    [|now repeat split].
  destruct S as [Hob' _].
  destruct (Qlt_bool _ (current_cost st)); [|now repeat split].
  repeat split; cbn [current current_load current_cost].
  - rewrite <- Hob. now apply list_set_map_same with (y := r).
  - intros nm. rewrite (routed_load_list_set _ _ r r' nm Er).
    unfold lv_get. cbn [loads]. rewrite add_contribution_get.
    subst remaining. cbn [loads]. rewrite remove_contribution_get.
    fold (lv_get (current_load st) nm). rewrite Hld, Hob'. lia.
Qed.

Lemma relax_steps_cost l : forall st,
  (current_cost (fold_left step l st) <= current_cost st)%Q.
Proof.
  induction l as [|i l IH]; intros st; cbn [fold_left]; [lra|].
  pose proof (IH (step st i)). pose proof (relax_step_cost st i). lra.
Qed.

Lemma relax_steps_inv routed0 l : forall st,
  relax_inv total_cost (interfaces network) routed0 st ->
  relax_inv total_cost (interfaces network) routed0 (fold_left step l st).
Proof.
  induction l as [|i l IH]; intros st H; cbn [fold_left]; auto.
  apply IH. now apply relax_step_inv.
Qed.

Lemma relax_pass_cost st :
  (current_cost (relax_pass total_cost candidate_paths network st)
   <= current_cost st)%Q.
Proof.
  unfold relax_pass.
  exact (relax_steps_cost _ (mkRelax (current st) (current_load st)
                                     (current_cost st) false)).
Qed.

Lemma relax_pass_inv routed0 st :
  relax_inv total_cost (interfaces network) routed0 st ->
  relax_inv total_cost (interfaces network) routed0
            (relax_pass total_cost candidate_paths network st).
Proof. intros H. unfold relax_pass. now apply relax_steps_inv. Qed.

Lemma relax_iterate_cost n : forall st,
  (current_cost (relax_iterate total_cost candidate_paths network n st)
   <= current_cost st)%Q.
Proof.
  induction n as [|n IH]; intros st; cbn [relax_iterate]; [lra|].
  pose proof (relax_pass_cost st).
  destruct (improved _); auto.
  pose proof (IH (relax_pass total_cost candidate_paths network st)). lra.
Qed.

Lemma relax_iterate_inv routed0 n : forall st,
  relax_inv total_cost (interfaces network) routed0 st ->
  relax_inv total_cost (interfaces network) routed0
            (relax_iterate total_cost candidate_paths network n st).
Proof.
  induction n as [|n IH]; intros st H; cbn [relax_iterate]; auto.
  pose proof (relax_pass_inv routed0 st H).
  destruct (improved _); auto.
Qed.

Lemma relax_start_inv routed :
  relax_inv total_cost (interfaces network) routed
            (relax_start total_cost network routed).
Proof.
  unfold relax_start. repeat split. intros nm. apply compute_load_get.
Qed.

Lemma relax_run_inv routed iterations :
  relax_inv total_cost (interfaces network) routed
            (relax_run total_cost candidate_paths network routed iterations).
Proof. apply relax_iterate_inv, relax_start_inv. Qed.

Lemma relax_run_cost routed iterations :
  let st := relax_run total_cost candidate_paths network routed iterations in
  (total_cost (current_load st) (interfaces network)
   <= total_cost (compute_load_from_routed routed) (interfaces network))%Q.
Proof.
  intros st. destruct (relax_run_inv routed iterations) as [Hc _].
  fold st in Hc. rewrite <- Hc. unfold st, relax_run.
  exact (relax_iterate_cost _ (relax_start total_cost network routed)).
Qed.

Lemma relax_run_same routed iterations :
  let st := relax_run total_cost candidate_paths network routed iterations in
  length (current st) = length routed
  /\ map obligation (current st) = map obligation routed
  /\ forall nm, lv_get (current_load st) nm
                = lv_get (compute_load_from_routed (current st)) nm.
Proof.
  intros st. destruct (relax_run_inv routed iterations) as (_ & Hob & Hld).
  fold st in Hob, Hld. repeat split; auto.
  - rewrite <- (length_map obligation), Hob. apply length_map.
  - intros nm. now rewrite compute_load_get.
Qed.
End RelaxFacts.

(** C1.  [relax_routing] never returns a costlier configuration: the total
    cost of the returned load is at most the total cost of the load of the
    input routes plus [EPS_COST], for every iteration count, in
    lambda_floor.py and in V4 (where the reported savings are therefore not
    below [-EPS_COST]).  Every step of its loop either leaves the state
    alone or replaces one route by a route for the same obligation whose
    load is admissible and whose cost plus [EPS_COST] is below the cost
    before. *)
Theorem relaxation_cost_bounded :
  (forall network routed iterations,
      (LambdaFloor.total_cost
         (snd (LambdaFloor.relax_routing network routed iterations))
         (interfaces network)
       <= LambdaFloor.total_cost (compute_load_from_routed routed)
                                 (interfaces network) + EPS_COST)%Q)
  /\ (forall network routed iterations,
         let '(_, final_load, savings) :=
           UnifiedV4.relax_routing network routed iterations in
         (UnifiedV4.total_cost final_load (interfaces network)
          <= UnifiedV4.total_cost (compute_load_from_routed routed)
                                  (interfaces network) + EPS_COST)%Q
         /\ (- EPS_COST <= savings)%Q)
  /\ (forall network st i,
         let st' := relax_step LambdaFloor.total_cost LambdaFloor.candidate_paths
                               network st i in
         st' = st
         \/ strict_improvement LambdaFloor.total_cost (interfaces network) st st' i)
  /\ (forall network st i,
         let st' := relax_step UnifiedV4.total_cost UnifiedV4.candidate_paths
                               network st i in
         st' = st
         \/ strict_improvement UnifiedV4.total_cost (interfaces network) st st' i).
Proof.
  assert (Heps : (0 < EPS_COST)%Q) by reflexivity.
  split; [|split; [|split]].
  - intros network routed iterations.
    unfold LambdaFloor.relax_routing. cbn [snd].
    pose proof (relax_run_cost LambdaFloor.total_cost LambdaFloor.candidate_paths
                  network routed iterations) as H.
    cbv zeta in H. lra.
  - intros network routed iterations. unfold UnifiedV4.relax_routing.
    pose proof (relax_run_cost UnifiedV4.total_cost UnifiedV4.candidate_paths
                  network routed (UnifiedV4.py_or iterations UnifiedV4.MAX_RELAX_ITERS))
      as H.
    destruct (relax_run_inv UnifiedV4.total_cost UnifiedV4.candidate_paths
                network routed (UnifiedV4.py_or iterations UnifiedV4.MAX_RELAX_ITERS))
      as [Hc _].
    cbv zeta in H. rewrite <- Hc in H. rewrite <- Hc. split; lra.
  - intros network st i. apply relax_step_cases.
  - intros network st i. apply relax_step_cases.
Qed.

(** C10.  [relax_routing] returns as many routed obligations as it was
    given, with the same obligation at every position, and the load it
    returns is, at every interface name, the load recomputed from the
    returned routes by [compute_load_from_routed]: the two load vectors are
    equal by content ([LoadVector.__eq__], a missing key reading as zero). *)
Theorem relaxation_keeps_obligations_and_load :
  (forall network routed iterations,
      let '(relaxed, final_load) :=
        LambdaFloor.relax_routing network routed iterations in
      length relaxed = length routed
      /\ map obligation relaxed = map obligation routed
      /\ (forall nm, lv_get final_load nm
                     = lv_get (compute_load_from_routed relaxed) nm)
      /\ lv_eq final_load (compute_load_from_routed relaxed) = true)
  /\ (forall network routed iterations,
         let '(relaxed, final_load, _) :=
           UnifiedV4.relax_routing network routed iterations in
         length relaxed = length routed
         /\ map obligation relaxed = map obligation routed
         /\ (forall nm, lv_get final_load nm
                        = lv_get (compute_load_from_routed relaxed) nm)
         /\ lv_eq final_load (compute_load_from_routed relaxed) = true).
Proof.
  split; intros network routed iterations.
  - unfold LambdaFloor.relax_routing.
    destruct (relax_run_same LambdaFloor.total_cost LambdaFloor.candidate_paths
                network routed iterations) as (Hl & Ho & Hg).
    repeat split; auto. now apply lv_eq_pointwise.
  - unfold UnifiedV4.relax_routing.
    destruct (relax_run_same UnifiedV4.total_cost UnifiedV4.candidate_paths
                network routed (UnifiedV4.py_or iterations UnifiedV4.MAX_RELAX_ITERS))
      as (Hl & Ho & Hg).
    repeat split; auto. now apply lv_eq_pointwise.
Qed.

(** ** Path search *)

Lemma fold_left_ext {A B} (f g : A -> B -> A) l :
  (forall a b, In b l -> f a b = g a b) ->
  forall a, fold_left f l a = fold_left g l a.
Proof.
  induction l as [|x l IH]; intros H a; cbn [fold_left]; auto.
  rewrite H by now left. apply IH. intros a' b Hb. apply H. now right.
Qed.

Lemma fold_left_preserve {A B} (f : A -> B -> A) (P : A -> Prop) l :
  (forall a b, In b l -> P a -> P (f a b)) ->
  forall a, P a -> P (fold_left f l a).
Proof.
  induction l as [|x l IH]; intros H a Ha; cbn [fold_left]; auto.
  apply IH.
  - intros a' b Hb. apply H. now right.
  - apply H; auto. now left.
Qed.

Lemma adjacency_fold es : forall adj0 node e,
  In e (PyDict.get_default
          (fold_left
             (fun adj e =>
                let adj1 := PyDict.set adj (u e)
                                       (PyDict.get_default adj (u e) [] ++ [e]) in
                PyDict.set adj1 (v e) (PyDict.get_default adj1 (v e) [] ++ [e]))
             es adj0) node []) ->
  In e (PyDict.get_default adj0 node [])
  \/ (In e es /\ (u e = node \/ v e = node)).
Proof.
  induction es as [|x es IH]; intros adj0 node e H; cbn [fold_left] in H.
  - now left.
  - apply IH in H. destruct H as [H|[H1 H2]].
    + cbv zeta in H. rewrite get_default_set in H.
      destruct (String.eqb (v x) node) eqn:Ev.
      * apply String.eqb_eq in Ev. apply in_app_or in H.
        destruct H as [H|[H|[]]].
        -- rewrite get_default_set in H.
           destruct (String.eqb (u x) (v x)) eqn:Eu.
           ++ apply String.eqb_eq in Eu. apply in_app_or in H.
              destruct H as [H|[H|[]]].
              ** left. congruence.
              ** subst e. right. split; [now left | now right].
           ++ left. congruence.
        -- subst e. right. split; [now left | now right].
      * rewrite get_default_set in H.
        destruct (String.eqb (u x) node) eqn:Eu.
        -- apply String.eqb_eq in Eu. apply in_app_or in H.
           destruct H as [H|[H|[]]].
           ++ left. congruence.
           ++ subst e. right. split; [now left | now left].
        -- now left.
    + right. split; auto. now right.
Qed.

Lemma neighbors_connect net node nb e :
  In (nb, e) (neighbors net node) -> connects net e node nb.
Proof.
  unfold neighbors. rewrite in_map_iff. intros (e' & E & Hin).
  inversion E; subst. unfold adjacency in Hin.
  apply adjacency_fold in Hin. destruct Hin as [[]|[Hin Hend]].
  split; auto. unfold other.
  destruct (String.eqb node (u e)) eqn:Eu.
  - apply String.eqb_eq in Eu. left. auto.
  - apply String.eqb_neq in Eu. destruct Hend as [H|H]; [congruence|].
    right. auto.
Qed.

Lemma is_walk_snoc net ns : forall es a b e,
  is_walk net (ns ++ [a]) es -> connects net e a b ->
  is_walk net ((ns ++ [a]) ++ [b]) (es ++ [e]).
Proof.
  induction ns as [|n ns IH]; intros es a b e Hw Hc.
  - cbn in *. destruct es; [|destruct Hw]. cbn. auto.
  - specialize (IH (tl es) a b e).
    cbn [app] in *.
    destruct (ns ++ [a]) as [|m r] eqn:E.
    { destruct ns; discriminate. }
    destruct es as [|e0 es]; [destruct Hw|].
    cbn [app is_walk tl] in *. destruct Hw as [Hc0 Hw].
    split; [exact Hc0 | exact (IH Hw Hc)].
Qed.

Lemma existsb_eqb_In x l : existsb (String.eqb x) l = true <-> In x l.
Proof.
  rewrite existsb_exists. split.
  - intros (y & Hy & E). apply String.eqb_eq in E. now subst.
  - intros H. exists x. split; auto. apply String.eqb_refl.
Qed.

Section DfsFacts.
Variable network : Network.
Variables source target : string.
Variables max_paths max_length : Z.

Let search := dfs network target max_paths max_length.
Let good := simple_path network source target max_length.

(** The state of a branch: the nodes walked from [source] to [current],
    all of them in [visited]. *)
Let branch_ok (current : string) (visited path_nodes : list string)
    (path_edges : list Edge) : Prop :=
  hd_error path_nodes = Some source
  /\ last_error path_nodes = Some current
  /\ NoDup path_nodes
  /\ (forall x, In x path_nodes -> In x visited)
  /\ is_walk network path_nodes path_edges.

Lemma branch_ok_extend current visited pn pe nb e :
  branch_ok current visited pn pe ->
  In (nb, e) (neighbors network current) ->
  existsb (String.eqb nb) visited = false ->
  branch_ok nb (nb :: visited) (pn ++ [nb]) (pe ++ [e]).
Proof.
  intros (Hhd & Hlast & Hnd & Hsub & Hw) Hnb Hvis.
  assert (Hnotin : ~ In nb visited).
  { intros H. apply existsb_eqb_In in H. congruence. }
  apply last_error_Some in Hlast. destruct Hlast as [front ->].
  repeat split.
  - destruct front; cbn in *; auto.
  - apply last_error_snoc.
  - apply NoDup_snoc; auto.
  - intros x Hx. apply in_app_or in Hx. destruct Hx as [Hx|[Hx|[]]].
    + right. auto.
    + now left.
  - apply is_walk_snoc; auto. now apply neighbors_connect.
Qed.

Lemma dfs_paths_ok fuel : forall current visited pn pe paths,
  branch_ok current visited pn pe ->
  Forall good paths ->
  Forall good (search fuel current visited pn pe paths).
Proof.
  induction fuel as [|fuel IH]; intros current visited pn pe paths Hb Hp;
    unfold search in *; cbn [dfs];
    destruct (_ || _) eqn:Eguard; auto.
  apply orb_false_iff in Eguard. destruct Eguard as [_ Elen].
  destruct (String.eqb current target) eqn:Et.
  - apply String.eqb_eq in Et. subst current.
    apply Forall_app. split; auto. constructor; [|constructor].
    destruct Hb as (Hhd & Hlast & Hnd & _ & Hw).
    unfold good, simple_path, path_length. cbn [p_nodes p_edges].
    repeat split; auto. lia.
  - apply fold_left_preserve; auto.
    intros acc [nb e] Hin Hacc.
    destruct (existsb (String.eqb nb) visited) eqn:Ev; auto.
    apply IH; auto. eapply branch_ok_extend; eauto.
Qed.

Lemma dfs_count fuel : forall current visited pn pe paths,
  Z.of_nat (length (search fuel current visited pn pe paths))
  <= Z.max (Z.of_nat (length paths)) max_paths.
Proof.
  induction fuel as [|fuel IH]; intros current visited pn pe paths;
    unfold search in *; cbn [dfs];
    destruct (_ || _) eqn:Eguard; try lia.
  apply orb_false_iff in Eguard. destruct Eguard as [Ecount _].
  destruct (String.eqb current target).
  - rewrite length_app. cbn [length]. lia.
  - apply (fold_left_preserve _
             (fun acc => Z.of_nat (length acc)
                         <= Z.max (Z.of_nat (length paths)) max_paths)); [|lia].
    intros acc [nb e] _ Hacc.
    destruct (existsb (String.eqb nb) visited); auto.
    specialize (IH nb (nb :: visited) (pn ++ [nb]) (pe ++ [e]) acc). lia.
Qed.

(** The fuel handed to [dfs] by [find_paths] is never exhausted: any two
    amounts of at least [max_length + 1 - len(path_edges)] give the same
    result. *)
Lemma dfs_fuel_irrelevant fuel : forall fuel' current visited pn pe paths,
  max_length + 1 - Z.of_nat (length pe) <= Z.of_nat fuel ->
  max_length + 1 - Z.of_nat (length pe) <= Z.of_nat fuel' ->
  search fuel current visited pn pe paths
  = search fuel' current visited pn pe paths.
Proof.
  induction fuel as [|fuel IH];
    intros fuel' current visited pn pe paths Hf Hf'; unfold search in *.
  - cbn [dfs]. destruct fuel'; cbn [dfs]; destruct (_ || _) eqn:Eguard; auto.
    apply orb_false_iff in Eguard. lia.
  - destruct fuel' as [|fuel'].
    + cbn [dfs]. destruct (_ || _) eqn:Eguard; auto.
      apply orb_false_iff in Eguard. lia.
    + cbn [dfs]. destruct (_ || _); auto.
      destruct (String.eqb current target); auto.
      apply fold_left_ext. intros acc [nb e] _.
      destruct (existsb (String.eqb nb) visited); auto.
      apply IH; rewrite length_app; cbn [length]; lia.
Qed.
End DfsFacts.

(** *** The stable sort *)

Lemma insert_sorted p l :
  sorted_by_length l -> sorted_by_length (insert_by_length p l).
Proof.
  unfold sorted_by_length. induction 1 as [|q r Hr IH Hq]; cbn [insert_by_length].
  - repeat constructor.
  - destruct (path_length p <? path_length q)%nat eqn:E.
    + apply Nat.ltb_lt in E. constructor; [now constructor|].
      constructor; [lia|].
      eapply Forall_impl; [|exact Hq]. cbv beta. intros; lia.
    + apply Nat.ltb_ge in E. constructor; auto.
      assert (Hall : forall l', Forall (fun x => (path_length q <= path_length x)%nat) l' ->
                                Forall (fun x => (path_length q <= path_length x)%nat)
                                       (insert_by_length p l')).
      { induction 1 as [|y l' Hy Hl' IH']; cbn [insert_by_length].
        - now repeat constructor.
        - destruct (path_length p <? path_length y)%nat; repeat constructor; auto. }
      now apply Hall.
Qed.

Lemma insert_of_length k p l :
  sorted_by_length l ->
  of_length k (insert_by_length p l)
  = of_length k l ++ of_length k [p].
Proof.
  unfold sorted_by_length, of_length.
  induction 1 as [|q r Hr IH Hq]; cbn [insert_by_length]; auto.
  destruct (path_length p <? path_length q)%nat eqn:E.
  - apply Nat.ltb_lt in E. cbn [filter].
    destruct (path_length p =? k)%nat eqn:Ek; [|now rewrite app_nil_r].
    apply Nat.eqb_eq in Ek.
    assert (Hq' : (path_length q =? k)%nat = false) by (apply Nat.eqb_neq; lia).
    rewrite Hq'.
    assert (Hr' : filter (fun x => (path_length x =? k)%nat) r = []).
    { clear IH Hr. induction Hq as [|y r Hy Hq IH]; auto.
      cbn [filter].
      assert (Hy' : (path_length y =? k)%nat = false) by (apply Nat.eqb_neq; lia).
      now rewrite Hy'. }
    now rewrite Hr'.
  - cbn [filter]. rewrite IH. cbn [filter].
    destruct (path_length q =? k)%nat; auto.
Qed.

Lemma insert_permutation p l : Permutation (insert_by_length p l) (l ++ [p]).
Proof.
  induction l as [|q r IH]; cbn [insert_by_length app]; auto.
  destruct (path_length p <? path_length q)%nat.
  - change (p :: q :: r) with ([p] ++ (q :: r)).
    change (q :: r ++ [p]) with ((q :: r) ++ [p]).
    apply Permutation_app_comm.
  - now constructor.
Qed.

Lemma sort_fold_spec l : forall acc,
  sorted_by_length acc ->
  let res := fold_left (fun acc p => insert_by_length p acc) l acc in
  sorted_by_length res
  /\ (forall k, of_length k res = of_length k acc ++ of_length k l)
  /\ Permutation res (acc ++ l).
Proof.
  induction l as [|p l IH]; intros acc Hacc; cbn [fold_left].
  - repeat split; auto.
    + intros k. unfold of_length. cbn [filter]. now rewrite app_nil_r.
    + rewrite app_nil_r. reflexivity.
  - destruct (IH (insert_by_length p acc) (insert_sorted p acc Hacc))
      as (Hs & Hk & Hp).
    repeat split; auto.
    + intros k. rewrite Hk, insert_of_length by auto.
      rewrite <- app_assoc. f_equal.
      unfold of_length. cbn [filter].
      now destruct (path_length p =? k)%nat.
    + rewrite Hp. rewrite insert_permutation. rewrite <- app_assoc. reflexivity.
Qed.

Lemma sort_by_length_spec l :
  sorted_by_length (sort_by_length l)
  /\ (forall k, of_length k (sort_by_length l) = of_length k l)
  /\ Permutation (sort_by_length l) l.
Proof.
  unfold sort_by_length.
  destruct (sort_fold_spec l []) as (Hs & Hk & Hp); [constructor|].
  repeat split; auto.
Qed.

(** C7 (as amended).  [find_paths] (routing_engine_v1.py) and
    [find_all_paths] (lambda_floor.py) are one function.  For
    [source = target] the result is the single zero-edge path [[source]],
    whatever the two bounds are.  For [source <> target] every returned
    path is a simple path of the network from [source] to [target] with at
    most [max_length] edges, at most [max_paths] paths are returned (none
    when [max_paths <= 0]), and the result is the list of the paths in DFS
    discovery order, stably sorted by edge count: it is sorted by edge
    count, and for each edge count its paths are in discovery order.  The
    discovery list does not depend on the recursion budget of the model,
    once that covers [max_length + 1] calls. *)
Theorem path_search_simple_bounded_sorted :
  forall network source target max_paths max_length,
    let found := find_paths network source target max_paths max_length in
    let discovered :=
      dfs_discovery network source target max_paths max_length in
    find_all_paths network source target max_length max_paths = found
    /\ (forall fuel,
          max_length + 1 <= Z.of_nat fuel ->
          dfs network target max_paths max_length fuel
              source [source] [source] [] [] = discovered)
    /\ (source = target -> found = [mkPath [source] []])
    /\ (source <> target ->
        Forall (simple_path network source target max_length) found
        /\ Z.of_nat (length found) <= Z.max 0 max_paths
        /\ sorted_by_length found
        /\ (forall k, of_length k found = of_length k discovered)
        /\ Permutation found discovered).
Proof.
  intros network source target max_paths max_length found discovered.
  split; [reflexivity|]. split.
  { intros fuel Hfuel. unfold discovered, dfs_discovery.
    apply dfs_fuel_irrelevant; cbn [length]; lia. }
  unfold found, find_paths. split.
  - intros ->. now rewrite String.eqb_refl.
  - intros Hne. apply String.eqb_neq in Hne. rewrite Hne.
    fold discovered.
    destruct (sort_by_length_spec discovered) as (Hs & Hk & Hp).
    assert (Hgood : Forall (simple_path network source target max_length) discovered).
    { unfold discovered, dfs_discovery. apply dfs_paths_ok; [|constructor].
      repeat split; cbn; auto.
      constructor; [intros []|constructor]. }
    assert (Hcount : Z.of_nat (length discovered) <= Z.max 0 max_paths).
    { unfold discovered, dfs_discovery.
      pose proof (dfs_count network target max_paths max_length
                    (Z.to_nat (max_length + 1)) source [source] [source] [] []) as H.
      cbn [length] in H. exact H. }
    repeat split; auto.
    + eapply Permutation_Forall; [|exact Hgood]. now apply Permutation_sym.
    + now rewrite (Permutation_length Hp).
Qed.

(** C7, the claim as stated fails: with [source = target] the search
    returns one path even when [max_paths] is 0. *)
Lemma path_search_exceeds_zero_max_paths :
  let network := mkNetwork ["A"%string] [] in
  find_paths network "A" "A" 0 10 = [mkPath ["A"%string] []]
  /\ ~ (Z.of_nat (length (find_paths network "A" "A" 0 10)) <= 0).
Proof. split; [reflexivity | cbn; lia]. Qed.

(** ** Transition cost and equality of loads *)

Lemma transition_cost_zero_iff A B itfs :
  (transition_cost A B itfs == 0)%Q
  <-> forall itf, In itf itfs ->
                  (cost itf (lv_get A (name itf)) == cost itf (lv_get B (name itf)))%Q.
Proof.
  induction itfs as [|itf r IH].
  - split; [intros _ itf [] | reflexivity].
  - rewrite transition_cost_cons.
    pose proof (transition_cost_nonneg A B r) as Hr.
    pose proof (Qabs_nonneg
                  (cost itf (lv_get B (name itf)) - cost itf (lv_get A (name itf)))) as Ha.
    split.
    + intros H0 x [<-|Hx].
      * assert (E : (Qabs (cost itf (lv_get B (name itf))
                           - cost itf (lv_get A (name itf))) == 0)%Q) by lra.
        pose proof (Qle_Qabs (cost itf (lv_get B (name itf))
                              - cost itf (lv_get A (name itf)))) as H1.
        pose proof (Qle_Qabs (- (cost itf (lv_get B (name itf))
                                 - cost itf (lv_get A (name itf))))) as H2.
        rewrite Qabs_opp in H2. lra.
      * apply IH; auto. lra.
    + intros H.
      assert (E1 : (cost itf (lv_get A (name itf)) == cost itf (lv_get B (name itf)))%Q)
        by (apply H; now left).
      assert (E2 : (transition_cost A B r == 0)%Q)
        by (apply IH; intros x Hx; apply H; now right).
      rewrite E2.
      assert (E3 : (cost itf (lv_get B (name itf)) - cost itf (lv_get A (name itf)) == 0)%Q)
        by lra.
      rewrite E3. reflexivity.
Qed.

Lemma transition_cost_of_equal_loads A B itfs :
  lv_eq A B = true -> (transition_cost A B itfs == 0)%Q.
Proof.
  intros H. apply transition_cost_zero_iff. intros itf _.
  rewrite lv_eq_pointwise in H. rewrite H. reflexivity.
Qed.

(** C5, at the failing input.  [transition_cost] is symmetric and never
    negative, but it only looks at the listed interfaces: a unit of load on
    an interface that is not in the list costs nothing, so the cost is zero
    between two loads that are not equal. *)
Theorem transition_cost_zero_between_distinct_loads :
  let itfs := [Examples.I1] in
  let A := mkLoad [("I2"%string, 1)] in
  let B := LoadVector_empty in
  (transition_cost A B itfs == transition_cost B A itfs)%Q
  /\ (0 <= transition_cost A B itfs)%Q
  /\ (transition_cost A B itfs == 0)%Q
  /\ lv_eq A B = false
  /\ loads A <> loads B.
Proof.
  cbv zeta. split; [apply transition_cost_sym|].
  split; [apply transition_cost_nonneg|].
  split; [reflexivity|]. split; [reflexivity | discriminate].
Qed.

(** ** The floor estimator on the triangle *)

(** C4, at the failing input.  On the triangle the stream admits a bulky
    [A - B] obligation on the cheap two-hop route, which fills the narrow
    edge and forces the next obligation onto the dear detour; the third
    obligation loads the shared hop, the relaxation then moves the bulk to
    the direct edge and frees the narrow one.  The second report's residual
    cost is lower than the first's. *)
Theorem residual_cost_decreases_on_triangle :
  exists s1 s2,
    LambdaFloor.estimate_lambda_floor Examples.triangle Examples.triangle_stream 2
    = Returned [s1; s2]
    /\ LambdaFloor.time_step s1 = 1 /\ (LambdaFloor.lambda_E s1 == 9)%Q
    /\ LambdaFloor.time_step s2 = 2 /\ (LambdaFloor.lambda_E s2 == 15 # 2)%Q
    /\ (LambdaFloor.lambda_E s2 < LambdaFloor.lambda_E s1)%Q.
Proof.
  eexists. eexists. split; [vm_compute; reflexivity|].
  repeat split; vm_compute; reflexivity.
Qed.

(** ** Construction of interfaces *)

Lemma inject_Z_nonneg n : 0 <= n -> (0 <= inject_Z n)%Q.
Proof. intros H. unfold Qle. cbn. lia. Qed.

Lemma cost_nonneg itf n :
  (0 <= epsilon itf)%Q -> (0 <= eta itf)%Q -> (0 <= cost itf n)%Q.
Proof.
  intros He Hh. unfold cost. destruct (n <=? 0) eqn:E; [lra|].
  apply Z.leb_gt in E.
  assert (H1 : (0 <= inject_Z n)%Q) by (apply inject_Z_nonneg; lia).
  assert (H2 : (0 <= inject_Z (n - 1))%Q) by (apply inject_Z_nonneg; lia).
  assert (H3 : (0 <= epsilon itf * inject_Z n)%Q) by (apply Qmult_le_0_compat; auto).
  assert (H4 : (0 <= eta itf * inject_Z n * inject_Z (n - 1))%Q)
    by (repeat apply Qmult_le_0_compat; auto).
  assert (H5 : (eta itf * inject_Z n * inject_Z (n - 1) / 2
                == (1 # 2) * (eta itf * inject_Z n * inject_Z (n - 1)))%Q) by field.
  rewrite H5. lra.
Qed.

(** C9 (as amended).  Constructing an [Interface] never fails: the
    constructor stores the name, capacity and coefficients it is given,
    degenerate or not.  A degenerate capacity is felt at admission only: an
    interface with non-negative coefficients whose capacity is at most the
    slack margin makes every load inadmissible. *)
Theorem interface_construction_accepts_everything :
  (forall nm c eps et, Interface_init nm c eps et = Some (mkInterface nm c eps et))
  /\ (forall itf itfs L,
         In itf itfs ->
         (capacity itf <= EPS_SLACK)%Q ->
         (0 <= epsilon itf)%Q -> (0 <= eta itf)%Q ->
         is_admissible L itfs = false).
Proof.
  split; [reflexivity|].
  intros itf itfs L Hin Hc He Hh.
  destruct (is_admissible L itfs) eqn:E; auto.
  apply is_admissible_iff in E. specialize (E itf Hin).
  pose proof (cost_nonneg itf (lv_get L (name itf)) He Hh).
  unfold headroom in E. lra.
Qed.

(** C9, the claim as stated fails: an interface with negative capacity, a
    zero linear and a negative quadratic coefficient is constructed. *)
Lemma degenerate_interface_is_constructed :
  Interface_init "bad" (-1) 0 (-1) = Some (mkInterface "bad" (-1) 0 (-1))
  /\ Interface_init "bad" (-1) 0 (-1) <> None.
Proof. split; [reflexivity | discriminate]. Qed.

(** ** The cost formula *)

Lemma cost_formula itf n :
  1 <= n ->
  (cost itf n == epsilon itf * inject_Z n
                 + eta itf * inject_Z n * (inject_Z n - 1) * (1 # 2))%Q.
Proof.
  intros Hn. unfold cost.
  destruct (n <=? 0) eqn:E; [apply Z.leb_le in E; lia|].
  unfold Z.sub. rewrite inject_Z_plus. cbn [inject_Z Z.opp]. 
  change (inject_Z (-1)) with (-1 # 1)%Q. field.
Qed.

Lemma cost_zero itf : cost itf 0 = 0%Q.
Proof. reflexivity. Qed.

(** ** The floor estimator *)

Lemma admit_due network K len t st routed :
  LambdaFloor.relax_due K t len = true ->
  exists report,
    LambdaFloor.history (LambdaFloor.admit_routed network K len t st routed)
    = LambdaFloor.history st ++ [report]
    /\ LambdaFloor.time_step report = t
    /\ LambdaFloor.residual_load report
       = snd (LambdaFloor.relax_routing
                network (LambdaFloor.active_routed st ++ [routed]) 3)
    /\ LambdaFloor.lambda_E report
       = LambdaFloor.total_cost (LambdaFloor.residual_load report)
                                (interfaces network)
    /\ LambdaFloor.active_routed (LambdaFloor.admit_routed network K len t st routed)
       = fst (LambdaFloor.relax_routing
                network (LambdaFloor.active_routed st ++ [routed]) 3).
Proof.
  intros Hdue. unfold LambdaFloor.admit_routed. rewrite Hdue.
  unfold LambdaFloor.relaxation_report.
  destruct (LambdaFloor.relax_routing _ _ 3) as [relaxed residual].
  destruct (LambdaFloor.residual_fraction residual _) as [sigma bn].
  eexists. cbn [LambdaFloor.history LambdaFloor.active_routed fst snd].
  split; [reflexivity|]. repeat split.
Qed.

Lemma admit_not_due network K len t st routed :
  LambdaFloor.relax_due K t len = false ->
  LambdaFloor.history (LambdaFloor.admit_routed network K len t st routed)
  = LambdaFloor.history st
  /\ LambdaFloor.active_routed (LambdaFloor.admit_routed network K len t st routed)
     = LambdaFloor.active_routed st ++ [routed].
Proof.
  intros Hdue. unfold LambdaFloor.admit_routed. rewrite Hdue. split; reflexivity.
Qed.

Lemma admit_time_steps network K len t st routed :
  map LambdaFloor.time_step
      (LambdaFloor.history (LambdaFloor.admit_routed network K len t st routed))
  = map LambdaFloor.time_step (LambdaFloor.history st)
    ++ (if LambdaFloor.relax_due K t len then [t] else []).
Proof.
  destruct (LambdaFloor.relax_due K t len) eqn:Hdue.
  - destruct (admit_due network K len t st routed Hdue) as (r & Hh & Ht & _).
    rewrite Hh, map_app. cbn [map]. now rewrite Ht.
  - destruct (admit_not_due network K len t st routed Hdue) as [Hh _].
    rewrite Hh. now rewrite app_nil_r.
Qed.

Lemma admit_obligations network K len t st ob routed :
  LambdaFloor.route_obligation
    network ob (compute_load_from_routed (LambdaFloor.active_routed st)) 10
  = Some routed ->
  map obligation (LambdaFloor.active_routed (LambdaFloor.admit_routed network K len t st routed))
  = map obligation (LambdaFloor.active_routed st) ++ [ob].
Proof.
  intros Hr.
  assert (Hob : obligation routed = ob).
  { pose proof (route_obligation_spec LambdaFloor.total_cost
                  LambdaFloor.candidate_paths network ob
                  (compute_load_from_routed (LambdaFloor.active_routed st)) 10) as S.
    cbv zeta in S. unfold LambdaFloor.route_obligation in Hr. rewrite Hr in S.
    exact (proj1 S). }
  destruct (LambdaFloor.relax_due K t len) eqn:Hdue.
  - destruct (admit_due network K len t st routed Hdue) as (r & _ & _ & _ & _ & Ha).
    rewrite Ha. unfold LambdaFloor.relax_routing. cbn [fst].
    destruct (relax_run_same LambdaFloor.total_cost LambdaFloor.candidate_paths
                network (LambdaFloor.active_routed st ++ [routed]) 3)
      as (_ & Ho & _).
    rewrite Ho, map_app. cbn [map]. now rewrite Hob.
  - destruct (admit_not_due network K len t st routed Hdue) as [_ Ha].
    rewrite Ha, map_app. cbn [map]. now rewrite Hob.
Qed.

Lemma due_steps_succ K len t m :
  due_steps K len t (S m)
  = (if LambdaFloor.relax_due K t len then [t] else []) ++ due_steps K len (t + 1) m.
Proof.
  unfold due_steps. cbn [seq map filter]. rewrite Z.add_0_r.
  rewrite <- seq_shift, map_map.
  assert (E : map (fun i => t + Z.of_nat (S i)) (seq 0 m)
              = map (fun i => t + 1 + Z.of_nat i) (seq 0 m)).
  { apply map_ext. intros i. lia. }
  rewrite E. now destruct (LambdaFloor.relax_due K t len).
Qed.

Lemma floor_loop_spec network K len :
  K <> 0 ->
  forall stream t st,
  exists m st',
    LambdaFloor.floor_after network K len t stream m st = Some st'
    /\ LambdaFloor.floor_loop network K len t stream st
       = Returned (LambdaFloor.history st')
    /\ (m = length stream
        \/ exists ob,
            nth_error stream m = Some ob
            /\ LambdaFloor.route_obligation
                 network ob
                 (compute_load_from_routed (LambdaFloor.active_routed st')) 10
               = None)
    /\ map LambdaFloor.time_step (LambdaFloor.history st')
       = map LambdaFloor.time_step (LambdaFloor.history st) ++ due_steps K len t m
    /\ map obligation (LambdaFloor.active_routed st')
       = map obligation (LambdaFloor.active_routed st) ++ firstn m stream.
Proof.
  intros HK. apply Z.eqb_neq in HK.
  induction stream as [|ob rest IH]; intros t st.
  - exists O, st. cbn. rewrite !app_nil_r. repeat split; auto.
  - cbn [LambdaFloor.floor_loop].
    destruct (LambdaFloor.route_obligation
                network ob
                (compute_load_from_routed (LambdaFloor.active_routed st)) 10)
      as [routed|] eqn:Hr.
    + rewrite HK.
      destruct (IH (t + 1) (LambdaFloor.admit_routed network K len t st routed))
        as (m & st' & Hafter & Hloop & Hstop & Hsteps & Hobs).
      exists (S m), st'. cbn [LambdaFloor.floor_after]. rewrite Hr.
      split; [exact Hafter|]. split; [exact Hloop|]. split; [|split].
      * destruct Hstop as [->|Hstop]; [now left | right; exact Hstop].
      * rewrite Hsteps, admit_time_steps, due_steps_succ. now rewrite app_assoc.
      * rewrite Hobs, (admit_obligations network K len t st ob routed Hr).
        cbn [firstn]. now rewrite <- app_assoc.
    + exists O, st. cbn [LambdaFloor.floor_after firstn nth_error].
      unfold due_steps. cbn [seq map filter]. rewrite !app_nil_r.
      split; [reflexivity|]. split; [reflexivity|]. split; [|split; reflexivity].
      right. exists ob. split; [reflexivity | exact Hr].
Qed.

(** X23.  The floor estimator of lambda_floor.py.  Whenever it returns,
    it has admitted the obligations of the stream in order up to the first
    one that [route_obligation] rejects (or to the end), it returns the
    reports recorded so far, and it has recorded a report exactly on the
    steps [t] with [(t + 1) % relax_every == 0] or [t] the last index of
    the stream; a ZeroDivisionError comes only from a zero relaxation
    interval.  ([admit_due] says what a report holds.) *)
Theorem floor_estimator_stops_and_reports :
  forall network stream K,
    let len := Z.of_nat (length stream) in
    match LambdaFloor.estimate_lambda_floor network stream K with
    | Returned reports =>
        exists m st,
          LambdaFloor.floor_after network K len 0 stream m LambdaFloor.floor_start
          = Some st
          /\ reports = LambdaFloor.history st
          /\ (m = length stream
              \/ exists ob,
                  nth_error stream m = Some ob
                  /\ LambdaFloor.route_obligation
                       network ob
                       (compute_load_from_routed (LambdaFloor.active_routed st)) 10
                     = None)
          /\ map LambdaFloor.time_step reports = due_steps K len 0 m
          /\ map obligation (LambdaFloor.active_routed st) = firstn m stream
    | Raised e => e = ZeroDivisionError -> K = 0
    end.
Proof.
  intros network stream K len.
  destruct (Z.eq_dec K 0) as [->|HK].
  - unfold LambdaFloor.estimate_lambda_floor. fold len.
    destruct stream as [|ob rest]; cbn [LambdaFloor.floor_loop].
    + exists O, LambdaFloor.floor_start. cbn. repeat split; auto.
    + destruct (LambdaFloor.route_obligation network ob _ 10) eqn:Hr.
      * cbn [Z.eqb]. reflexivity.
      * exists O, LambdaFloor.floor_start.
        cbn [LambdaFloor.floor_after LambdaFloor.history LambdaFloor.floor_start
             LambdaFloor.active_routed map firstn due_steps seq filter].
        repeat split; auto. right. exists ob. split; [reflexivity | exact Hr].
  - destruct (floor_loop_spec network K len HK stream 0 LambdaFloor.floor_start)
      as (m & st & H1 & H2 & H3 & H4 & H5).
    unfold LambdaFloor.estimate_lambda_floor. fold len. rewrite H2.
    exists m, st. repeat split; auto.
Qed.

(** C8, at the failing input.  One obligation on the single edge with
    [relax_every = 3]: lambda_floor.py relaxes and reports on this final
    commitment, V4 returns no report at all. *)
Theorem v4_floor_estimator_skips_final_report :
  let stream := [mkObligation 0 "A" "B" 1] in
  UnifiedV4.estimate_lambda_floor Examples.single_edge stream 3 = Returned []
  /\ exists report,
      LambdaFloor.estimate_lambda_floor Examples.single_edge stream 3
      = Returned [report]
      /\ LambdaFloor.time_step report = 0.
Proof.
  cbv zeta. split; [vm_compute; reflexivity|].
  eexists. split; [vm_compute; reflexivity | reflexivity].
Qed.

(** ** Instances *)

(** C7 on the single edge: [A] and [B] differ, so the search from [A] to
    [B] returns simple, bounded, stably sorted paths. *)
Lemma path_search_on_single_edge :
  "A"%string <> "B"%string
  /\ (let found := find_paths Examples.single_edge "A" "B" 10 10 in
      let discovered := dfs_discovery Examples.single_edge "A" "B" 10 10 in
      Forall (simple_path Examples.single_edge "A" "B" 10) found
      /\ Z.of_nat (length found) <= Z.max 0 10
      /\ sorted_by_length found
      /\ (forall k, of_length k found = of_length k discovered)
      /\ Permutation found discovered).
Proof.
  split; [discriminate|].
  apply (proj2 (proj2 (proj2 (path_search_simple_bounded_sorted
                                Examples.single_edge "A" "B" 10 10)))).
  discriminate.
Defined.

(** C9 on an interface of capacity zero: it is constructed, and no load is
    admissible on it. *)
Lemma zero_capacity_interface_admits_nothing :
  let itf := mkInterface "zero" 0 1 (1 # 2) in
  Interface_init "zero" 0 1 (1 # 2) = Some itf
  /\ is_admissible LoadVector_empty [itf] = false.
Proof.
  cbv zeta. split.
  - apply (proj1 interface_construction_accepts_everything).
  - apply (proj2 interface_construction_accepts_everything
                 (mkInterface "zero" 0 1 (1 # 2))).
    + now left.
    + vm_compute; congruence.
    + vm_compute; congruence.
    + vm_compute; congruence.
Defined.

(** * Further properties of the four files *)

(** ** The cost model *)

Lemma cost_nonpositive_load itf n : n <= 0 -> cost itf n = 0%Q.
Proof.
  intros H. unfold cost. destruct (n <=? 0) eqn:E; auto.
  apply Z.leb_gt in E. lia.
Qed.

Lemma cost_clamp itf n : cost itf n = cost itf (Z.max n 0).
Proof.
  destruct (Z_le_gt_dec n 0).
  - rewrite Z.max_r by lia. now rewrite !cost_nonpositive_load by lia.
  - now rewrite Z.max_l by lia.
Qed.

Lemma cost_next itf n :
  0 <= n ->
  (cost itf (n + 1) == cost itf n + epsilon itf + eta itf * inject_Z n)%Q.
Proof.
  intros Hn. rewrite (cost_formula itf (n + 1)) by lia.
  rewrite inject_Z_plus. change (inject_Z 1) with 1%Q.
  destruct (Z.eq_dec n 0) as [->|Hne].
  - rewrite cost_zero. change (inject_Z 0) with 0%Q. ring.
  - rewrite (cost_formula itf n) by lia. ring.
Qed.

Lemma cost_growth itf n (k : nat) :
  (0 <= epsilon itf)%Q -> (0 <= eta itf)%Q -> 0 <= n ->
  (inject_Z (Z.of_nat k) * epsilon itf <= cost itf (n + Z.of_nat k) - cost itf n)%Q.
Proof.
  intros He Hh Hn. induction k as [|k IH].
  - cbn [Z.of_nat]. rewrite Z.add_0_r. change (inject_Z 0) with 0%Q. lra.
  - rewrite Nat2Z.inj_succ. unfold Z.succ.
    rewrite Z.add_assoc, inject_Z_plus. change (inject_Z 1) with 1%Q.
    rewrite (cost_next itf (n + Z.of_nat k)) by lia.
    assert (H : (0 <= eta itf * inject_Z (n + Z.of_nat k))%Q).
    { apply Qmult_le_0_compat; auto. apply inject_Z_nonneg. lia. }
    lra.
Qed.

Lemma cost_gap itf n m :
  (0 <= epsilon itf)%Q -> (0 <= eta itf)%Q -> n <= m ->
  (inject_Z (Z.max m 0 - Z.max n 0) * epsilon itf <= cost itf m - cost itf n)%Q.
Proof.
  intros He Hh Hnm.
  rewrite (cost_clamp itf m), (cost_clamp itf n).
  pose proof (cost_growth itf (Z.max n 0)
                          (Z.to_nat (Z.max m 0 - Z.max n 0)) He Hh) as G.
  rewrite Z2Nat.id in G by lia.
  replace (Z.max n 0 + (Z.max m 0 - Z.max n 0)) with (Z.max m 0) in G by lia.
  apply G. lia.
Qed.

Lemma cost_le itf n m :
  (0 <= epsilon itf)%Q -> (0 <= eta itf)%Q -> n <= m ->
  (cost itf n <= cost itf m)%Q.
Proof.
  intros He Hh Hnm. pose proof (cost_gap itf n m He Hh Hnm) as G.
  assert (P : (0 <= inject_Z (Z.max m 0 - Z.max n 0) * epsilon itf)%Q).
  { apply Qmult_le_0_compat; auto. apply inject_Z_nonneg. lia. }
  lra.
Qed.

(** X1.  With non-negative coefficients the cost never decreases with the
    load and the headroom never grows. *)
Theorem cost_monotone_in_load :
  forall itf n m,
    (0 <= epsilon itf)%Q -> (0 <= eta itf)%Q -> n <= m ->
    (cost itf n <= cost itf m)%Q
    /\ (headroom itf m <= headroom itf n)%Q.
Proof.
  intros itf n m He Hh Hnm.
  pose proof (cost_le itf n m He Hh Hnm) as P.
  unfold headroom. split; auto; lra.
Qed.

Lemma cost_monotone_on_I1 :
  ((0 <= epsilon Examples.I1)%Q /\ (0 <= eta Examples.I1)%Q /\ 1 <= 3)
  /\ ((cost Examples.I1 1 <= cost Examples.I1 3)%Q
      /\ (headroom Examples.I1 3 <= headroom Examples.I1 1)%Q).
Proof.
  split.
  - repeat split; vm_compute; congruence.
  - apply (cost_monotone_in_load Examples.I1 1 3); vm_compute; congruence.
Defined.

(** X2.  The admissible region is closed downwards: with non-negative
    coefficients, a load that is at most an admissible load at every
    interface is admissible. *)
Theorem admissible_region_down_closed :
  forall itfs L L',
    (forall itf, In itf itfs -> (0 <= epsilon itf)%Q /\ (0 <= eta itf)%Q) ->
    (forall itf, In itf itfs -> lv_get L (name itf) <= lv_get L' (name itf)) ->
    is_admissible L' itfs = true ->
    is_admissible L itfs = true.
Proof.
  intros itfs L L' Hco Hle H. apply is_admissible_iff.
  apply is_admissible_iff in H. intros itf Hin.
  destruct (Hco itf Hin) as [He Hh].
  pose proof (cost_le itf _ _ He Hh (Hle itf Hin)) as Hc.
  specialize (H itf Hin). unfold headroom in *. lra.
Qed.

Lemma admissible_region_down_closed_on_I1 :
  let itfs := [Examples.I1] in
  let L := mkLoad [("I1"%string, 1)] in
  let L' := mkLoad [("I1"%string, 3)] in
  ((forall itf, In itf itfs -> (0 <= epsilon itf)%Q /\ (0 <= eta itf)%Q)
   /\ (forall itf, In itf itfs -> lv_get L (name itf) <= lv_get L' (name itf))
   /\ is_admissible L' itfs = true)
  /\ is_admissible L itfs = true.
Proof.
  cbv zeta.
  assert (H1 : forall itf, In itf [Examples.I1] ->
                           (0 <= epsilon itf)%Q /\ (0 <= eta itf)%Q).
  { intros itf [<-|[]]. split; vm_compute; congruence. }
  assert (H2 : forall itf, In itf [Examples.I1] ->
                           lv_get (mkLoad [("I1"%string, 1)]) (name itf)
                           <= lv_get (mkLoad [("I1"%string, 3)]) (name itf)).
  { intros itf [<-|[]]. vm_compute; congruence. }
  split; [split; [exact H1 | split; [exact H2 | reflexivity]]|].
  exact (admissible_region_down_closed
           [Examples.I1] (mkLoad [("I1"%string, 1)]) (mkLoad [("I1"%string, 3)])
           H1 H2 eq_refl).
Defined.

(** ** Transition costs along a history *)

Lemma fold_Qplus_acc {A} (f : A -> Q) l : forall acc,
  (fold_left (fun acc x => acc + f x) l acc
   == acc + fold_left (fun acc x => acc + f x) l 0)%Q.
Proof.
  induction l as [|x l IH]; intros acc; cbn [fold_left].
  - lra.
  - rewrite IH, (IH (0 + f x)%Q). lra.
Qed.

Lemma v4_total_cost_cons L itf itfs :
  (UnifiedV4.total_cost L (itf :: itfs)
   == cost itf (lv_get L (name itf)) + UnifiedV4.total_cost L itfs)%Q.
Proof.
  unfold UnifiedV4.total_cost. cbn [fold_left].
  rewrite (fold_Qplus_acc (fun itf => cost itf (lv_get L (name itf)))). lra.
Qed.

Lemma py_sum_cons x l :
  (AccumulatedCost.py_sum (x :: l) == x + AccumulatedCost.py_sum l)%Q.
Proof.
  unfold AccumulatedCost.py_sum. cbn [fold_left].
  change Qplus with (fun acc q : Q => (acc + (fun q => q) q)%Q).
  rewrite (fold_Qplus_acc (fun q => q)). cbv beta. lra.
Qed.


Lemma signed_fold L_prev L_next itfs : forall acc,
  let r := fold_left
             (fun '(increase, decrease) itf =>
                let n_prev := lv_get L_prev (name itf) in
                let n_next := lv_get L_next (name itf) in
                let delta_E := (cost itf n_next - cost itf n_prev)%Q in
                if Qlt_bool 0 delta_E then ((increase + delta_E)%Q, decrease)
                else (increase, (decrease + Qabs delta_E)%Q))
             itfs acc in
  (fst acc <= fst r)%Q /\ (snd acc <= snd r)%Q
  /\ (fst r + snd r == fst acc + snd acc + transition_cost L_prev L_next itfs)%Q
  /\ (fst r - snd r
      == fst acc - snd acc
         + (UnifiedV4.total_cost L_next itfs - UnifiedV4.total_cost L_prev itfs))%Q.
Proof.
  cbv zeta.
  set (F := fun '(increase, decrease) itf =>
              if Qlt_bool 0 (cost itf (lv_get L_next (name itf))
                             - cost itf (lv_get L_prev (name itf)))
              then ((increase + (cost itf (lv_get L_next (name itf))
                                 - cost itf (lv_get L_prev (name itf))))%Q,
                    decrease)
              else (increase,
                    (decrease + Qabs (cost itf (lv_get L_next (name itf))
                                      - cost itf (lv_get L_prev (name itf))))%Q)).
  induction itfs as [|itf r IH]; intros [i d].
  - unfold transition_cost, UnifiedV4.total_cost. cbn [fold_left fst snd].
    repeat split; lra.
  - cbn [fold_left].
    pose proof (transition_cost_cons L_prev L_next itf r) as Ht.
    pose proof (v4_total_cost_cons L_next itf r) as Hn.
    pose proof (v4_total_cost_cons L_prev itf r) as Hp.
    specialize (IH (F (i, d) itf)).
    destruct IH as (H1 & H2 & H3 & H4).
    assert (HF : ((fst (F (i, d) itf) == i + (cost itf (lv_get L_next (name itf))
                                 - cost itf (lv_get L_prev (name itf)))
                   /\ snd (F (i, d) itf) == d
                   /\ Qabs (cost itf (lv_get L_next (name itf))
                            - cost itf (lv_get L_prev (name itf)))
                      == cost itf (lv_get L_next (name itf))
                         - cost itf (lv_get L_prev (name itf))
                   /\ 0 <= cost itf (lv_get L_next (name itf))
                                 - cost itf (lv_get L_prev (name itf)))
                  \/ (fst (F (i, d) itf) == i
                      /\ snd (F (i, d) itf)
                         == d - (cost itf (lv_get L_next (name itf))
                                 - cost itf (lv_get L_prev (name itf)))
                      /\ Qabs (cost itf (lv_get L_next (name itf))
                               - cost itf (lv_get L_prev (name itf)))
                         == - (cost itf (lv_get L_next (name itf))
                               - cost itf (lv_get L_prev (name itf)))
                      /\ cost itf (lv_get L_next (name itf))
                                 - cost itf (lv_get L_prev (name itf)) <= 0))%Q).
    { unfold F.
      destruct (Qlt_bool 0 (cost itf (lv_get L_next (name itf))
                            - cost itf (lv_get L_prev (name itf)))) eqn:E.
      - apply Qlt_bool_iff in E. left. cbn [fst snd].
        rewrite Qabs_pos by lra. repeat split; lra.
      - apply Qlt_bool_false_iff in E. right. cbn [fst snd].
        rewrite Qabs_neg by lra. repeat split; lra. }
    cbn [fst snd].
    destruct HF as [(E1 & E2 & E3 & E4) | (E1 & E2 & E3 & E4)];
      repeat split; lra.
Qed.

Lemma transition_cost_one_way A B itfs :
  (forall itf, In itf itfs ->
               (cost itf (lv_get A (name itf)) <= cost itf (lv_get B (name itf)))%Q) ->
  (transition_cost A B itfs
   == UnifiedV4.total_cost B itfs - UnifiedV4.total_cost A itfs)%Q.
Proof.
  induction itfs as [|itf r IH]; intros H.
  - reflexivity.
  - rewrite transition_cost_cons, !v4_total_cost_cons.
    pose proof (H itf (or_introl eq_refl)) as Hi.
    rewrite Qabs_pos by lra.
    rewrite IH by (intros i Hin; apply H; now right). lra.
Qed.


Lemma consecutive_cost_snoc itfs l : forall x y,
  (consecutive_cost itfs ((l ++ [x]) ++ [y])
   == consecutive_cost itfs (l ++ [x]) + transition_cost x y itfs)%Q.
Proof.
  induction l as [|a l IH]; intros x y.
  - cbn [app consecutive_cost]. lra.
  - specialize (IH x y).
    change (((a :: l) ++ [x]) ++ [y]) with (a :: ((l ++ [x]) ++ [y])).
    change ((a :: l) ++ [x]) with (a :: (l ++ [x])).
    destruct (l ++ [x]) as [|b r] eqn:E.
    + destruct l; discriminate.
    + cbn [app consecutive_cost] in *. lra.
Qed.

Lemma history_sum_consecutive itfs l : forall a,
  (AccumulatedCost.py_sum
     (map (fun i => transition_cost (nth i (a :: l) LoadVector_empty)
                                    (nth (i + 1) (a :: l) LoadVector_empty) itfs)
          (seq 0 (length l)))
   == consecutive_cost itfs (a :: l))%Q.
Proof.
  induction l as [|b l IH]; intros a.
  - reflexivity.
  - cbn [length seq map]. rewrite py_sum_cons.
    rewrite <- seq_shift, map_map.
    cbn [consecutive_cost]. rewrite <- (IH b).
    cbn [nth Nat.add]. reflexivity.
Qed.

Lemma history_cost_consecutive itfs lds :
  (AccumulatedCost.history_cost lds itfs == consecutive_cost itfs lds)%Q.
Proof.
  unfold AccumulatedCost.history_cost.
  destruct lds as [|a [|b l]]; try reflexivity.
  change ((length (a :: b :: l) <? 2)%nat) with false. cbv iota.
  replace (length (a :: b :: l) - 1)%nat with (length (b :: l))
    by (cbn [length]; lia).
  apply history_sum_consecutive.
Qed.

Lemma ac_last_step itfs lds ld :
  exists s,
    last_error (AccumulatedCost.steps (AccumulatedCost.appended itfs (lds ++ [ld])))
    = Some s /\ AccumulatedCost.load s = ld.
Proof.
  pose proof (ac_appended_loads itfs (lds ++ [ld])) as H.
  destruct (last_error _) as [s|] eqn:E.
  - exists s. split; auto. apply last_error_Some in E. destruct E as [l' E].
    rewrite E, map_app in H. cbn [map] in H.
    apply app_inj_tail in H. tauto.
  - apply last_error_None in E. rewrite E in H. destruct lds; discriminate.
Qed.

Lemma action_consecutive itfs lds :
  (AccumulatedCost.action (AccumulatedCost.appended itfs lds)
   == consecutive_cost itfs lds)%Q.
Proof.
  induction lds as [|ld lds IH] using rev_ind.
  - reflexivity.
  - rewrite ac_appended_snoc.
    unfold AccumulatedCost.action at 1, AccumulatedCost.append.
    rewrite ac_appended_interfaces.
    destruct lds as [|x lds' _] using rev_ind.
    + cbn. unfold AccumulatedCost._make_step.
      destruct (min_headroom _ _). reflexivity.
    + destruct (ac_last_step itfs lds' x) as (s & Hs & Hl).
      rewrite Hs. cbn [AccumulatedCost.steps]. rewrite last_error_snoc.
      unfold AccumulatedCost._make_step. rewrite ?ac_appended_interfaces.
      destruct (min_headroom ld itfs). cbn [AccumulatedCost.time].
      rewrite consecutive_cost_snoc, <- IH.
      unfold AccumulatedCost.action. rewrite Hs, Hl. reflexivity.
Qed.


Lemma last_cons_default {A} (l : list A) : forall a b, last (b :: l) a = last l b.
Proof.
  induction l as [|c l IH]; intros a b; [reflexivity|].
  change (last (b :: c :: l) a) with (last (c :: l) a).
  now rewrite (IH a c), (IH b c).
Qed.

(** ** The action quantum *)

Lemma min_fold_le (l : list Interface) : forall m,
  let r := fold_left (fun m i => if Qlt_bool (epsilon i) m then epsilon i else m)
                     l m in
  (r <= m)%Q
  /\ (forall i, In i l -> (r <= epsilon i)%Q)
  /\ (r = m \/ exists i, In i l /\ r = epsilon i).
Proof.
  induction l as [|x l IH]; intros m; cbv zeta; cbn [fold_left].
  - split; [lra|]. split; [intros i []|now left].
  - destruct (Qlt_bool (epsilon x) m) eqn:E.
    + apply Qlt_bool_iff in E.
      destruct (IH (epsilon x)) as (H1 & H2 & H3). cbv zeta in *.
      split; [lra|]. split.
      * intros i [<-|Hi]; [exact H1 | exact (H2 i Hi)].
      * right. destruct H3 as [H3|(i & Hi & H3)].
        -- exists x. split; [now left | exact H3].
        -- exists i. split; [now right | exact H3].
    + apply Qlt_bool_false_iff in E.
      destruct (IH m) as (H1 & H2 & H3). cbv zeta in *.
      split; [exact H1|]. split.
      * intros i [<-|Hi]; [lra | exact (H2 i Hi)].
      * destruct H3 as [H3|(i & Hi & H3)]; [now left|].
        right. exists i. split; [now right | exact H3].
Qed.

Lemma quantum_le_epsilon itfs itf :
  In itf itfs -> (AccumulatedCost.minimum_action_quantum itfs <= epsilon itf)%Q.
Proof.
  destruct itfs as [|x l]; [intros []|].
  cbn [AccumulatedCost.minimum_action_quantum].
  destruct (min_fold_le l (epsilon x)) as (H1 & H2 & _). cbv zeta in *.
  intros [<-|Hi]; [exact H1 | exact (H2 itf Hi)].
Qed.

(** X7.  [minimum_action_quantum] is the least linear coefficient, which
    is the least cost of a first unit of load: it is 0 without interfaces,
    otherwise it is the coefficient of one of the interfaces and at most
    that of each; and the first unit of load on an interface costs its
    linear coefficient. *)
Theorem action_quantum_is_least_first_unit :
  forall itfs,
    (itfs = [] -> AccumulatedCost.minimum_action_quantum itfs = 0%Q)
    /\ (itfs <> [] ->
        exists itf, In itf itfs
                    /\ AccumulatedCost.minimum_action_quantum itfs = epsilon itf)
    /\ (forall itf, In itf itfs ->
                    (AccumulatedCost.minimum_action_quantum itfs <= epsilon itf)%Q
                    /\ (cost itf 1 - cost itf 0 == epsilon itf)%Q).
Proof.
  intros itfs. split; [intros ->; reflexivity|]. split.
  - destruct itfs as [|x l]; [congruence|]. intros _.
    cbn [AccumulatedCost.minimum_action_quantum].
    destruct (min_fold_le l (epsilon x)) as (_ & _ & [H|(i & Hi & H)]);
      cbv zeta in *.
    + exists x. split; [now left | exact H].
    + exists i. split; [now right | exact H].
  - intros itf Hin. split; [now apply quantum_le_epsilon|].
    rewrite (cost_formula itf 1) by lia. rewrite cost_zero.
    change (inject_Z 1) with 1%Q. ring.
Qed.

(** ** The bottleneck and the admissibility of a history *)

Lemma min_headroom_fold_select load itfs : forall best,
  fold_left
    (fun '(worst_h, bottleneck) itf =>
       let h := headroom itf (lv_get load (name itf)) in
       if match worst_h with None => true | Some w => Qlt_bool h w end
       then (Some h, name itf) else (worst_h, bottleneck))
    itfs
    (option_map (fun i => headroom i (lv_get load (name i))) best,
     match best with Some i => name i | None => EmptyString end)
  = let sel := fold_left (select_step (fun _ => true)
                                      (fun i => headroom i (lv_get load (name i))))
                         itfs best in
    (option_map (fun i => headroom i (lv_get load (name i))) sel,
     match sel with Some i => name i | None => EmptyString end).
Proof.
  induction itfs as [|x l IH]; intros best; [reflexivity|].
  cbn [fold_left]. rewrite <- IH. f_equal.
  unfold select_step. cbn [andb].
  destruct best as [b|]; cbn [option_map]; [|reflexivity].
  now destruct (Qlt_bool _ _).
Qed.

Lemma min_headroom_fold_slack load itfs : forall acc,
  above_slack (fst (fold_left
    (fun '(worst_h, bottleneck) itf =>
       let h := headroom itf (lv_get load (name itf)) in
       if match worst_h with None => true | Some w => Qlt_bool h w end
       then (Some h, name itf) else (worst_h, bottleneck))
    itfs acc))
  = above_slack (fst acc) && is_admissible load itfs.
Proof.
  induction itfs as [|x l IH]; intros [m b].
  - cbn. now rewrite andb_true_r.
  - cbn [fold_left]. rewrite IH. cbv zeta.
    unfold is_admissible. cbn [forallb]. rewrite andb_assoc. f_equal.
    rewrite <- above_slack_step. cbn [fst].
    destruct m as [w|]; [destruct (Qlt_bool _ w)|]; reflexivity.
Qed.

Lemma min_headroom_slack load itfs :
  above_slack (fst (min_headroom load itfs)) = is_admissible load itfs.
Proof. unfold min_headroom. now rewrite min_headroom_fold_slack. Qed.

(** X8.  [min_headroom] (the loop of [_make_step]) reports nothing on an
    empty interface list; otherwise it reports the least headroom and the
    name of the first interface that attains it; and the reported minimum
    is above the slack exactly when the load is admissible. *)
Theorem min_headroom_first_bottleneck :
  forall load itfs,
    match min_headroom load itfs with
    | (None, bn) => itfs = [] /\ bn = EmptyString
    | (Some h, bn) =>
        exists l1 itf l2,
          itfs = l1 ++ itf :: l2
          /\ h = headroom itf (lv_get load (name itf))
          /\ bn = name itf
          /\ (forall i, In i l1 -> (h < headroom i (lv_get load (name i)))%Q)
          /\ (forall i, In i l2 -> (h <= headroom i (lv_get load (name i)))%Q)
    end
    /\ above_slack (fst (min_headroom load itfs)) = is_admissible load itfs.
Proof.
  intros load itfs. split; [|apply min_headroom_slack].
  unfold min_headroom.
  pose proof (min_headroom_fold_select load itfs None) as E.
  cbn [option_map] in E. rewrite E. clear E. cbv zeta.
  pose proof (select_spec (fun _ : Interface => true)
                          (fun i => headroom i (lv_get load (name i))) itfs) as S.
  destruct (fold_left (select_step _ _) itfs None) as [p|]; cbn [option_map].
  - destruct S as (_ & l1 & l2 & El & H1 & H2).
    exists l1, p, l2. repeat split; auto.
  - split; [|reflexivity]. destruct itfs as [|x l]; [reflexivity|].
    specialize (S x (or_introl eq_refl)). discriminate.
Qed.

Lemma ac_append_steps h ld :
  exists s,
    AccumulatedCost.steps (AccumulatedCost.append h ld)
    = AccumulatedCost.steps h ++ [s]
    /\ AccumulatedCost.load s = ld
    /\ AccumulatedCost.step_admissible s
       = is_admissible ld (AccumulatedCost.h_interfaces h)
    /\ AccumulatedCost.step_min_headroom s
       = fst (min_headroom ld (AccumulatedCost.h_interfaces h))
    /\ AccumulatedCost.step_bottleneck s
       = snd (min_headroom ld (AccumulatedCost.h_interfaces h)).
Proof.
  pose proof (min_headroom_slack ld (AccumulatedCost.h_interfaces h)) as Hs.
  unfold AccumulatedCost.append, AccumulatedCost._make_step.
  destruct (last_error (AccumulatedCost.steps h));
    destruct (min_headroom ld (AccumulatedCost.h_interfaces h)) as [m b];
    cbn [fst snd] in *; eexists; (split; [reflexivity|]); cbn; auto.
Qed.

(** X9.  In a history grown by [append] every step records whether its
    own load is admissible, so [History.is_admissible] holds exactly when
    every appended load passes [is_transition_admissible]; the history
    keeps its interfaces and holds the appended loads in order. *)
Theorem history_admissible_iff_every_load :
  forall itfs lds,
    let h := AccumulatedCost.appended itfs lds in
    AccumulatedCost.h_interfaces h = itfs
    /\ map AccumulatedCost.load (AccumulatedCost.steps h) = lds
    /\ map AccumulatedCost.step_admissible (AccumulatedCost.steps h)
       = map (fun ld => is_admissible ld itfs) lds
    /\ AccumulatedCost.history_is_admissible h
       = forallb (fun ld =>
                    AccumulatedCost.is_transition_admissible LoadVector_empty ld itfs)
                 lds
    /\ AccumulatedCost.initial_load h = hd_error lds
    /\ AccumulatedCost.final_load h = last_error lds.
Proof.
  intros itfs lds. cbv zeta.
  split; [apply ac_appended_interfaces|].
  split; [apply ac_appended_loads|].
  assert (Hadm : map AccumulatedCost.step_admissible
                     (AccumulatedCost.steps (AccumulatedCost.appended itfs lds))
                 = map (fun ld => is_admissible ld itfs) lds).
  { induction lds as [|ld lds IH] using rev_ind; [reflexivity|].
    rewrite ac_appended_snoc.
    destruct (ac_append_steps (AccumulatedCost.appended itfs lds) ld)
      as (s & Es & _ & Ea & _).
    rewrite Es, !map_app, IH. cbn [map].
    now rewrite Ea, ac_appended_interfaces. }
  split; [exact Hadm|].
  pose proof (ac_appended_loads itfs lds) as Hl.
  split; [|split].
  - unfold AccumulatedCost.history_is_admissible.
    transitivity (forallb (fun b : bool => b)
                    (map AccumulatedCost.step_admissible
                         (AccumulatedCost.steps (AccumulatedCost.appended itfs lds)))).
    + generalize (AccumulatedCost.steps (AccumulatedCost.appended itfs lds)).
      intros l. induction l as [|x l IH]; [reflexivity|].
      cbn [map forallb]. now rewrite IH.
    + rewrite Hadm. clear. induction lds as [|x l IH]; [reflexivity|].
      cbn [map forallb]. now rewrite IH.
  - unfold AccumulatedCost.initial_load.
    destruct (AccumulatedCost.steps _) as [|s r]; destruct lds; try discriminate;
      [reflexivity|]. cbn [map] in Hl. injection Hl as -> _. reflexivity.
  - unfold AccumulatedCost.final_load.
    destruct (last_error (AccumulatedCost.steps _)) as [s|] eqn:E.
    + apply last_error_Some in E. destruct E as [l' E]. rewrite E in Hl.
      rewrite map_app in Hl. cbn [map] in Hl. rewrite <- Hl.
      now rewrite last_error_snoc.
    + apply last_error_None in E. rewrite E in Hl. now rewrite <- Hl.
Qed.

(** ** The candidates of the routing functions *)

Lemma find_paths_simple network s t max_paths max_length :
  0 <= max_length ->
  Forall (simple_path network s t max_length)
         (find_paths network s t max_paths max_length).
Proof.
  intros Hml. unfold find_paths.
  destruct (String.eqb s t) eqn:E.
  - apply String.eqb_eq in E. subst t. constructor; [|constructor].
    unfold simple_path, path_length. cbn.
    repeat split; auto. constructor; [intros []|constructor].
  - destruct (sort_by_length_spec
                (dfs_discovery network s t max_paths max_length)) as (_ & _ & Hp).
    eapply Permutation_Forall; [apply Permutation_sym; exact Hp|].
    unfold dfs_discovery. apply dfs_paths_ok; [|constructor].
    repeat split; cbn; auto.
    constructor; [intros []|constructor].
Qed.

Lemma find_paths_count network s t max_paths max_length :
  Z.of_nat (length (find_paths network s t max_paths max_length))
  <= Z.max 1 max_paths.
Proof.
  unfold find_paths. destruct (String.eqb s t).
  - cbn [length]. lia.
  - destruct (sort_by_length_spec
                (dfs_discovery network s t max_paths max_length)) as (_ & _ & Hp).
    rewrite (Permutation_length Hp). unfold dfs_discovery.
    pose proof (dfs_count network t max_paths max_length
                  (Z.to_nat (max_length + 1)) s [s] [s] [] []) as H.
    cbn [length] in H. lia.
Qed.

Lemma find_paths_sorted network s t max_paths max_length :
  sorted_by_length (find_paths network s t max_paths max_length).
Proof.
  unfold find_paths. destruct (String.eqb s t).
  - constructor; constructor.
  - apply sort_by_length_spec.
Qed.

Lemma firstn_sorted n : forall l,
  sorted_by_length l -> sorted_by_length (firstn n l).
Proof.
  unfold sorted_by_length.
  induction n as [|n IH]; intros l Hl; [constructor|].
  destruct l as [|p l]; [constructor|].
  cbn [firstn]. inversion Hl as [|? ? Hs Hf]; subst.
  constructor; [now apply IH|].
  rewrite Forall_forall in *. intros q Hq. apply Hf.
  rewrite <- (firstn_skipn n l). apply in_or_app. now left.
Qed.

Lemma py_slice_to_prefix {A} (l : list A) k :
  exists n, py_slice_to l k = firstn n l
            /\ (Z.of_nat (length l) <= 1 -> Z.of_nat n <= Z.max 0 k)
            /\ (0 <= k -> Z.of_nat n <= k).
Proof.
  unfold py_slice_to. destruct (k <? 0) eqn:E.
  - apply Z.ltb_lt in E. eexists. split; [reflexivity|]. split; lia.
  - apply Z.ltb_ge in E. eexists. split; [reflexivity|]. split; lia.
Qed.

(** X10.  [find_k_shortest_paths] returns at most [k] paths (none for
    [k <= 0]), for every pair of nodes; they are the first paths of the
    search with [max_paths = 3k] and [max_length = 15], each a simple path
    of the network between the two nodes, in order of edge count. *)
Theorem k_shortest_paths_bounded :
  forall network s t k,
    let found := find_k_shortest_paths network s t k in
    Forall (simple_path network s t 15) found
    /\ Z.of_nat (length found) <= Z.max 0 k
    /\ sorted_by_length found
    /\ exists rest, find_paths network s t (k * 3) 15 = found ++ rest.
Proof.
  intros network s t k. cbv zeta. unfold find_k_shortest_paths.
  set (all := find_paths network s t (k * 3) 15).
  pose proof (find_paths_simple network s t (k * 3) 15 ltac:(lia)) as Hs.
  pose proof (find_paths_count network s t (k * 3) 15) as Hc.
  pose proof (find_paths_sorted network s t (k * 3) 15) as Ho.
  fold all in Hs, Hc, Ho.
  destruct (py_slice_to_prefix all k) as (n & -> & Hneg & Hpos).
  split; [|split; [|split]].
  - rewrite Forall_forall in *. intros p Hp. apply Hs.
    rewrite <- (firstn_skipn n all). apply in_or_app. now left.
  - pose proof (firstn_le_length n all) as H1.
    pose proof (length_firstn n all) as H2.
    destruct (Z_lt_ge_dec k 0) as [L|L]; lia.
  - now apply firstn_sorted.
  - exists (skipn n all). now rewrite firstn_skipn.
Qed.

Lemma first_cheapest_In {A} (adm : A -> bool) (c : A -> Q) paths p :
  first_cheapest adm c paths p -> In p paths.
Proof.
  intros (_ & l1 & l2 & -> & _). apply in_or_app. right. now left.
Qed.

(** X11.  Whatever the admission functions route, they route along a
    simple path of the network between the two end points: of at most 6
    edges in lambda_floor.py, 8 in V4 and 15 in routing_engine_v1.py. *)
Theorem routed_path_is_simple :
  forall network ob existing existing_load max_paths k,
    match LambdaFloor.route_obligation network ob existing max_paths with
    | Some r => simple_path network (source ob) (target ob) 6 (path r)
    | None => True
    end
    /\ match UnifiedV4.route_obligation network ob existing max_paths with
       | Some r => simple_path network (source ob) (target ob) 8 (path r)
       | None => True
       end
    /\ match RoutingEngine.best_routing network (source ob) (target ob)
                                        existing_load k with
       | Some r =>
           simple_path network (source ob) (target ob) 15 (RoutingEngine.r_path r)
       | None => True
       end.
Proof.
  intros network ob existing existing_load max_paths k. split; [|split].
  - pose proof (route_obligation_spec LambdaFloor.total_cost
                  LambdaFloor.candidate_paths network ob existing max_paths) as S.
    cbv zeta in S. unfold LambdaFloor.route_obligation.
    destruct (route_obligation _ _ network ob existing max_paths) as [r|]; auto.
    destruct S as [_ Hfc]. apply first_cheapest_In in Hfc.
    unfold LambdaFloor.candidate_paths, find_all_paths in Hfc.
    pose proof (find_paths_simple network (source ob) (target ob) max_paths 6
                                  ltac:(lia)) as Hs.
    rewrite Forall_forall in Hs. now apply Hs.
  - pose proof (route_obligation_spec UnifiedV4.total_cost
                  UnifiedV4.candidate_paths network ob existing max_paths) as S.
    cbv zeta in S. unfold UnifiedV4.route_obligation.
    destruct (route_obligation _ _ network ob existing max_paths) as [r|]; auto.
    destruct S as [_ Hfc]. apply first_cheapest_In in Hfc.
    unfold UnifiedV4.candidate_paths, UnifiedV4.find_all_paths in Hfc.
    cbn [UnifiedV4.py_or] in Hfc.
    change (if UnifiedV4.MAX_PATH_LENGTH =? 0 then _ else _) with 8 in Hfc.
    pose proof (find_paths_simple network (source ob) (target ob)
                  (UnifiedV4.py_or (Some max_paths) UnifiedV4.MAX_PATHS) 8
                  ltac:(lia)) as Hs.
    rewrite Forall_forall in Hs. now apply Hs.
  - pose proof (best_routing_spec network (source ob) (target ob)
                                  existing_load k) as S.
    cbv zeta in S.
    destruct (RoutingEngine.best_routing _ _ _ _ k) as [r|]; auto.
    destruct S as [_ Hfc]. apply first_cheapest_In in Hfc.
    unfold find_k_shortest_paths in Hfc.
    destruct (py_slice_to_prefix
                (find_paths network (source ob) (target ob) (k * 3) 15) k)
      as (n & E & _).
    rewrite E in Hfc.
    pose proof (find_paths_simple network (source ob) (target ob) (k * 3) 15
                                  ltac:(lia)) as Hs.
    rewrite Forall_forall in Hs. apply Hs.
    rewrite <- (firstn_skipn n (find_paths _ _ _ _ _)). apply in_or_app. now left.
Qed.

(** ** Greedy routing of a list of obligations *)

Lemma lf_route_obligation_facts network ob existing max_paths r :
  LambdaFloor.route_obligation network ob existing max_paths = Some r ->
  obligation r = ob
  /\ admissible_load (hypothetical_load existing (path r) (demand ob))
                     (interfaces network)
  /\ simple_path network (source ob) (target ob) 6 (path r).
Proof.
  intros H.
  pose proof (route_obligation_spec LambdaFloor.total_cost
                LambdaFloor.candidate_paths network ob existing max_paths) as S.
  cbv zeta in S. unfold LambdaFloor.route_obligation in H. rewrite H in S.
  destruct S as [Hob Hfc]. split; [exact Hob|]. split.
  - apply is_admissible_iff. exact (proj1 Hfc).
  - apply first_cheapest_In in Hfc.
    unfold LambdaFloor.candidate_paths, find_all_paths in Hfc.
    pose proof (find_paths_simple network (source ob) (target ob) max_paths 6
                                  ltac:(lia)) as Hs.
    rewrite Forall_forall in Hs. now apply Hs.
Qed.

Lemma hypothetical_load_get existing p d nm :
  lv_get (hypothetical_load existing p d) nm
  = lv_get existing nm + contribution_weight (load_contribution p) nm * d.
Proof.
  unfold lv_get, hypothetical_load. cbn [loads]. apply add_contribution_get.
Qed.

Lemma route_all_loop_spec network obligations : forall routed load,
  match LambdaFloor.route_all_loop network obligations routed load with
  | Some (routed', load') =>
      exists new,
        routed' = routed ++ new
        /\ map obligation new = obligations
        /\ (forall nm, lv_get load' nm = lv_get load nm + routed_load new nm)
        /\ (obligations <> [] -> admissible_load load' (interfaces network))
        /\ Forall (fun r => simple_path network (source (obligation r))
                                        (target (obligation r)) 6 (path r)) new
  | None =>
      exists done ob rest routed' load',
        obligations = done ++ ob :: rest
        /\ LambdaFloor.route_all_loop network done routed load
           = Some (routed', load')
        /\ LambdaFloor.route_obligation network ob load' 10 = None
  end.
Proof.
  induction obligations as [|ob rest IH]; intros routed load;
    cbn [LambdaFloor.route_all_loop].
  - exists []. rewrite app_nil_r. split; [reflexivity|]. split; [reflexivity|].
    split; [intros nm; cbn [routed_load]; lia|]. split; [congruence | constructor].
  - destruct (LambdaFloor.route_obligation network ob load 10) as [result|] eqn:E.
    + destruct (lf_route_obligation_facts _ _ _ _ _ E) as (Hob & Hadm & Hsimple).
      fold (hypothetical_load load (path result) (demand ob)).
      specialize (IH (routed ++ [result])
                     (hypothetical_load load (path result) (demand ob))).
      destruct (LambdaFloor.route_all_loop network rest (routed ++ [result]) _)
        as [[routed' load']|] eqn:El.
      * destruct IH as (new & Hr & Hm & Hl & Ha & Hs).
        exists (result :: new). split; [now rewrite Hr, <- app_assoc|].
        split; [cbn [map]; now rewrite Hob, Hm|]. split; [|split].
        -- intros nm. rewrite Hl, hypothetical_load_get. cbn [routed_load].
           rewrite Hob. lia.
        -- intros _. destruct rest as [|ob' rest'].
           ++ cbn [LambdaFloor.route_all_loop] in El.
              injection El as _ <-. exact Hadm.
           ++ apply Ha. discriminate.
        -- constructor; [now rewrite Hob | exact Hs].
      * destruct IH as (done & ob' & rest' & r' & l' & Ho & Hd & Hn).
        exists (ob :: done), ob', rest', r', l'.
        split; [now rewrite Ho|]. split; [|exact Hn].
        cbn [LambdaFloor.route_all_loop]. rewrite E.
        fold (hypothetical_load load (path result) (demand ob)). exact Hd.
    + exists [], ob, rest, routed, load. repeat split; auto.
Qed.

(** X12.  [route_all_obligations] routes the obligations in order, each on
    top of the load left by the ones before it.  When it succeeds the
    routes carry exactly the given obligations, every path is a simple
    path between its obligation's end points, the final load is the
    initial load plus the load of the routes and, if anything was routed,
    it is admissible.  It fails exactly at the first obligation that has no
    admissible route on top of its predecessors. *)
Theorem greedy_routing_accumulates_load :
  forall network obligations initial_load,
    let start := match initial_load with
                 | Some l => l
                 | None => LoadVector_empty
                 end in
    match LambdaFloor.route_all_obligations network obligations initial_load with
    | Some (routed, load) =>
        map obligation routed = obligations
        /\ (forall nm, lv_get load nm = lv_get start nm + routed_load routed nm)
        /\ (obligations <> [] -> admissible_load load (interfaces network))
        /\ Forall (fun r => simple_path network (source (obligation r))
                                        (target (obligation r)) 6 (path r)) routed
    | None =>
        exists done ob rest routed load,
          obligations = done ++ ob :: rest
          /\ LambdaFloor.route_all_obligations network done initial_load
             = Some (routed, load)
          /\ LambdaFloor.route_obligation network ob load 10 = None
    end.
Proof.
  intros network obligations initial_load start.
  unfold LambdaFloor.route_all_obligations.
  set (load0 := match initial_load with
                | Some l => lv_copy l
                | None => LoadVector_empty
                end).
  assert (H0 : forall nm, lv_get load0 nm = lv_get start nm).
  { intros nm. unfold load0, start. now destruct initial_load. }
  pose proof (route_all_loop_spec network obligations [] load0) as S.
  destruct (LambdaFloor.route_all_loop network obligations [] load0)
    as [[routed load]|].
  - destruct S as (new & Hr & Hm & Hl & Ha & Hs). cbn [app] in Hr. subst new.
    repeat split; auto. intros nm. now rewrite Hl, H0.
  - exact S.
Qed.

(** ** Arithmetic of load vectors *)

Lemma lv_add_get A B nm :
  lv_get (lv_add A B) nm = lv_get A nm + contribution_weight (loads B) nm.
Proof.
  unfold lv_get, lv_add. cbn [loads].
  generalize (loads A) as base. induction (loads B) as [|[k c] r IH];
    intros base; cbn [fold_left contribution_weight].
  - lia.
  - rewrite IH, lv_get_set.
    destruct (String.eqb k nm) eqn:E.
    + apply String.eqb_eq in E. subst. lia.
    + lia.
Qed.

Lemma lv_sub_get A B nm :
  lv_get (lv_sub A B) nm = lv_get A nm - contribution_weight (loads B) nm.
Proof.
  unfold lv_get, lv_sub. cbn [loads].
  generalize (loads A) as base. induction (loads B) as [|[k c] r IH];
    intros base; cbn [fold_left contribution_weight].
  - lia.
  - rewrite IH, lv_get_set.
    destruct (String.eqb k nm) eqn:E.
    + apply String.eqb_eq in E. subst. lia.
    + lia.
Qed.

Lemma get_notin (d : PyDict.dict Z) k :
  ~ In k (PyDict.keys d) -> PyDict.get d k = None.
Proof.
  induction d as [|[k' x] r IH]; intros H; cbn [PyDict.get]; [reflexivity|].
  destruct (String.eqb k' k) eqn:E.
  - apply String.eqb_eq in E. subst. exfalso. apply H. now left.
  - apply IH. intros Hin. apply H. now right.
Qed.

Lemma contribution_weight_unique d nm :
  NoDup (PyDict.keys d) ->
  contribution_weight d nm = PyDict.get_default d nm 0.
Proof.
  induction d as [|[k c] r IH]; intros H; [reflexivity|].
  cbn [PyDict.keys map fst] in H. inversion H as [|? ? Hnot Hr]; subst.
  cbn [contribution_weight]. unfold PyDict.get_default. cbn [PyDict.get].
  destruct (String.eqb k nm) eqn:E.
  - apply String.eqb_eq in E. subst.
    rewrite (IH Hr). unfold PyDict.get_default.
    rewrite (get_notin r nm Hnot). lia.
  - rewrite (IH Hr). reflexivity.
Qed.

(** X13.  Adding a load vector and subtracting it again, in either order,
    gives back the first vector by content, and a copy equals its
    original; when the keys of each dictionary are distinct, a sum reads
    at every interface as the sum of the two loads, a difference as their
    difference, and addition commutes by content. *)
Theorem load_vector_add_sub_round_trip :
  forall A B,
    lv_eq (lv_sub (lv_add A B) B) A = true
    /\ lv_eq (lv_add (lv_sub A B) B) A = true
    /\ lv_eq (lv_copy A) A = true
    /\ lv_eq (lv_add A LoadVector_empty) A = true
    /\ (NoDup (PyDict.keys (loads B)) ->
        forall nm,
          lv_get (lv_add A B) nm = lv_get A nm + lv_get B nm
          /\ lv_get (lv_sub A B) nm = lv_get A nm - lv_get B nm)
    /\ (NoDup (PyDict.keys (loads A)) -> NoDup (PyDict.keys (loads B)) ->
        lv_eq (lv_add A B) (lv_add B A) = true).
Proof.
  intros A B.
  split; [apply lv_eq_pointwise; intros k; rewrite lv_sub_get, lv_add_get; lia|].
  split; [apply lv_eq_pointwise; intros k; rewrite lv_add_get, lv_sub_get; lia|].
  split; [apply lv_eq_pointwise; reflexivity|].
  split; [apply lv_eq_pointwise; intros k; rewrite lv_add_get; cbn; lia|].
  split.
  - intros HB nm. rewrite lv_add_get, lv_sub_get.
    rewrite (contribution_weight_unique _ nm HB). unfold lv_get. lia.
  - intros HA HB. apply lv_eq_pointwise. intros k. rewrite !lv_add_get.
    rewrite (contribution_weight_unique _ k HA),
            (contribution_weight_unique _ k HB).
    unfold lv_get. lia.
Qed.

(** ** The reports of the floor estimator *)

Section RelaxAdmissible.
Variable total_cost : LoadVector -> list Interface -> Q.
Variable candidate_paths : Network -> string -> string -> Z -> list Path.
Variable network : Network.

Lemma relax_steps_admissible l : forall st,
  admissible_load (current_load st) (interfaces network) ->
  admissible_load
    (current_load (fold_left (relax_step total_cost candidate_paths network) l st))
    (interfaces network).
Proof.
  induction l as [|i l IH]; intros st H; cbn [fold_left]; auto.
  apply IH.
  destruct (relax_step_cases total_cost candidate_paths network st i)
    as [E|(r & r' & _ & _ & _ & _ & Hadm & _)].
  - now rewrite E.
  - exact Hadm.
Qed.

Lemma relax_iterate_admissible n : forall st,
  admissible_load (current_load st) (interfaces network) ->
  admissible_load
    (current_load (relax_iterate total_cost candidate_paths network n st))
    (interfaces network).
Proof.
  induction n as [|n IH]; intros st H; cbn [relax_iterate]; auto.
  assert (Hp : admissible_load
                 (current_load (relax_pass total_cost candidate_paths network st))
                 (interfaces network)).
  { unfold relax_pass. now apply relax_steps_admissible. }
  destruct (improved _); auto.
Qed.

Lemma relax_run_admissible routed iterations :
  admissible_load (compute_load_from_routed routed) (interfaces network) ->
  admissible_load
    (current_load (relax_run total_cost candidate_paths network routed iterations))
    (interfaces network).
Proof. intros H. unfold relax_run. now apply relax_iterate_admissible. Qed.
End RelaxAdmissible.

Lemma admissible_load_ext A B itfs :
  (forall nm, lv_get A nm = lv_get B nm) ->
  admissible_load A itfs -> admissible_load B itfs.
Proof. intros E H itf Hin. rewrite <- E. now apply H. Qed.

Lemma routed_load_app l1 l2 nm :
  routed_load (l1 ++ l2) nm = routed_load l1 nm + routed_load l2 nm.
Proof.
  induction l1 as [|r l IH]; cbn [app routed_load]; [lia|]. rewrite IH. lia.
Qed.

Lemma admitted_load_admissible network ob active routed :
  LambdaFloor.route_obligation network ob (compute_load_from_routed active) 10
  = Some routed ->
  admissible_load (compute_load_from_routed (active ++ [routed]))
                  (interfaces network).
Proof.
  intros H. destruct (lf_route_obligation_facts _ _ _ _ _ H) as (Hob & Hadm & _).
  eapply admissible_load_ext; [|exact Hadm].
  intros nm. rewrite hypothetical_load_get, !compute_load_get, routed_load_app.
  cbn [routed_load]. rewrite Hob. lia.
Qed.

Lemma StronglySorted_snoc {A} (R : A -> A -> Prop) l x :
  StronglySorted R l -> Forall (fun y => R y x) l -> StronglySorted R (l ++ [x]).
Proof.
  induction 1 as [|a l Hs IH Hf]; intros Hx; cbn [app].
  - constructor; constructor.
  - inversion Hx; subst. constructor; [now apply IH|].
    apply Forall_app. split; [exact Hf | now constructor].
Qed.

Lemma admit_routed_reports network K len t st ob routed :
  LambdaFloor.route_obligation
    network ob (compute_load_from_routed (LambdaFloor.active_routed st)) 10
  = Some routed ->
  let st' := LambdaFloor.admit_routed network K len t st routed in
  (LambdaFloor.fs_action st <= LambdaFloor.fs_action st')%Q
  /\ (LambdaFloor.history st' = LambdaFloor.history st
      \/ exists report,
          LambdaFloor.history st' = LambdaFloor.history st ++ [report]
          /\ LambdaFloor.action report = LambdaFloor.fs_action st'
          /\ ((0 <= LambdaFloor.fs_action st)%Q -> sound_report network report)).
Proof.
  intros Hr. cbv zeta. unfold LambdaFloor.admit_routed.
  pose proof (admitted_load_admissible _ _ _ _ Hr) as Hadm.
  set (active := LambdaFloor.active_routed st ++ [routed]) in *.
  set (new_load := compute_load_from_routed active) in *.
  pose proof (transition_cost_nonneg (LambdaFloor.prev_load st) new_load
                                     (interfaces network)) as Ht.
  destruct (LambdaFloor.relax_due K t len).
  - unfold LambdaFloor.relaxation_report, LambdaFloor.relax_routing.
    pose proof (relax_run_cost LambdaFloor.total_cost LambdaFloor.candidate_paths
                  network active 3) as Hc.
    pose proof (relax_run_admissible LambdaFloor.total_cost
                  LambdaFloor.candidate_paths network active 3 Hadm) as Hres.
    cbv zeta in Hc. fold new_load in Hc.
    set (residual := current_load (relax_run _ _ network active 3)) in *.
    destruct (LambdaFloor.residual_fraction residual (interfaces network))
      as [sigma bn] eqn:Ef.
    cbn [LambdaFloor.fs_action LambdaFloor.history].
    split; [lra|]. right. eexists. split; [reflexivity|].
    split; [reflexivity|]. intros H0.
    unfold sound_report.
    cbn [LambdaFloor.raw_cost LambdaFloor.raw_load LambdaFloor.lambda_E
         LambdaFloor.residual_load LambdaFloor.relaxation_savings
         LambdaFloor.lambda_sigma LambdaFloor.bottleneck LambdaFloor.action].
    split; [reflexivity|]. split; [reflexivity|]. split; [reflexivity|].
    split; [lra|]. split; [now rewrite Ef|]. split; [exact Hadm|].
    split; [exact Hres | lra].
  - cbn [LambdaFloor.fs_action LambdaFloor.history]. split; [lra | now left].
Qed.

Lemma floor_loop_reports network K len stream : forall t st,
  Forall (sound_report network) (LambdaFloor.history st) ->
  StronglySorted Qle (map LambdaFloor.action (LambdaFloor.history st)) ->
  Forall (fun s => (LambdaFloor.action s <= LambdaFloor.fs_action st)%Q)
         (LambdaFloor.history st) ->
  (0 <= LambdaFloor.fs_action st)%Q ->
  match LambdaFloor.floor_loop network K len t stream st with
  | Returned reports =>
      Forall (sound_report network) reports
      /\ StronglySorted Qle (map LambdaFloor.action reports)
  | Raised _ => K = 0
  end.
Proof.
  induction stream as [|ob rest IH]; intros t st Hok Hsort Hle H0;
    cbn [LambdaFloor.floor_loop]; [now split|].
  destruct (LambdaFloor.route_obligation network ob _ 10) as [routed|] eqn:Hr;
    [|now split].
  destruct (K =? 0) eqn:EK; [now apply Z.eqb_eq in EK|].
  destruct (admit_routed_reports network K len t st ob routed Hr) as [Hact Hh].
  cbv zeta in Hact, Hh.
  apply IH.
  - destruct Hh as [->|(report & -> & _ & Hrep)]; [exact Hok|].
    apply Forall_app. split; [exact Hok|]. constructor; [now apply Hrep|constructor].
  - destruct Hh as [->|(report & -> & Ha & _)]; [exact Hsort|].
    rewrite map_app. cbn [map]. apply StronglySorted_snoc; [exact Hsort|].
    rewrite Forall_map. rewrite Forall_forall in *. intros s Hs.
    specialize (Hle s Hs). rewrite Ha. lra.
  - destruct Hh as [->|(report & -> & Ha & _)].
    + rewrite Forall_forall in *. intros s Hs. specialize (Hle s Hs). lra.
    + apply Forall_app. split.
      * rewrite Forall_forall in *. intros s Hs. specialize (Hle s Hs). lra.
      * constructor; [rewrite Ha; lra | constructor].
  - lra.
Qed.

(** X14.  Every report that the floor estimator of lambda_floor.py
    returns is sound: its raw and residual costs are the costs of its two
    loads, both loads are admissible, the residual cost is at most the raw
    cost (the recorded savings are their non-negative difference), and
    the recorded actions never decrease from one report to the next.  A
    ZeroDivisionError comes only from a zero relaxation interval. *)
Theorem floor_reports_are_sound :
  forall network stream K,
    match LambdaFloor.estimate_lambda_floor network stream K with
    | Returned reports =>
        Forall (sound_report network) reports
        /\ Forall (fun s => (LambdaFloor.lambda_E s <= LambdaFloor.raw_cost s)%Q)
                  reports
        /\ StronglySorted Qle (map LambdaFloor.action reports)
    | Raised e => e = ZeroDivisionError -> K = 0
    end.
Proof.
  intros network stream K. unfold LambdaFloor.estimate_lambda_floor.
  assert (H0 : (0 <= LambdaFloor.fs_action LambdaFloor.floor_start)%Q)
    by (cbn; lra).
  pose proof (floor_loop_reports network K (Z.of_nat (length stream)) stream 0
                LambdaFloor.floor_start (Forall_nil _) (SSorted_nil _)
                (Forall_nil _) H0) as H.
  destruct (LambdaFloor.floor_loop _ _ _ 0 stream LambdaFloor.floor_start)
    as [reports|e]; [|intros _; exact H].
  destruct H as [Hs Ho]. split; [exact Hs|]. split; [|exact Ho].
  rewrite Forall_forall in *. intros s Hin.
  destruct (Hs s Hin) as (_ & _ & E & Hn & _). rewrite E in Hn. lra.
Qed.

(** ** The load of a path *)

Lemma load_contribution_fold es nm : forall base,
  NoDup (PyDict.keys base) ->
  let d := fold_left
             (fun ld e =>
                let k := name (interface e) in
                PyDict.set ld k (PyDict.get_default ld k 0 + 1))
             es base in
  NoDup (PyDict.keys d)
  /\ PyDict.get_default d nm 0
     = PyDict.get_default base nm 0
       + Z.of_nat (length (filter (fun e => String.eqb (name (interface e)) nm) es)).
Proof.
  induction es as [|e r IH]; intros base Hb; cbv zeta; cbn [fold_left filter].
  - split; [exact Hb | cbn [length]; lia].
  - destruct (IH (PyDict.set base (name (interface e))
                             (PyDict.get_default base (name (interface e)) 0 + 1))
                 (NoDup_keys_set _ _ _ Hb)) as [H1 H2].
    cbv zeta in H1, H2. split; [exact H1|].
    rewrite H2, lv_get_set.
    destruct (String.eqb (name (interface e)) nm) eqn:E.
    + apply String.eqb_eq in E. rewrite E. cbn [length]. lia.
    + lia.
Qed.

(** X15.  [Path.load_contribution] (and [LoadVector.from_edges]) counts
    the edges of the path per interface name, each name once; so routing
    an obligation along a path adds its demand once per traversed edge,
    and [analyze_routing] adds one unit per traversed edge. *)
Theorem path_load_counts_edges :
  forall p nm existing d,
    let hops := Z.of_nat (length (filter (fun e => String.eqb (name (interface e)) nm)
                                         (p_edges p))) in
    NoDup (PyDict.keys (load_contribution p))
    /\ lv_get (load_vector p) nm = hops
    /\ lv_get (hypothetical_load existing p d) nm = lv_get existing nm + hops * d
    /\ lv_get (total_load (Some existing) p) nm = lv_get existing nm + hops
    /\ lv_get (total_load None p) nm = hops.
Proof.
  intros p nm existing d hops.
  destruct (load_contribution_fold (p_edges p) nm [] (NoDup_nil _)) as [Hnd Hget].
  cbv zeta in Hnd, Hget. fold (load_contribution p) in Hnd, Hget.
  change (PyDict.get_default [] nm 0) with 0 in Hget.
  assert (Hlv : lv_get (load_vector p) nm = hops) by (unfold lv_get; cbn [load_vector loads]; lia).
  split; [exact Hnd|]. split; [exact Hlv|]. split; [|split].
  - rewrite hypothetical_load_get.
    rewrite (contribution_weight_unique _ nm Hnd). fold hops in Hget. lia.
  - cbn [total_load]. rewrite lv_add_get. cbn [load_vector loads].
    rewrite (contribution_weight_unique _ nm Hnd). fold hops in Hget. lia.
  - exact Hlv.
Qed.

(** ** The two implementations of the total cost *)

(** ** The residual fraction *)

Lemma residual_fraction_snoc load l x :
  LambdaFloor.residual_fraction load (l ++ [x])
  = let '(worst, bn) := LambdaFloor.residual_fraction load l in
    if Qlt_bool worst (spent_fraction load x)
    then (spent_fraction load x, name x) else (worst, bn).
Proof.
  unfold LambdaFloor.residual_fraction. rewrite fold_left_app. cbn [fold_left].
  destruct (fold_left _ l (0%Q, EmptyString)) as [w b]. reflexivity.
Qed.

Lemma spent_fraction_below_one load itf :
  (0 <= epsilon itf)%Q -> (0 <= eta itf)%Q ->
  (EPS_SLACK < headroom itf (lv_get load (name itf)))%Q ->
  (0 <= spent_fraction load itf)%Q /\ (spent_fraction load itf < 1)%Q.
Proof.
  intros He Hh Hs. unfold headroom, EPS_SLACK in Hs.
  pose proof (cost_nonneg itf (lv_get load (name itf)) He Hh) as Hc.
  assert (He6 : (0 < 1 # 1000000)%Q) by reflexivity.
  assert (Hcap : (0 < capacity itf)%Q) by lra.
  unfold spent_fraction.
  destruct (Qlt_bool 0 (capacity itf)) eqn:E.
  - split.
    + apply Qle_shift_div_l; [exact Hcap | lra].
    + apply Qlt_shift_div_r; [exact Hcap | lra].
  - apply Qlt_bool_false_iff in E. lra.
Qed.

(** X17.  [residual_fraction] returns the largest spent fraction of the
    interfaces, never below 0: it is [(0, '')] when no fraction is
    positive, otherwise the fraction and the name of the first interface
    that attains the maximum.  On an admissible load with non-negative
    coefficients the result is below 1. *)
Theorem residual_fraction_is_worst_share :
  forall load itfs,
    let '(w, bn) := LambdaFloor.residual_fraction load itfs in
    (0 <= w)%Q
    /\ (forall itf, In itf itfs -> (spent_fraction load itf <= w)%Q)
    /\ ((w = 0%Q /\ bn = EmptyString)
        \/ exists l1 itf l2,
            itfs = l1 ++ itf :: l2
            /\ w = spent_fraction load itf /\ bn = name itf /\ (0 < w)%Q
            /\ (forall i, In i l1 -> (spent_fraction load i < w)%Q))
    /\ ((forall itf, In itf itfs -> (0 <= epsilon itf)%Q /\ (0 <= eta itf)%Q) ->
        admissible_load load itfs -> (w < 1)%Q).
Proof.
  intros load itfs. induction itfs as [|x l IH] using rev_ind.
  - cbn. split; [lra|]. split; [intros itf []|]. split; [now left|].
    intros _ _. lra.
  - rewrite residual_fraction_snoc.
    destruct (LambdaFloor.residual_fraction load l) as [w b].
    destruct IH as (H0 & Hmax & Hwho & Hlt).
    destruct (Qlt_bool w (spent_fraction load x)) eqn:E.
    + apply Qlt_bool_iff in E. split; [lra|]. split; [|split].
      * intros itf Hin. apply in_app_or in Hin.
        destruct Hin as [Hin|[<-|[]]]; [|lra]. specialize (Hmax itf Hin). lra.
      * right. exists l, x, []. split; [reflexivity|].
        split; [reflexivity|]. split; [reflexivity|]. split; [lra|].
        intros i Hi. specialize (Hmax i Hi). lra.
      * intros Hco Hadm.
        assert (Hx : In x (l ++ [x])) by (apply in_or_app; right; now left).
        destruct (Hco x Hx) as [He Hh].
        apply (spent_fraction_below_one load x He Hh).
        apply Hadm. apply in_or_app. right. now left.
    + apply Qlt_bool_false_iff in E. split; [exact H0|]. split; [|split].
      * intros itf Hin. apply in_app_or in Hin.
        destruct Hin as [Hin|[<-|[]]]; [now apply Hmax | exact E].
      * destruct Hwho as [Hz|(l1 & itf & l2 & -> & Hw & Hb & Hp & Hbefore)];
          [now left|].
        right. exists l1, itf, (l2 ++ [x]).
        split; [now rewrite <- app_assoc|]. repeat split; auto.
      * intros Hco Hadm. apply Hlt.
        -- intros itf Hin. apply Hco. apply in_or_app. now left.
        -- intros itf Hin. apply Hadm. apply in_or_app. now left.
Qed.

(** ** The adjacency and the interface registry of a network *)

Lemma adjacency_fold_mono es : forall (adj0 : PyDict.dict (list Edge)) node e,
  In e (PyDict.get_default adj0 node []) ->
  In e (PyDict.get_default
          (fold_left
             (fun adj e =>
                let adj1 := PyDict.set adj (u e)
                                       (PyDict.get_default adj (u e) [] ++ [e]) in
                PyDict.set adj1 (v e) (PyDict.get_default adj1 (v e) [] ++ [e]))
             es adj0) node []).
Proof.
  induction es as [|x es IH]; intros adj0 node e H; cbn [fold_left]; auto.
  apply IH. cbv zeta. rewrite get_default_set.
  destruct (String.eqb (v x) node) eqn:Ev.
  - apply String.eqb_eq in Ev. apply in_or_app. left.
    rewrite get_default_set.
    destruct (String.eqb (u x) (v x)) eqn:Eu.
    + apply String.eqb_eq in Eu. apply in_or_app. left. congruence.
    + congruence.
  - rewrite get_default_set.
    destruct (String.eqb (u x) node) eqn:Eu; auto.
    apply String.eqb_eq in Eu. apply in_or_app. left. congruence.
Qed.

Lemma adjacency_fold_complete es : forall (adj0 : PyDict.dict (list Edge)) node e,
  In e es -> u e = node \/ v e = node ->
  In e (PyDict.get_default
          (fold_left
             (fun adj e =>
                let adj1 := PyDict.set adj (u e)
                                       (PyDict.get_default adj (u e) [] ++ [e]) in
                PyDict.set adj1 (v e) (PyDict.get_default adj1 (v e) [] ++ [e]))
             es adj0) node []).
Proof.
  induction es as [|x es IH]; intros adj0 node e Hin Hend; [destruct Hin|].
  cbn [fold_left]. destruct Hin as [->|Hin]; [|now apply IH].
  apply adjacency_fold_mono. cbv zeta. rewrite get_default_set.
  destruct (String.eqb (v e) node) eqn:Ev.
  - apply in_or_app. right. now left.
  - rewrite get_default_set.
    destruct (String.eqb (u e) node) eqn:Eu.
    + apply in_or_app. right. now left.
    + apply String.eqb_neq in Ev, Eu. destruct Hend; contradiction.
Qed.

Lemma neighbors_iff net node nb e :
  In (nb, e) (neighbors net node)
  <-> In e (edges net) /\ (u e = node \/ v e = node) /\ nb = other e node.
Proof.
  unfold neighbors. rewrite in_map_iff. split.
  - intros (e' & E & Hin). inversion E; subst.
    apply adjacency_fold in Hin. destruct Hin as [[]|[Hin Hend]]. auto.
  - intros (Hin & Hend & ->). exists e. split; [reflexivity|].
    now apply adjacency_fold_complete.
Qed.

Lemma Forall_set {V} (P : string * V -> Prop) (d : PyDict.dict V) k x :
  Forall P d -> (forall k', k' = k -> P (k', x)) -> Forall P (PyDict.set d k x).
Proof.
  intros Hd Hx. induction d as [|[k' x'] r IH]; cbn [PyDict.set].
  - constructor; [now apply Hx | constructor].
  - inversion Hd; subst. destruct (String.eqb k' k) eqn:E.
    + constructor; auto. apply Hx. now apply String.eqb_eq.
    + constructor; auto.
Qed.

Lemma registry_fold es : forall (m : PyDict.dict Interface) (P : Interface -> Prop),
  NoDup (PyDict.keys m) ->
  Forall (fun kv => name (snd kv) = fst kv /\ P (snd kv)) m ->
  (forall e, In e es -> P (interface e)) ->
  let d := fold_left (fun m e => PyDict.set m (name (interface e)) (interface e))
                     es m in
  NoDup (PyDict.keys d)
  /\ Forall (fun kv => name (snd kv) = fst kv /\ P (snd kv)) d
  /\ (forall k, PyDict.contains m k = true -> PyDict.contains d k = true)
  /\ (forall e, In e es -> PyDict.contains d (name (interface e)) = true).
Proof.
  induction es as [|x es IH]; intros m P Hnd Hm HP; cbv zeta; cbn [fold_left].
  - split; [exact Hnd|]. split; [exact Hm|]. split; [auto | intros e []].
  - destruct (IH (PyDict.set m (name (interface x)) (interface x)) P)
      as (H1 & H2 & H3 & H4).
    + now apply NoDup_keys_set.
    + apply Forall_set; [exact Hm|]. intros k' ->. cbn [fst snd].
      split; [reflexivity|]. apply HP. now left.
    + intros e He. apply HP. now right.
    + cbv zeta in H1, H2, H3, H4. split; [exact H1|]. split; [exact H2|].
      assert (Hkeep : forall k, PyDict.contains m k = true ->
                PyDict.contains (PyDict.set m (name (interface x)) (interface x)) k
                = true).
      { intros k Hk. unfold PyDict.contains in *.
        destruct (String.eqb (name (interface x)) k) eqn:E.
        - apply String.eqb_eq in E. subst k. now rewrite get_set_same.
        - apply String.eqb_neq in E. now rewrite get_set_other. }
      split.
      * intros k Hk. apply H3. now apply Hkeep.
      * intros e [->|He]; [|now apply H4].
        apply H3. unfold PyDict.contains. now rewrite get_set_same.
Qed.

(** X18.  What [Network.__post_init__] builds: [neighbors(node)] lists
    exactly the edges of the network that touch [node], each paired with
    its other end, so the relation is symmetric; [interfaces()] has one
    entry per interface name; every listed interface is the interface of
    some edge, and the interface name of every edge is registered. *)
Theorem network_adjacency_and_registry :
  forall net,
    (forall node nb e,
        In (nb, e) (neighbors net node)
        <-> In e (edges net) /\ (u e = node \/ v e = node) /\ nb = other e node)
    /\ (forall node nb e,
           In (nb, e) (neighbors net node) -> In (node, e) (neighbors net nb))
    /\ NoDup (map name (interfaces net))
    /\ (forall itf, In itf (interfaces net) <->
                    get_interface net (name itf) = Some itf)
    /\ (forall itf, In itf (interfaces net) ->
                    exists e, In e (edges net) /\ interface e = itf)
    /\ (forall e, In e (edges net) ->
                  exists itf, get_interface net (name (interface e)) = Some itf
                              /\ name itf = name (interface e)).
Proof.
  intros net. split; [intros; apply neighbors_iff|]. split.
  { intros node nb e H. apply neighbors_iff in H.
    destruct H as (Hin & Hend & ->). apply neighbors_iff.
    split; [exact Hin|]. unfold other.
    destruct (String.eqb node (u e)) eqn:Eu.
    - apply String.eqb_eq in Eu. subst node. split; [now right|].
      destruct (String.eqb (v e) (u e)) eqn:Ev; [|reflexivity].
      apply String.eqb_eq in Ev. congruence.
    - apply String.eqb_neq in Eu. destruct Hend as [H|H]; [congruence|].
      subst node. split; [now left|]. now rewrite String.eqb_refl. }
  destruct (registry_fold (edges net) []
              (fun itf => exists e, In e (edges net) /\ interface e = itf)
              (NoDup_nil _) (Forall_nil _)) as (Hnd & Hall & _ & Hreg).
  { intros e He. now exists e. }
  cbv zeta in Hnd, Hall, Hreg.
  fold (interfaces_dict net) in Hnd, Hall, Hreg.
  assert (Hnames : map name (interfaces net) = PyDict.keys (interfaces_dict net)).
  { unfold interfaces, PyDict.values, PyDict.keys. rewrite map_map.
    apply map_ext_in. intros kv Hkv. rewrite Forall_forall in Hall.
    exact (proj1 (Hall kv Hkv)). }
  assert (Hget : forall (d : PyDict.dict Interface) k x,
             NoDup (PyDict.keys d) -> In (k, x) d -> PyDict.get d k = Some x).
  { clear. induction d as [|[k' x'] r IH]; intros k x Hnd Hin; [destruct Hin|].
    cbn [PyDict.keys map fst] in Hnd. inversion Hnd as [|? ? Hnot Hr]; subst.
    cbn [PyDict.get]. destruct Hin as [E|Hin].
    - inversion E; subst. now rewrite String.eqb_refl.
    - destruct (String.eqb k' k) eqn:E.
      + apply String.eqb_eq in E. subst k'. exfalso. apply Hnot.
        change k with (fst (k, x)). now apply in_map.
      + now apply IH. }
  split; [now rewrite Hnames|]. split; [|split].
  - intros itf. unfold interfaces, get_interface, PyDict.values. split.
    + intros Hin. apply in_map_iff in Hin. destruct Hin as ([k x] & E & Hin).
      cbn [snd] in E. subst x. rewrite Forall_forall in Hall.
      destruct (Hall _ Hin) as [Hk _]. cbn [fst snd] in Hk. subst k.
      now apply Hget.
    + intros H. apply get_In in H. apply in_map_iff.
      exists (name itf, itf). split; [reflexivity | exact H].
  - intros itf Hin. unfold interfaces, PyDict.values in Hin.
    apply in_map_iff in Hin. destruct Hin as (kv & <- & Hin).
    rewrite Forall_forall in Hall. exact (proj2 (Hall kv Hin)).
  - intros e He. specialize (Hreg e He). unfold PyDict.contains in Hreg.
    unfold get_interface.
    destruct (PyDict.get (interfaces_dict net) (name (interface e))) as [itf|] eqn:E;
      [|discriminate].
    exists itf. split; [reflexivity|]. apply get_In in E.
    rewrite Forall_forall in Hall. exact (proj1 (Hall _ E)).
Qed.

(** ** The linear and the quadratic part of the cost (V4) *)

Lemma quadratic_cost_nonneg itf n :
  (0 <= eta itf)%Q -> (0 <= UnifiedV4.quadratic_cost itf n)%Q.
Proof.
  intros Hh. unfold UnifiedV4.quadratic_cost.
  destruct (n <=? 1) eqn:E; [lra|]. apply Z.leb_gt in E.
  assert (H1 : (0 <= inject_Z n)%Q) by (apply inject_Z_nonneg; lia).
  assert (H2 : (0 <= inject_Z (n - 1))%Q) by (apply inject_Z_nonneg; lia).
  assert (H3 : (0 <= eta itf * inject_Z n)%Q) by (apply Qmult_le_0_compat; auto).
  assert (H4 : (0 <= eta itf * inject_Z n * inject_Z (n - 1))%Q)
    by (apply Qmult_le_0_compat; auto).
  apply Qle_shift_div_l; [reflexivity | lra].
Qed.

Lemma linear_cost_nonneg itf n :
  (0 <= epsilon itf)%Q -> (0 <= UnifiedV4.linear_cost itf n)%Q.
Proof.
  intros He. unfold UnifiedV4.linear_cost.
  destruct (0 <? n) eqn:E; [|lra]. apply Z.ltb_lt in E.
  apply Qmult_le_0_compat; auto. apply inject_Z_nonneg. lia.
Qed.

Lemma cost_linear_quadratic itf n :
  (cost itf n == UnifiedV4.linear_cost itf n + UnifiedV4.quadratic_cost itf n)%Q.
Proof.
  unfold cost, UnifiedV4.linear_cost, UnifiedV4.quadratic_cost.
  destruct (n <=? 0) eqn:E0.
  - apply Z.leb_le in E0.
    assert (E1 : (0 <? n) = false) by (apply Z.ltb_ge; lia).
    assert (E2 : (n <=? 1) = true) by (apply Z.leb_le; lia).
    rewrite E1, E2. lra.
  - apply Z.leb_gt in E0.
    assert (E1 : (0 <? n) = true) by (apply Z.ltb_lt; lia).
    rewrite E1. destruct (n <=? 1) eqn:E2; [|reflexivity].
    apply Z.leb_le in E2. assert (n = 1) by lia. subst n.
    change (inject_Z (1 - 1)) with 0%Q. unfold Qdiv. ring.
Qed.


(** ** The composability index and the regime boundary (V4) *)

Lemma min_headroom_none_iff load itfs :
  fst (min_headroom load itfs) = None <-> itfs = [].
Proof.
  unfold min_headroom.
  pose proof (min_headroom_fold_select load itfs None) as E.
  cbn [option_map] in E. rewrite E. clear E. cbv zeta. cbn [fst].
  pose proof (select_spec (fun _ : Interface => true)
                          (fun i => headroom i (lv_get load (name i))) itfs) as S.
  destruct (fold_left (select_step _ _) itfs None) as [p|]; cbn [option_map].
  - split; [discriminate|]. intros ->.
    destruct S as (_ & l1 & l2 & El & _). destruct l1; discriminate.
  - split; [|reflexivity]. intros _. destruct itfs as [|x l]; [reflexivity|].
    specialize (S x (or_introl eq_refl)). discriminate.
Qed.

Lemma min_capacity_le itfs itf :
  In itf itfs -> (UnifiedV4.min_capacity itfs <= capacity itf)%Q.
Proof.
  destruct itfs as [|x l]; [intros []|]. cbn [UnifiedV4.min_capacity].
  assert (H : forall l m,
             let r := fold_left (fun m i => if Qlt_bool (capacity i) m
                                            then capacity i else m) l m in
             (r <= m)%Q /\ forall i, In i l -> (r <= capacity i)%Q).
  { clear. induction l as [|y l IH]; intros m; cbv zeta; cbn [fold_left].
    - split; [lra | intros i []].
    - destruct (Qlt_bool (capacity y) m) eqn:E.
      + apply Qlt_bool_iff in E. destruct (IH (capacity y)) as [H1 H2].
        cbv zeta in *. split; [lra|].
        intros i [<-|Hi]; [exact H1 | exact (H2 i Hi)].
      + apply Qlt_bool_false_iff in E. destruct (IH m) as [H1 H2].
        cbv zeta in *. split; [exact H1|].
        intros i [<-|Hi]; [lra | exact (H2 i Hi)]. }
  destruct (H l (capacity x)) as [H1 H2]. cbv zeta in *.
  intros [<-|Hi]; [exact H1 | exact (H2 itf Hi)].
Qed.


Lemma uniform_get itfs n k : forall (d : PyDict.dict Z),
  PyDict.get_default
    (fold_left (fun d itf => PyDict.set d (name itf) n) itfs d) k 0
  = if existsb (fun itf => String.eqb (name itf) k) itfs then n
    else PyDict.get_default d k 0.
Proof.
  induction itfs as [|x l IH]; intros d; cbn [fold_left existsb]; [reflexivity|].
  rewrite IH, get_default_set.
  destruct (String.eqb (name x) k); cbn [orb]; [|reflexivity].
  now destruct (existsb _ l).
Qed.

Lemma uniform_load_at itfs n itf :
  In itf itfs -> lv_get (LoadVector_uniform itfs n) (name itf) = n.
Proof.
  intros Hin. unfold lv_get, LoadVector_uniform. cbn [loads].
  rewrite uniform_get.
  assert (E : existsb (fun i => String.eqb (name i) (name itf)) itfs = true).
  { apply existsb_exists. exists itf. split; [exact Hin | apply String.eqb_refl]. }
  now rewrite E.
Qed.

Lemma uniform_admissible_antitone itfs n m :
  (forall itf, In itf itfs -> (0 <= epsilon itf)%Q /\ (0 <= eta itf)%Q) ->
  n <= m ->
  is_admissible (LoadVector_uniform itfs m) itfs = true ->
  is_admissible (LoadVector_uniform itfs n) itfs = true.
Proof.
  intros Hco Hnm H. apply is_admissible_iff. apply is_admissible_iff in H.
  intros itf Hin. specialize (H itf Hin). destruct (Hco itf Hin) as [He Hh].
  rewrite uniform_load_at in * by exact Hin.
  pose proof (cost_le itf n m He Hh Hnm). unfold headroom in *. lra.
Qed.

Lemma regime_step_raises itfs l : forall e,
  fold_left (UnifiedV4.regime_step itfs) l (Raised e) = Raised e.
Proof.
  induction l as [|x l IH]; intros e; cbn [fold_left UnifiedV4.regime_step]; auto.
Qed.

Lemma regime_step_returns itfs comp sat an sz :
  Qeq_bool (UnifiedV4.min_capacity itfs) 0 = false ->
  exists info,
    UnifiedV4.regime_step itfs (Returned (comp, sat, an)) sz
    = if is_admissible (LoadVector_uniform itfs sz) itfs
      then Returned (comp ++ [sz], sat, an ++ [(sz, info)])
      else Returned (comp, sat ++ [sz], an ++ [(sz, info)]).
Proof.
  intros E0. unfold UnifiedV4.regime_step, UnifiedV4.composability_index.
  pose proof (min_headroom_slack (LoadVector_uniform itfs sz) itfs) as Hs.
  destruct (min_headroom (LoadVector_uniform itfs sz) itfs) as [h bn].
  cbn [fst] in Hs. rewrite E0, <- Hs.
  destruct h as [x|]; eexists; reflexivity.
Qed.

Lemma seq_as_shift a : forall b s,
  map (fun i => a + Z.of_nat i) (seq s b)
  = map (fun i => a + Z.of_nat s + Z.of_nat i) (seq 0 b).
Proof.
  induction b as [|b IH]; intros s; [reflexivity|].
  rewrite !seq_S, !map_app, IH. cbn [map Nat.add]. f_equal. f_equal. lia.
Qed.

Lemma py_range_split lo (a b : nat) :
  py_range lo (lo + Z.of_nat (a + b))
  = py_range lo (lo + Z.of_nat a)
    ++ py_range (lo + Z.of_nat a) (lo + Z.of_nat (a + b)).
Proof.
  unfold py_range.
  replace (Z.to_nat (lo + Z.of_nat (a + b) - lo)) with (a + b)%nat by lia.
  replace (Z.to_nat (lo + Z.of_nat a - lo)) with a by lia.
  replace (Z.to_nat (lo + Z.of_nat (a + b) - (lo + Z.of_nat a))) with b by lia.
  rewrite seq_app, map_app. f_equal. cbn [Nat.add]. apply seq_as_shift.
Qed.

Lemma py_range_snoc lo (a : nat) :
  py_range lo (lo + Z.of_nat (S a))
  = py_range lo (lo + Z.of_nat a) ++ [lo + Z.of_nat a].
Proof.
  replace (S a) with (a + 1)%nat by lia. rewrite py_range_split. f_equal.
  unfold py_range.
  replace (Z.to_nat (lo + Z.of_nat (a + 1) - (lo + Z.of_nat a))) with 1%nat by lia.
  cbn. f_equal. lia.
Qed.

Lemma py_range_empty lo hi : hi <= lo -> py_range lo hi = [].
Proof.
  intros H. unfold py_range. replace (Z.to_nat (hi - lo)) with 0%nat by lia.
  reflexivity.
Qed.

Lemma regime_fold itfs :
  (forall itf, In itf itfs -> (0 <= epsilon itf)%Q /\ (0 <= eta itf)%Q) ->
  Qeq_bool (UnifiedV4.min_capacity itfs) 0 = false ->
  forall n : nat,
  exists (m : nat) an,
    fold_left (UnifiedV4.regime_step itfs) (py_range 1 (1 + Z.of_nat n))
              (Returned ([], [], []))
    = Returned (py_range 1 (1 + Z.of_nat m),
                py_range (1 + Z.of_nat m) (1 + Z.of_nat n), an)
    /\ (m <= n)%nat
    /\ map fst an = py_range 1 (1 + Z.of_nat n)
    /\ (forall sz, 1 <= sz <= Z.of_nat m ->
                   is_admissible (LoadVector_uniform itfs sz) itfs = true)
    /\ (forall sz, Z.of_nat m < sz <= Z.of_nat n ->
                   is_admissible (LoadVector_uniform itfs sz) itfs = false).
Proof.
  intros Hco E0. induction n as [|n IH].
  - exists O, []. cbn. repeat split; auto; intros sz Hsz; lia.
  - destruct IH as (m & an & Hfold & Hmn & Han & Hyes & Hno).
    destruct (regime_step_returns itfs (py_range 1 (1 + Z.of_nat m))
                (py_range (1 + Z.of_nat m) (1 + Z.of_nat n)) an
                (1 + Z.of_nat n) E0) as (info & Hinfo).
    assert (Hstep : fold_left (UnifiedV4.regime_step itfs)
                      (py_range 1 (1 + Z.of_nat (S n))) (Returned ([], [], []))
                    = UnifiedV4.regime_step itfs
                        (Returned (py_range 1 (1 + Z.of_nat m),
                                   py_range (1 + Z.of_nat m) (1 + Z.of_nat n), an))
                        (1 + Z.of_nat n)).
    { rewrite py_range_snoc, fold_left_app, Hfold. reflexivity. }
    rewrite Hinfo in Hstep. clear Hinfo.
    assert (Han' : map fst (an ++ [(1 + Z.of_nat n, info)])
                   = py_range 1 (1 + Z.of_nat (S n))).
    { rewrite map_app, Han, py_range_snoc. reflexivity. }
    destruct (is_admissible (LoadVector_uniform itfs (1 + Z.of_nat n)) itfs) eqn:Ea.
    + assert (Hm : m = n).
      { destruct (Nat.eq_dec m n) as [|Hne]; [assumption|]. exfalso.
        assert (Hf : is_admissible (LoadVector_uniform itfs (Z.of_nat n)) itfs
                     = false) by (apply Hno; lia).
        rewrite (uniform_admissible_antitone itfs (Z.of_nat n) (1 + Z.of_nat n)
                   Hco ltac:(lia) Ea) in Hf. discriminate. }
      subst m. exists (S n), (an ++ [(1 + Z.of_nat n, info)]).
      split; [|split; [lia|split; [exact Han'|split]]].
      * rewrite Hstep, (py_range_snoc 1 n).
        rewrite (py_range_empty (1 + Z.of_nat n) (1 + Z.of_nat n)) by lia.
        rewrite (py_range_empty (1 + Z.of_nat (S n)) (1 + Z.of_nat (S n))) by lia.
        reflexivity.
      * intros sz Hsz. destruct (Z.eq_dec sz (1 + Z.of_nat n)) as [->|Hne];
          [exact Ea | apply Hyes; lia].
      * intros sz Hsz. lia.
    + exists m, (an ++ [(1 + Z.of_nat n, info)]).
      split; [|split; [lia|split; [exact Han'|split]]].
      * rewrite Hstep. f_equal. f_equal. f_equal.
        replace (1 + Z.of_nat (S n))
          with (1 + Z.of_nat m + Z.of_nat (S (n - m))) by lia.
        rewrite py_range_snoc.
        replace (1 + Z.of_nat m + Z.of_nat (n - m)) with (1 + Z.of_nat n) by lia.
        reflexivity.
      * exact Hyes.
      * intros sz Hsz. destruct (Z.eq_dec sz (1 + Z.of_nat n)) as [->|Hne];
          [exact Ea | apply Hno; lia].
Qed.

Lemma max_of_range (m : nat) :
  match py_range 1 (1 + Z.of_nat m) with
  | [] => 0
  | c :: rest => fold_left Z.max rest c
  end = Z.of_nat m.
Proof.
  induction m as [|m IH]; [reflexivity|].
  rewrite py_range_snoc.
  destruct (py_range 1 (1 + Z.of_nat m)) as [|c rest] eqn:E.
  - destruct m; [reflexivity|]. rewrite py_range_snoc in E.
    destruct (py_range 1 (1 + Z.of_nat m)); discriminate.
  - cbn [app]. rewrite fold_left_app. cbn [fold_left]. rewrite IH. lia.
Qed.

(** X21.  [analyze_regime_boundary] with non-negative coefficients: the
    composable sizes are an initial segment [1..m] of the sizes and the
    saturating sizes are the rest [m+1..max_size], every size gets one
    analysis, and [max_composable] is [m] (0 when nothing is composable).
    The function raises exactly when there is a size to analyse and the
    least capacity is zero. *)
Theorem regime_boundary_is_a_threshold :
  forall itfs max_size,
    (forall itf, In itf itfs -> (0 <= epsilon itf)%Q /\ (0 <= eta itf)%Q) ->
    match UnifiedV4.analyze_regime_boundary itfs max_size with
    | Returned r =>
        (max_size <= 0 \/ ~ (UnifiedV4.min_capacity itfs == 0)%Q)
        /\ exists m,
            0 <= m <= Z.max 0 max_size
            /\ UnifiedV4.composable r = py_range 1 (m + 1)
            /\ UnifiedV4.saturating r = py_range (m + 1) (max_size + 1)
            /\ UnifiedV4.max_composable r = m
            /\ map fst (UnifiedV4.analyses r) = py_range 1 (max_size + 1)
            /\ (forall sz, 1 <= sz <= max_size ->
                  (sz <= m <-> is_admissible (LoadVector_uniform itfs sz) itfs
                               = true))
    | Raised _ => 0 < max_size /\ itfs <> [] /\ (UnifiedV4.min_capacity itfs == 0)%Q
    end.
Proof.
  intros itfs max_size Hco. unfold UnifiedV4.analyze_regime_boundary.
  destruct (Z_le_gt_dec max_size 0) as [Hle|Hgt].
  - rewrite (py_range_empty 1 (max_size + 1)) by lia. cbn [fold_left].
    split; [now left|]. exists 0.
    cbn [UnifiedV4.composable UnifiedV4.saturating UnifiedV4.max_composable
         UnifiedV4.analyses map].
    rewrite (py_range_empty 1 (0 + 1)) by lia.
    rewrite (py_range_empty (0 + 1) (max_size + 1)) by lia.
    repeat split; try lia; try reflexivity.
  - replace (max_size + 1) with (1 + Z.of_nat (Z.to_nat max_size)) by lia.
    destruct (Qeq_bool (UnifiedV4.min_capacity itfs) 0) eqn:E0.
    + assert (Hraise : fold_left (UnifiedV4.regime_step itfs)
                         (py_range 1 (1 + Z.of_nat (Z.to_nat max_size)))
                         (Returned ([], [], []))
                       = Raised ZeroDivisionError).
      { destruct (Z.to_nat max_size) as [|n] eqn:En; [lia|].
        replace (S n) with (0 + S n)%nat by lia.
        replace (1 + Z.of_nat (0 + S n)) with (1 + Z.of_nat 0 + Z.of_nat (S n))
          by lia.
        unfold py_range.
        replace (Z.to_nat (1 + Z.of_nat 0 + Z.of_nat (S n) - 1)) with (S n) by lia.
        cbn [seq map fold_left].
        unfold UnifiedV4.regime_step at 2, UnifiedV4.composability_index.
        destruct (min_headroom _ itfs) as [h bn]. rewrite E0.
        apply regime_step_raises. }
      rewrite Hraise. apply Qeq_bool_iff in E0. split; [lia|]. split; [|exact E0].
      intros ->. cbn in E0. discriminate.
    + destruct (regime_fold itfs Hco E0 (Z.to_nat max_size))
        as (m & an & Hfold & Hmn & Han & Hyes & Hno).
      rewrite Hfold. split.
      { right. intros H. apply Qeq_bool_iff in H. congruence. }
      exists (Z.of_nat m).
      cbn [UnifiedV4.composable UnifiedV4.saturating UnifiedV4.max_composable
           UnifiedV4.analyses].
      split; [lia|].
      replace (Z.of_nat m + 1) with (1 + Z.of_nat m) by lia.
      split; [reflexivity|]. split; [reflexivity|].
      split; [apply max_of_range|]. split; [exact Han|].
      intros sz Hsz. split.
      * intros H. apply Hyes. lia.
      * intros H. destruct (Z_le_gt_dec sz (Z.of_nat m)) as [|Hg]; [assumption|].
        rewrite Hno in H by lia. discriminate.
Qed.

Lemma regime_boundary_of_I1 :
  let itfs := [Examples.I1] in
  let max_size := 6 in
  (forall itf, In itf itfs -> (0 <= epsilon itf)%Q /\ (0 <= eta itf)%Q)
  /\ match UnifiedV4.analyze_regime_boundary itfs max_size with
     | Returned r =>
         (max_size <= 0 \/ ~ (UnifiedV4.min_capacity itfs == 0)%Q)
         /\ exists m,
             0 <= m <= Z.max 0 max_size
             /\ UnifiedV4.composable r = py_range 1 (m + 1)
             /\ UnifiedV4.saturating r = py_range (m + 1) (max_size + 1)
             /\ UnifiedV4.max_composable r = m
             /\ map fst (UnifiedV4.analyses r) = py_range 1 (max_size + 1)
             /\ (forall sz, 1 <= sz <= max_size ->
                   (sz <= m <-> is_admissible (LoadVector_uniform itfs sz) itfs
                                = true))
     | Raised _ => 0 < max_size /\ itfs <> [] /\ (UnifiedV4.min_capacity itfs == 0)%Q
     end.
Proof.
  cbv zeta.
  assert (H1 : forall itf, In itf [Examples.I1] ->
                           (0 <= epsilon itf)%Q /\ (0 <= eta itf)%Q).
  { intros itf [<-|[]]. split; vm_compute; congruence. }
  split; [exact H1|].
  exact (regime_boundary_is_a_threshold [Examples.I1] 6 H1).
Defined.

(** ** Admissible neighbours of a load *)

Lemma product_spec ds n : forall c,
  In c (AccumulatedCost.product ds n) ->
  length c = n /\ Forall (fun d => In d ds) c.
Proof.
  induction n as [|n IH]; intros c Hc; cbn [AccumulatedCost.product] in Hc.
  - destruct Hc as [<-|[]]. split; [reflexivity | constructor].
  - apply in_flat_map in Hc. destruct Hc as (d & Hd & Hc).
    apply in_map_iff in Hc. destruct Hc as (c' & <- & Hc').
    destruct (IH c' Hc') as [Hl Hf].
    split; [cbn [length]; now rewrite Hl | now constructor].
Qed.

Lemma delta_range_bound m d :
  In d (AccumulatedCost.delta_range m) -> - m <= d <= m.
Proof.
  unfold AccumulatedCost.delta_range. rewrite in_map_iff.
  intros (i & <- & Hi). apply in_seq in Hi. lia.
Qed.

Lemma shifted_loads_spec ld pairs : forall base r,
  AccumulatedCost.shifted_loads ld pairs base = Some r ->
  forall nm,
    (In nm (map fst pairs) ->
     exists delta, In (nm, delta) pairs
                   /\ PyDict.get_default r nm 0 = lv_get ld nm + delta
                   /\ 0 <= PyDict.get_default r nm 0)
    /\ (~ In nm (map fst pairs) ->
        PyDict.get_default r nm 0 = PyDict.get_default base nm 0).
Proof.
  induction pairs as [|[k delta] rest IH]; intros base r H nm;
    cbn [AccumulatedCost.shifted_loads] in H.
  - injection H as <-. split; [intros [] | reflexivity].
  - cbv zeta in H. destruct (lv_get ld k + delta <? 0) eqn:E; [discriminate|].
    apply Z.ltb_ge in E.
    destruct (IH _ _ H nm) as [Hin Hout]. cbn [map fst].
    destruct (in_dec string_dec nm (map fst rest)) as [Hr|Hr].
    + split.
      * intros _. destruct (Hin Hr) as (d & Hd & Hg & H0).
        exists d. split; [now right | split; assumption].
      * intros Hn. exfalso. apply Hn. now right.
    + split.
      * intros [->|Hr']; [|contradiction].
        exists delta. split; [now left|].
        rewrite (Hout Hr), get_default_set, String.eqb_refl. split; lia.
      * intros Hn. rewrite (Hout Hr), get_default_set.
        destruct (String.eqb k nm) eqn:Ek; [|reflexivity].
        apply String.eqb_eq in Ek. exfalso. apply Hn. now left.
Qed.

Lemma combine_fst_names {A B} (l : list A) (c : list B) :
  length c = length l -> map fst (combine l c) = l.
Proof.
  revert c. induction l as [|x l IH]; intros [|y c] H; try discriminate;
    [reflexivity|].
  cbn [combine map fst]. f_equal. apply IH. now injection H.
Qed.

Lemma unique_pair {B} (pairs : list (string * B)) nm x y :
  NoDup (map fst pairs) -> In (nm, x) pairs -> In (nm, y) pairs -> x = y.
Proof.
  induction pairs as [|[k z] rest IH]; intros Hnd Hx Hy; [destruct Hx|].
  cbn [map fst] in Hnd. inversion Hnd as [|? ? Hnot Hr]; subst.
  destruct Hx as [Ex|Hx], Hy as [Ey|Hy].
  - congruence.
  - inversion Ex; subst. exfalso. apply Hnot.
    change nm with (fst (nm, y)). now apply in_map.
  - inversion Ey; subst. exfalso. apply Hnot.
    change nm with (fst (nm, x)). now apply in_map.
  - now apply IH.
Qed.

Lemma nonzero_delta_pair (names : list string) : forall c : list Z,
  length c = length names ->
  forallb (fun d => d =? 0) c = false ->
  exists nm d, In (nm, d) (combine names c) /\ d <> 0.
Proof.
  induction names as [|nm names IH]; intros [|d c] Hl Hz; try discriminate.
  cbn [forallb] in Hz. cbn [combine].
  destruct (d =? 0) eqn:E.
  - cbn [andb] in Hz. destruct (IH c) as (nm' & d' & Hin & Hd); auto.
    exists nm', d'. split; [now right | exact Hd].
  - apply Z.eqb_neq in E. exists nm, d. split; [now left | exact E].
Qed.

(** X22.  Every load returned by [admissible_neighbors] is admissible, is
    non-negative on every interface and differs from the given load by at
    most [max_delta] there; nothing is returned for [max_delta <= 0]; and
    when the interface names are distinct every returned load differs from
    the given one on some interface. *)
Theorem admissible_neighbors_sound :
  forall ld itfs max_delta,
    Forall (fun L' =>
              is_admissible L' itfs = true
              /\ forall itf, In itf itfs ->
                   0 <= lv_get L' (name itf)
                   /\ - max_delta <= lv_get L' (name itf) - lv_get ld (name itf)
                      <= max_delta)
           (AccumulatedCost.admissible_neighbors ld itfs max_delta)
    /\ (max_delta <= 0 -> AccumulatedCost.admissible_neighbors ld itfs max_delta = [])
    /\ (NoDup (map name itfs) ->
        Forall (fun L' => exists itf, In itf itfs
                                      /\ lv_get L' (name itf) <> lv_get ld (name itf))
               (AccumulatedCost.admissible_neighbors ld itfs max_delta)).
Proof.
  intros ld itfs max_delta. unfold AccumulatedCost.admissible_neighbors. cbv zeta.
  set (names := map name itfs).
  set (combos := AccumulatedCost.product (AccumulatedCost.delta_range max_delta)
                                         (length names)).
  assert (Hcombo : forall c, In c combos ->
             length c = length names /\ Forall (fun d => - max_delta <= d <= max_delta) c).
  { intros c Hc. destruct (product_spec _ _ c Hc) as [Hl Hf]. split; [exact Hl|].
    rewrite Forall_forall in *. intros d Hd. apply delta_range_bound. now apply Hf. }
  split; [|split].
  - apply fold_left_preserve; [|constructor].
    intros acc c Hc Hacc.
    destruct (forallb (fun d => d =? 0) c); [exact Hacc|].
    destruct (AccumulatedCost.shifted_loads ld (combine names c) [])
      as [new_loads|] eqn:Es; [|exact Hacc].
    destruct (AccumulatedCost.is_transition_admissible ld (mkLoad new_loads) itfs)
      eqn:Ea; [|exact Hacc].
    apply Forall_app. split; [exact Hacc|]. constructor; [|constructor].
    split; [exact Ea|]. intros itf Hin.
    destruct (Hcombo c Hc) as [Hl Hb].
    destruct (shifted_loads_spec ld _ _ _ Es (name itf)) as [Hspec _].
    destruct Hspec as (delta & Hd & Hg & H0).
    { rewrite combine_fst_names by exact Hl. unfold names. now apply in_map. }
    change (lv_get (mkLoad new_loads) (name itf))
      with (PyDict.get_default new_loads (name itf) 0).
    split; [exact H0|].
    apply in_combine_r in Hd. rewrite Forall_forall in Hb.
    specialize (Hb delta Hd). fold (lv_get ld (name itf)) in Hg. lia.
  - intros Hmd.
    apply (fold_left_preserve _ (fun acc => acc = [])); [|reflexivity].
    intros acc c Hc ->.
    destruct (Hcombo c Hc) as [_ Hb].
    assert (Hz : forallb (fun d => d =? 0) c = true).
    { apply forallb_forall. intros d Hd. rewrite Forall_forall in Hb.
      specialize (Hb d Hd). apply Z.eqb_eq. lia. }
    now rewrite Hz.
  - intros Hnd. apply fold_left_preserve; [|constructor].
    intros acc c Hc Hacc.
    destruct (forallb (fun d => d =? 0) c) eqn:Ez; [exact Hacc|].
    destruct (AccumulatedCost.shifted_loads ld (combine names c) [])
      as [new_loads|] eqn:Es; [|exact Hacc].
    destruct (AccumulatedCost.is_transition_admissible ld (mkLoad new_loads) itfs);
      [|exact Hacc].
    apply Forall_app. split; [exact Hacc|]. constructor; [|constructor].
    destruct (Hcombo c Hc) as [Hl _].
    destruct (nonzero_delta_pair names c Hl Ez) as (nm & d & Hin & Hd).
    assert (Hnm : In nm names) by (apply in_combine_l in Hin; exact Hin).
    unfold names in Hnm. apply in_map_iff in Hnm. destruct Hnm as (itf & <- & Hitf).
    exists itf. split; [exact Hitf|].
    destruct (shifted_loads_spec ld _ _ _ Es (name itf)) as [Hspec _].
    destruct Hspec as (delta & Hd' & Hg & _).
    { rewrite combine_fst_names by exact Hl. unfold names. now apply in_map. }
    assert (delta = d).
    { apply (unique_pair (combine names c) (name itf)); auto.
      rewrite combine_fst_names by exact Hl. exact Hnd. }
    subst delta.
    change (lv_get (mkLoad new_loads) (name itf))
      with (PyDict.get_default new_loads (name itf) 0).
    fold (lv_get ld (name itf)) in Hg. lia.
Qed.

(** ** Distances and motifs (routing_engine_v1.py) *)

Lemma total_load_at existing p nm :
  lv_get (total_load existing p) nm
  = lv_get (load_or_empty existing) nm + path_hops p nm.
Proof.
  destruct (load_contribution_fold (p_edges p) nm [] (NoDup_nil _)) as [Hnd Hget].
  cbv zeta in Hnd, Hget. fold (load_contribution p) in Hnd, Hget.
  change (PyDict.get_default [] nm 0) with 0 in Hget. fold (path_hops p nm) in Hget.
  destruct existing as [e|]; cbn [total_load load_or_empty].
  - rewrite lv_add_get. cbn [load_vector loads].
    rewrite (contribution_weight_unique _ nm Hnd). lia.
  - unfold lv_get. cbn [load_vector loads LoadVector_empty].
    change (PyDict.get_default [] nm 0) with 0. lia.
Qed.

Lemma path_hops_nonneg p nm : 0 <= path_hops p nm.
Proof. unfold path_hops. lia. Qed.

Lemma v4_total_cost_mono itfs L L' :
  (forall itf, In itf itfs -> (0 <= epsilon itf)%Q /\ (0 <= eta itf)%Q) ->
  (forall itf, In itf itfs -> lv_get L (name itf) <= lv_get L' (name itf)) ->
  (UnifiedV4.total_cost L itfs <= UnifiedV4.total_cost L' itfs)%Q.
Proof.
  induction itfs as [|itf r IH]; intros Hco Hle.
  - unfold UnifiedV4.total_cost. cbn. lra.
  - rewrite !v4_total_cost_cons.
    destruct (Hco itf (or_introl eq_refl)) as [He Hh].
    pose proof (cost_le itf _ _ He Hh (Hle itf (or_introl eq_refl))).
    assert (UnifiedV4.total_cost L r <= UnifiedV4.total_cost L' r)%Q.
    { apply IH; intros i Hi; [apply Hco | apply Hle]; now right. }
    lra.
Qed.

Lemma best_routing_facts network s t existing k r :
  RoutingEngine.best_routing network s t existing k = Some r ->
  let itfs := interfaces network in
  RoutingEngine.r_load_vector r = total_load existing (RoutingEngine.r_path r)
  /\ RoutingEngine.r_total_cost r
     = UnifiedV4.total_cost (total_load existing (RoutingEngine.r_path r)) itfs
  /\ RoutingEngine.r_is_admissible r = true
  /\ admissible_load (RoutingEngine.r_load_vector r) itfs
  /\ simple_path network s t 15 (RoutingEngine.r_path r)
  /\ In (RoutingEngine.r_path r) (find_k_shortest_paths network s t k)
  /\ (forall q, In q (find_k_shortest_paths network s t k) ->
                admissible_load (total_load existing q) itfs ->
                (RoutingEngine.r_total_cost r
                 <= UnifiedV4.total_cost (total_load existing q) itfs)%Q).
Proof.
  intros H itfs. pose proof (best_routing_spec network s t existing k) as S.
  cbv zeta in S. rewrite H in S. fold itfs in S.
  destruct S as [Hr Hfc].
  destruct (analyze_routing_facts (RoutingEngine.r_path r) itfs existing)
    as (_ & Hlv & Hadm & Hcost).
  cbv zeta in Hlv, Hadm, Hcost. rewrite <- Hr in Hlv, Hadm, Hcost.
  pose proof (first_cheapest_In _ _ _ _ Hfc) as Hin.
  destruct Hfc as (Hp & l1 & l2 & El & H1 & H2).
  rewrite <- Hr in Hp.
  split; [exact Hlv|]. split; [exact Hcost|]. split; [exact Hp|]. split; [|split].
  - rewrite Hlv. apply is_admissible_iff. now rewrite <- Hadm.
  - unfold find_k_shortest_paths in Hin.
    destruct (py_slice_to_prefix (find_paths network s t (k * 3) 15) k)
      as (n & E & _).
    rewrite E in Hin.
    pose proof (find_paths_simple network s t (k * 3) 15 ltac:(lia)) as Hs.
    rewrite Forall_forall in Hs. apply Hs.
    rewrite <- (firstn_skipn n (find_paths _ _ _ _ _)). apply in_or_app. now left.
  - split; [exact Hin|]. intros q Hq Hqa.
    apply is_admissible_iff in Hqa.
    destruct (analyze_routing_facts q itfs existing) as (_ & _ & Hqadm & Hqcost).
    cbv zeta in Hqadm, Hqcost. rewrite <- Hqadm in Hqa. rewrite <- Hqcost.
    rewrite Hr at 1. rewrite El in Hq. apply in_app_or in Hq.
    destruct Hq as [Hq|[<-|Hq]].
    + specialize (H1 q Hq Hqa). lra.
    + lra.
    + exact (H2 q Hq Hqa).
Qed.

(** X24.  [distance] is 0 from a node to itself.  Between distinct nodes
    it is infinite exactly when none of the ten shortest candidate paths is
    admissible on top of the existing load; otherwise it is the total cost
    of the existing load together with the chosen path (not the increment
    alone), least among the admissible candidates, the path is simple and
    the resulting load admissible; with non-negative coefficients it is at
    least the total cost of the existing load. *)
Theorem distance_is_least_admissible_cost :
  forall network a b existing,
    let itfs := interfaces network in
    fst (RoutingEngine.distance network a a existing) = Some 0%Q
    /\ (a <> b ->
        match RoutingEngine.distance network a b existing with
        | (Some d, Some r) =>
            d = UnifiedV4.total_cost
                  (total_load existing (RoutingEngine.r_path r)) itfs
            /\ RoutingEngine.r_load_vector r
               = total_load existing (RoutingEngine.r_path r)
            /\ admissible_load (RoutingEngine.r_load_vector r) itfs
            /\ simple_path network a b 15 (RoutingEngine.r_path r)
            /\ (forall q, In q (find_k_shortest_paths network a b 10) ->
                          admissible_load (total_load existing q) itfs ->
                          (d <= UnifiedV4.total_cost (total_load existing q) itfs)%Q)
            /\ ((forall itf, In itf itfs ->
                             (0 <= epsilon itf)%Q /\ (0 <= eta itf)%Q) ->
                (UnifiedV4.total_cost (load_or_empty existing) itfs <= d)%Q)
        | (None, None) =>
            forall q, In q (find_k_shortest_paths network a b 10) ->
                      ~ admissible_load (total_load existing q) itfs
        | _ => False
        end).
Proof.
  intros network a b existing itfs. split.
  - unfold RoutingEngine.distance. now rewrite String.eqb_refl.
  - intros Hne. unfold RoutingEngine.distance.
    apply String.eqb_neq in Hne. rewrite Hne.
    destruct (RoutingEngine.best_routing network a b existing 10) as [r|] eqn:E.
    + destruct (best_routing_facts _ _ _ _ _ _ E)
        as (Hlv & Hcost & _ & Hadm & Hs & _ & Hmin).
      fold itfs in Hcost, Hadm, Hmin.
      split; [exact Hcost|]. split; [exact Hlv|]. split; [exact Hadm|].
      split; [exact Hs|]. split; [exact Hmin|].
      intros Hco. rewrite Hcost. apply v4_total_cost_mono; [exact Hco|].
      intros itf _. rewrite total_load_at.
      pose proof (path_hops_nonneg (RoutingEngine.r_path r) (name itf)). lia.
    + pose proof (best_routing_spec network a b existing 10) as S.
      cbv zeta in S. rewrite E in S. fold itfs in S.
      intros q Hq Hqa. apply is_admissible_iff in Hqa.
      destruct (analyze_routing_facts q itfs existing) as (_ & _ & Hqadm & _).
      cbv zeta in Hqadm. rewrite <- Hqadm, (S q Hq) in Hqa. discriminate.
Qed.

Lemma motif_loop_spec network requests : forall routes load,
  match RoutingEngine.motif_loop network requests routes load with
  | Some (routes', load') =>
      exists new,
        routes' = routes ++ new
        /\ Forall2 (fun conn r =>
                      simple_path network (RoutingEngine.c_source conn)
                                  (RoutingEngine.c_target conn) 15
                                  (RoutingEngine.r_path r)
                      /\ RoutingEngine.r_is_admissible r = true)
                   requests new
        /\ (forall nm, lv_get load' nm = lv_get load nm + routes_hops new nm)
        /\ (requests <> [] -> admissible_load load' (interfaces network))
        /\ load' = last (map RoutingEngine.r_load_vector new) load
  | None =>
      exists done conn rest routes' load',
        requests = done ++ conn :: rest
        /\ RoutingEngine.motif_loop network done routes load
           = Some (routes', load')
        /\ RoutingEngine.best_routing network (RoutingEngine.c_source conn)
                                      (RoutingEngine.c_target conn)
                                      (Some load') 10 = None
  end.
Proof.
  induction requests as [|conn rest IH]; intros routes load;
    cbn [RoutingEngine.motif_loop].
  - exists []. rewrite app_nil_r. split; [reflexivity|]. split; [constructor|].
    split; [intros nm; cbn [routes_hops]; lia|]. split; [congruence | reflexivity].
  - destruct (RoutingEngine.best_routing network _ _ (Some load) 10)
      as [result|] eqn:E.
    + destruct (best_routing_facts _ _ _ _ _ _ E)
        as (Hlv & _ & Hadm & Hal & Hs & _).
      specialize (IH (routes ++ [result]) (RoutingEngine.r_load_vector result)).
      destruct (RoutingEngine.motif_loop network rest (routes ++ [result]) _)
        as [[routes' load']|] eqn:El.
      * destruct IH as (new & Hr & Hf & Hl & Ha & Hlast).
        exists (result :: new). split; [now rewrite Hr, <- app_assoc|].
        split; [constructor; [split; assumption | exact Hf]|].
        split; [|split].
        -- intros nm. rewrite Hl, Hlv, total_load_at. cbn [routes_hops load_or_empty].
           lia.
        -- intros _. destruct rest as [|conn' rest'].
           ++ cbn [RoutingEngine.motif_loop] in El. injection El as _ <-. exact Hal.
           ++ apply Ha. discriminate.
        -- rewrite Hlast. cbn [map]. now rewrite last_cons_default.
      * destruct IH as (done & conn' & rest' & r' & l' & Ho & Hd & Hn).
        exists (conn :: done), conn', rest', r', l'.
        split; [now rewrite Ho|]. split; [|exact Hn].
        cbn [RoutingEngine.motif_loop]. now rewrite E.
    + exists [], conn, rest, routes, load. repeat split; auto.
Qed.

Lemma motif_requests_length conns :
  Forall (fun c => 0 <= RoutingEngine.c_demand c) conns ->
  Z.of_nat (length (flat_map (fun conn => repeat conn
                                (Z.to_nat (RoutingEngine.c_demand conn))) conns))
  = fold_left (fun acc c => acc + RoutingEngine.c_demand c) conns 0.
Proof.
  intros H.
  assert (G : forall acc,
             fold_left (fun acc c => acc + RoutingEngine.c_demand c) conns acc
             = acc + Z.of_nat (length (flat_map
                        (fun conn => repeat conn
                           (Z.to_nat (RoutingEngine.c_demand conn))) conns))).
  { induction H as [|c l Hc Hl IH]; intros acc; cbn [fold_left flat_map length].
    - lia.
    - rewrite IH, length_app, repeat_length. lia. }
  rewrite G. lia.
Qed.

(** X25.  [route_motif] routes every unit of every connection in order,
    each on top of the load left by the previous routes.  On success there
    is one route per unit, each along a simple path between its
    connection's end points; the combined load is the existing load plus
    one unit per traversed edge; the reported cost, headroom, bottleneck
    and admissibility are those of the combined load, which is admissible
    as soon as one unit was routed.  It fails exactly at the first unit
    that [best_routing] cannot place.  With non-negative demands the
    number of units is [total_demand]. *)
Theorem motif_routing_accumulates_load :
  forall network m existing,
    let itfs := interfaces network in
    let requests := RoutingEngine.motif_requests m in
    (Forall (fun c => 0 <= RoutingEngine.c_demand c) (RoutingEngine.connections m) ->
     Z.of_nat (length requests) = RoutingEngine.total_demand m)
    /\ match RoutingEngine.route_motif network m existing with
       | Some res =>
           RoutingEngine.motif res = m
           /\ Forall2 (fun conn r =>
                         simple_path network (RoutingEngine.c_source conn)
                                     (RoutingEngine.c_target conn) 15
                                     (RoutingEngine.r_path r)
                         /\ RoutingEngine.r_is_admissible r = true)
                      requests (RoutingEngine.routes res)
           /\ (forall nm,
                  lv_get (RoutingEngine.combined_load res) nm
                  = lv_get (load_or_empty existing) nm
                    + routes_hops (RoutingEngine.routes res) nm)
           /\ RoutingEngine.m_total_cost res
              = UnifiedV4.total_cost (RoutingEngine.combined_load res) itfs
           /\ (RoutingEngine.m_min_headroom res, RoutingEngine.m_bottleneck res)
              = min_headroom (RoutingEngine.combined_load res) itfs
           /\ RoutingEngine.m_is_admissible res
              = is_admissible (RoutingEngine.combined_load res) itfs
           /\ (requests <> [] -> RoutingEngine.m_is_admissible res = true)
       | None =>
           exists done conn rest routes load,
             requests = done ++ conn :: rest
             /\ RoutingEngine.motif_loop network done [] (load_or_empty existing)
                = Some (routes, load)
             /\ RoutingEngine.best_routing network (RoutingEngine.c_source conn)
                                           (RoutingEngine.c_target conn)
                                           (Some load) 10 = None
       end.
Proof.
  intros network m existing itfs requests. split.
  - intros H. unfold requests, RoutingEngine.motif_requests,
      RoutingEngine.total_demand. now apply motif_requests_length.
  - unfold RoutingEngine.route_motif. fold requests. fold itfs.
    fold (load_or_empty existing).
    pose proof (motif_loop_spec network requests [] (load_or_empty existing)) as S.
    destruct (RoutingEngine.motif_loop network requests [] (load_or_empty existing))
      as [[routes load]|]; [|exact S].
    destruct S as (new & Hr & Hf & Hl & Ha & _). cbn [app] in Hr. subst new.
    fold (min_headroom load itfs).
    pose proof (min_headroom_slack load itfs) as Hs.
    destruct (min_headroom load itfs) as [h bn] eqn:Em. cbn [fst] in Hs.
    cbn [RoutingEngine.motif RoutingEngine.routes RoutingEngine.combined_load
         RoutingEngine.m_total_cost RoutingEngine.m_min_headroom
         RoutingEngine.m_bottleneck RoutingEngine.m_is_admissible].
    split; [reflexivity|]. split; [exact Hf|]. split; [exact Hl|].
    split; [reflexivity|]. split; [now rewrite Em|]. split; [exact Hs|].
    intros Hne. rewrite Hs. apply is_admissible_iff. now apply Ha.
Qed.

(** ** Routing with a certified bound (V4) *)

Lemma py_min_by_snoc {A} (key : A -> Q) first rest x :
  UnifiedV4.py_min_by key first (rest ++ [x])
  = if Qlt_bool (key x) (key (UnifiedV4.py_min_by key first rest))
    then x else UnifiedV4.py_min_by key first rest.
Proof. unfold UnifiedV4.py_min_by. now rewrite fold_left_app. Qed.

Lemma py_min_by_In {A} (key : A -> Q) first rest :
  In (UnifiedV4.py_min_by key first rest) (first :: rest).
Proof.
  induction rest as [|x l IH] using rev_ind.
  - now left.
  - rewrite py_min_by_snoc. destruct (Qlt_bool _ _).
    + right. apply in_or_app. right. now left.
    + destruct IH as [IH|IH]; [now left|]. right. apply in_or_app. now left.
Qed.

Section OptimalSelection.
Variables (itfs : list Interface) (ob : Obligation) (existing : LoadVector).

Let adm (p : Path) : bool :=
  is_admissible (hypothetical_load existing p (demand ob)) itfs.
Let c (p : Path) : Q :=
  UnifiedV4.total_cost (hypothetical_load existing p (demand ob)) itfs.
Let collect (solutions : list (Path * Q)) (p : Path) : list (Path * Q) :=
  if adm p then solutions ++ [(p, c p)] else solutions.
Let chosen (solutions : list (Path * Q)) : option Path :=
  match solutions with
  | [] => None
  | first :: rest => Some (fst (UnifiedV4.py_min_by snd first rest))
  end.
Let priced (solutions : list (Path * Q)) : Prop :=
  Forall (fun s => snd s = c (fst s)) solutions.

Lemma collect_select paths : forall solutions,
  priced solutions ->
  priced (fold_left collect paths solutions)
  /\ fold_left (select_step adm c) paths (chosen solutions)
     = chosen (fold_left collect paths solutions)
  /\ (forall s, In s (fold_left collect paths solutions) ->
                In s solutions \/ (In (fst s) paths /\ adm (fst s) = true)).
Proof.
  induction paths as [|p l IH]; intros solutions Hp; cbn [fold_left].
  - split; [exact Hp|]. split; [reflexivity | now left].
  - assert (Hp' : priced (collect solutions p)).
    { unfold collect. destruct (adm p); [|exact Hp].
      apply Forall_app. split; [exact Hp|]. constructor; [reflexivity|constructor]. }
    destruct (IH (collect solutions p) Hp') as (H1 & H2 & H3).
    split; [exact H1|]. split.
    + rewrite <- H2. f_equal. unfold select_step, collect, chosen.
      destruct (adm p) eqn:Ea; cbn [andb]; [|reflexivity].
      destruct solutions as [|first rest]; [reflexivity|].
      cbn [app]. rewrite py_min_by_snoc. cbn [snd].
      pose proof (py_min_by_In snd first rest) as Hin.
      unfold priced in Hp. rewrite Forall_forall in Hp.
      rewrite (Hp _ Hin). now destruct (Qlt_bool _ _).
    + intros s Hs. destruct (H3 s Hs) as [Hin|[Hin Ha]].
      * unfold collect in Hin. destruct (adm p) eqn:Ea; [|now left].
        apply in_app_or in Hin. destruct Hin as [Hin|[<-|[]]]; [now left|].
        right. split; [now left | exact Ea].
      * right. split; [now right | exact Ha].
Qed.
End OptimalSelection.

(** X26.  [route_obligation_optimal] chooses the same route as
    [route_obligation] of V4 with [max_paths = budget] (both keep the first
    cheapest admissible candidate); the route runs along one of the
    candidates, [best_cost] is the total cost of the load with that route,
    [paths_explored] is the number of candidates and [is_optimal] only says
    whether the method is named exhaustive. *)
Theorem optimal_routing_agrees :
  forall network ob existing method budget,
    let itfs := interfaces network in
    let paths :=
      UnifiedV4.find_all_paths network (source ob) (target ob) None (Some budget) in
    option_map fst
      (UnifiedV4.route_obligation_optimal network ob existing method budget)
    = UnifiedV4.route_obligation network ob existing budget
    /\ match UnifiedV4.route_obligation_optimal network ob existing method budget with
       | Some (r, o) =>
           In (path r) paths
           /\ UnifiedV4.best_cost o
              = UnifiedV4.total_cost
                  (hypothetical_load existing (path r) (demand ob)) itfs
           /\ UnifiedV4.paths_explored o = Z.of_nat (length paths)
           /\ UnifiedV4.is_optimal o = String.eqb method "exhaustive"
       | None => True
       end.
Proof.
  intros network ob existing method budget itfs paths.
  unfold UnifiedV4.route_obligation_optimal. cbv zeta. fold itfs. fold paths.
  destruct (collect_select itfs ob existing paths [] (Forall_nil _))
    as (Hpriced & Hsel & Hmem).
  unfold hypothetical_load in Hpriced, Hsel, Hmem. cbv beta in Hpriced, Hsel, Hmem.
  set (solutions := fold_left _ paths []) in *.
  assert (Hroute : UnifiedV4.route_obligation network ob existing budget
                   = option_map (mkRouted ob)
                       (match solutions with
                        | [] => None
                        | first :: rest =>
                            Some (fst (UnifiedV4.py_min_by snd first rest))
                        end)).
  { unfold UnifiedV4.route_obligation, route_obligation.
    change (UnifiedV4.candidate_paths network (source ob) (target ob) budget)
      with paths. fold itfs.
    pose proof (route_fold_select UnifiedV4.total_cost itfs ob existing paths None)
      as E.
    cbn [option_map] in E. rewrite E. unfold hypothetical_load. cbv beta.
    rewrite Hsel. now destruct solutions. }
  destruct solutions as [|first rest] eqn:Es.
  - split; [now rewrite Hroute | exact I].
  - pose proof (py_min_by_In snd first rest) as Hin.
    destruct (UnifiedV4.py_min_by snd first rest) as [best_path best_cost] eqn:Eb.
    cbn [option_map fst] in *. split; [now rewrite Hroute|].
    cbn [path UnifiedV4.best_cost UnifiedV4.paths_explored UnifiedV4.is_optimal
         UnifiedV4.lower_bound UnifiedV4.optimality_gap].
    destruct (Hmem _ Hin) as [[]|[Hpath Hadm]]. cbn [fst] in Hpath, Hadm.
    rewrite Forall_forall in Hpriced. pose proof (Hpriced _ Hin) as Hcost.
    cbn [fst snd] in Hcost.
    split; [exact Hpath|]. split; [exact Hcost|]. split; [reflexivity|].
    now rewrite Z.eqb_refl, andb_true_r.
Qed.

(** ** The reports of the floor estimator of V4 *)

Lemma v4_route_obligation_facts network ob existing max_paths r :
  UnifiedV4.route_obligation network ob existing max_paths = Some r ->
  obligation r = ob
  /\ admissible_load (hypothetical_load existing (path r) (demand ob))
                     (interfaces network).
Proof.
  intros H.
  pose proof (route_obligation_spec UnifiedV4.total_cost
                UnifiedV4.candidate_paths network ob existing max_paths) as S.
  cbv zeta in S. unfold UnifiedV4.route_obligation in H. rewrite H in S.
  destruct S as [Hob Hfc]. split; [exact Hob|].
  apply is_admissible_iff. exact (proj1 Hfc).
Qed.

Lemma v4_admitted_load_admissible network ob active routed :
  UnifiedV4.route_obligation network ob (compute_load_from_routed active) 10
  = Some routed ->
  admissible_load (compute_load_from_routed (active ++ [routed]))
                  (interfaces network).
Proof.
  intros H. destruct (v4_route_obligation_facts _ _ _ _ _ H) as (Hob & Hadm).
  eapply admissible_load_ext; [|exact Hadm].
  intros nm. rewrite hypothetical_load_get, !compute_load_get, routed_load_app.
  cbn [routed_load]. rewrite Hob. lia.
Qed.

Lemma interfaces_get net itf :
  In itf (interfaces net) -> get_interface net (name itf) = Some itf.
Proof.
  destruct (registry_fold (edges net) [] (fun _ => True)
              (NoDup_nil _) (Forall_nil _)) as (Hnd & Hall & _ & _);
    [intros; exact I|].
  cbv zeta in Hnd, Hall. fold (interfaces_dict net) in Hnd, Hall.
  unfold interfaces, get_interface, PyDict.values.
  intros Hin. apply in_map_iff in Hin. destruct Hin as ([k x] & E & Hin).
  cbn [snd] in E. subst x. rewrite Forall_forall in Hall.
  destruct (Hall _ Hin) as [Hk _]. cbn [fst snd] in Hk. subst k.
  revert Hnd Hin. generalize (interfaces_dict net) as d.
  induction d as [|[k' x'] r IH]; intros Hnd Hin; [destruct Hin|].
  cbn [PyDict.keys map fst] in Hnd. inversion Hnd as [|? ? Hnot Hr]; subst.
  cbn [PyDict.get]. destruct Hin as [E|Hin].
  - inversion E; subst. now rewrite String.eqb_refl.
  - destruct (String.eqb k' (name itf)) eqn:E.
    + apply String.eqb_eq in E. subst k'. exfalso. apply Hnot.
      change (name itf) with (fst (name itf, itf)). now apply in_map.
    + now apply IH.
Qed.

Lemma min_headroom_name load itfs :
  match itfs with
  | [] => snd (min_headroom load itfs) = EmptyString
  | _ :: _ => exists itf, In itf itfs /\ snd (min_headroom load itfs) = name itf
  end.
Proof.
  unfold min_headroom.
  pose proof (min_headroom_fold_select load itfs None) as E.
  cbn [option_map] in E. rewrite E. clear E. cbv zeta. cbn [snd].
  pose proof (select_spec (fun _ : Interface => true)
                          (fun i => headroom i (lv_get load (name i))) itfs) as S.
  destruct (fold_left (select_step _ _) itfs None) as [p|].
  - pose proof (first_cheapest_In _ _ _ _ S) as Hin.
    destruct itfs as [|x l]; [destruct Hin|]. exists p. split; [exact Hin|reflexivity].
  - destruct itfs as [|x l]; [reflexivity|].
    specialize (S x (or_introl eq_refl)). discriminate.
Qed.

Lemma v4_total_cost_nonneg L itfs :
  (forall itf, In itf itfs -> (0 <= epsilon itf)%Q /\ (0 <= eta itf)%Q) ->
  (0 <= UnifiedV4.total_cost L itfs)%Q.
Proof.
  induction itfs as [|itf r IH]; intros Hco.
  - unfold UnifiedV4.total_cost. cbn. lra.
  - rewrite v4_total_cost_cons.
    destruct (Hco itf (or_introl eq_refl)) as [He Hh].
    pose proof (cost_nonneg itf (lv_get L (name itf)) He Hh).
    assert (0 <= UnifiedV4.total_cost L r)%Q
      by (apply IH; intros i Hi; apply Hco; now right).
    lra.
Qed.

Lemma v4_relaxation_report_sound network K t active new_load act :
  (forall itf, In itf (interfaces network) ->
               (0 <= epsilon itf)%Q /\ (0 <= eta itf)%Q) ->
  new_load = compute_load_from_routed active ->
  admissible_load new_load (interfaces network) ->
  (t + 1) mod K = 0 -> Z.of_nat (length active) = t + 1 -> (0 <= act)%Q ->
  exists relaxed state,
    UnifiedV4.relaxation_report network t active new_load act
    = Returned (relaxed, state)
    /\ length relaxed = length active
    /\ UnifiedV4.time_step state = t
    /\ UnifiedV4.action state = act
    /\ v4_sound_report K state.
Proof.
  intros Hco -> Hadm Hdue Hlen Hact.
  unfold UnifiedV4.relaxation_report, UnifiedV4.relax_routing. cbv zeta.
  cbn [UnifiedV4.py_or].
  set (itfs := interfaces network) in *.
  set (st := relax_run UnifiedV4.total_cost UnifiedV4.candidate_paths
                       network active UnifiedV4.MAX_RELAX_ITERS).
  pose proof (relax_run_cost UnifiedV4.total_cost UnifiedV4.candidate_paths
                network active UnifiedV4.MAX_RELAX_ITERS) as Hc.
  pose proof (relax_run_admissible UnifiedV4.total_cost UnifiedV4.candidate_paths
                network active UnifiedV4.MAX_RELAX_ITERS Hadm) as Hres.
  destruct (relax_run_inv UnifiedV4.total_cost UnifiedV4.candidate_paths
              network active UnifiedV4.MAX_RELAX_ITERS) as (Hcur & _).
  destruct (relax_run_same UnifiedV4.total_cost UnifiedV4.candidate_paths
              network active UnifiedV4.MAX_RELAX_ITERS) as (Hsame & _).
  cbv zeta in Hc, Hsame. fold st in Hc, Hres, Hcur, Hsame. fold itfs in Hc, Hres, Hcur.
  pose proof (v4_total_cost_nonneg (current_load st) itfs Hco) as Hnn.
  pose proof (min_headroom_name (current_load st) itfs) as Hbn.
  destruct (min_headroom (current_load st) itfs) as [h bn]. cbn [snd] in Hbn.
  assert (Hsound : forall sigma,
             (0 <= sigma)%Q -> (sigma < 1)%Q ->
             v4_sound_report K
               (UnifiedV4.mkLambda t
                  (UnifiedV4.total_cost (compute_load_from_routed active) itfs)
                  (UnifiedV4.total_cost (current_load st) itfs) sigma bn act
                  (UnifiedV4.total_cost (compute_load_from_routed active) itfs
                   - current_cost st)
                  (Z.of_nat (length (current st))))).
  { intros sigma H0 H1. unfold v4_sound_report.
    cbn [UnifiedV4.time_step UnifiedV4.n_obligations UnifiedV4.relaxation_savings
         UnifiedV4.raw_cost UnifiedV4.lambda_E UnifiedV4.lambda_sigma
         UnifiedV4.action].
    split; [exact Hdue|]. split; [rewrite Hsame; exact Hlen|].
    split; [now rewrite Hcur|]. repeat split; assumption. }
  destruct itfs as [|x l] eqn:Eitfs.
  - subst bn.
    assert (Hnone : get_interface network EmptyString = None).
    { destruct (get_interface network EmptyString) as [i|] eqn:Eg; [|reflexivity].
      unfold get_interface in Eg. apply get_In in Eg.
      assert (Hi : In i (interfaces network)).
      { unfold interfaces, PyDict.values. apply in_map_iff.
        exists (EmptyString, i). split; [reflexivity | exact Eg]. }
      fold itfs in Hi. rewrite Eitfs in Hi. destruct Hi. }
    rewrite Hnone. eexists _, _. split; [reflexivity|].
    split; [exact Hsame|]. split; [reflexivity|]. split; [reflexivity|].
    apply Hsound; lra.
  - destruct Hbn as (itf & Hin & ->).
    assert (Hin' : In itf (interfaces network)) by (fold itfs; now rewrite Eitfs).
    rewrite (interfaces_get network itf Hin').
    destruct (Hco itf Hin) as [He Hh].
    destruct (spent_fraction_below_one (current_load st) itf He Hh (Hres itf Hin))
      as [S0 S1].
    assert (Hcap : (0 < capacity itf)%Q).
    { specialize (Hres itf Hin). unfold headroom, EPS_SLACK in Hres.
      pose proof (cost_nonneg itf (lv_get (current_load st) (name itf)) He Hh).
      assert ((0 < 1 # 1000000)%Q) by reflexivity. lra. }
    unfold spent_fraction in S0, S1.
    assert (Eq : Qlt_bool 0 (capacity itf) = true) by (now apply Qlt_bool_iff).
    rewrite Eq in S0, S1.
    destruct (Qeq_bool (capacity itf) 0) eqn:E0.
    + apply Qeq_bool_iff in E0. lra.
    + eexists _, _. split; [reflexivity|].
      split; [exact Hsame|]. split; [reflexivity|]. split; [reflexivity|].
      apply Hsound; assumption.
Qed.

Lemma v4_floor_loop_reports network K :
  (forall itf, In itf (interfaces network) ->
               (0 <= epsilon itf)%Q /\ (0 <= eta itf)%Q) ->
  forall stream t st,
    Forall (v4_sound_report K) (UnifiedV4.history st) ->
    StronglySorted Qle (map UnifiedV4.action (UnifiedV4.history st)) ->
    Forall (fun s => (UnifiedV4.action s <= UnifiedV4.fs_action st)%Q)
           (UnifiedV4.history st) ->
    StronglySorted Z.lt (map UnifiedV4.time_step (UnifiedV4.history st)) ->
    Forall (fun s => UnifiedV4.time_step s < t) (UnifiedV4.history st) ->
    (0 <= UnifiedV4.fs_action st)%Q ->
    Z.of_nat (length (UnifiedV4.active_routed st)) = t ->
    match UnifiedV4.floor_loop network K t stream st with
    | Returned reports =>
        Forall (v4_sound_report K) reports
        /\ StronglySorted Qle (map UnifiedV4.action reports)
        /\ StronglySorted Z.lt (map UnifiedV4.time_step reports)
    | Raised _ => K = 0
    end.
Proof.
  intros Hco. induction stream as [|ob rest IH];
    intros t st Hok Hsort Hle Htime Hbefore H0 Hlen;
    cbn [UnifiedV4.floor_loop]; [now repeat split|].
  cbv zeta.
  destruct (UnifiedV4.route_obligation network ob _ 10) as [routed|] eqn:Hr;
    [|now repeat split].
  destruct (K =? 0) eqn:EK; [now apply Z.eqb_eq in EK|].
  pose proof (v4_admitted_load_admissible _ _ _ _ Hr) as Hadm.
  set (active := UnifiedV4.active_routed st ++ [routed]) in *.
  set (new_load := compute_load_from_routed active) in *.
  pose proof (transition_cost_nonneg (UnifiedV4.prev_load st) new_load
                                     (interfaces network)) as Ht.
  set (act := (UnifiedV4.fs_action st
               + transition_cost (UnifiedV4.prev_load st) new_load
                                 (interfaces network))%Q) in *.
  assert (Hact : (0 <= act)%Q) by (unfold act; lra).
  assert (Hlen' : Z.of_nat (length active) = t + 1).
  { unfold active. rewrite length_app. cbn [length]. lia. }
  destruct ((t + 1) mod K =? 0) eqn:Edue.
  - apply Z.eqb_eq in Edue.
    destruct (v4_relaxation_report_sound network K t active new_load act
                Hco eq_refl Hadm Edue Hlen' Hact)
      as (relaxed & state & -> & Hrl & Hst & Hsa & Hsound).
    apply IH; cbn [UnifiedV4.history UnifiedV4.fs_action UnifiedV4.active_routed].
    + apply Forall_app. split; [exact Hok|]. constructor; [exact Hsound|constructor].
    + rewrite map_app. cbn [map]. apply StronglySorted_snoc; [exact Hsort|].
      rewrite Forall_map. rewrite Forall_forall in *. intros s Hs.
      specialize (Hle s Hs). rewrite Hsa. unfold act. lra.
    + apply Forall_app. split.
      * rewrite Forall_forall in *. intros s Hs. specialize (Hle s Hs).
        unfold act. lra.
      * constructor; [rewrite Hsa; lra | constructor].
    + rewrite map_app. cbn [map]. apply StronglySorted_snoc; [exact Htime|].
      rewrite Forall_map. rewrite Forall_forall in *. intros s Hs.
      specialize (Hbefore s Hs). rewrite Hst. exact Hbefore.
    + apply Forall_app. split.
      * rewrite Forall_forall in *. intros s Hs. specialize (Hbefore s Hs). lia.
      * constructor; [rewrite Hst; lia | constructor].
    + exact Hact.
    + rewrite Hrl. exact Hlen'.
  - apply IH; cbn [UnifiedV4.history UnifiedV4.fs_action UnifiedV4.active_routed];
      auto.
    + rewrite Forall_forall in *. intros s Hs. specialize (Hle s Hs).
      unfold act. lra.
    + rewrite Forall_forall in *. intros s Hs. specialize (Hbefore s Hs). lia.
Qed.

(** X27.  The floor estimator of V4 on a network with non-negative
    coefficients.  A ZeroDivisionError comes only from a zero relaxation
    interval (the division by the bottleneck's capacity is never a
    division by zero), and every report it returns is sound: it is taken
    on a step [t] with [(t + 1) % relax_every == 0], counts [t + 1]
    obligations, its savings are the non-negative difference of raw and
    residual cost, its saturation fraction lies in [0, 1); actions never
    decrease and time steps strictly increase along the history. *)
Theorem v4_floor_reports_are_sound :
  forall network stream K,
    (forall itf, In itf (interfaces network) ->
                 (0 <= epsilon itf)%Q /\ (0 <= eta itf)%Q) ->
    match UnifiedV4.estimate_lambda_floor network stream K with
    | Returned reports =>
        Forall (v4_sound_report K) reports
        /\ StronglySorted Qle (map UnifiedV4.action reports)
        /\ StronglySorted Z.lt (map UnifiedV4.time_step reports)
    | Raised e => e = ZeroDivisionError -> K = 0
    end.
Proof.
  intros network stream K Hco. unfold UnifiedV4.estimate_lambda_floor.
  assert (H : match UnifiedV4.floor_loop network K 0 stream
                      (UnifiedV4.mkFloor [] [] 0%Q LoadVector_empty) with
              | Returned reports =>
                  Forall (v4_sound_report K) reports
                  /\ StronglySorted Qle (map UnifiedV4.action reports)
                  /\ StronglySorted Z.lt (map UnifiedV4.time_step reports)
              | Raised _ => K = 0
              end).
  { apply (v4_floor_loop_reports network K Hco stream 0
             (UnifiedV4.mkFloor [] [] 0%Q LoadVector_empty));
      cbn [UnifiedV4.history UnifiedV4.fs_action UnifiedV4.active_routed map length];
      try constructor. lra. }
  destruct (UnifiedV4.floor_loop _ _ _ _ _); [exact H | intros _; exact H].
Qed.

Lemma v4_floor_reports_on_single_edge :
  let network := Examples.single_edge in
  let stream := map (fun i => mkObligation i "A" "B" 1) [0; 1; 2] in
  (forall itf, In itf (interfaces network) ->
               (0 <= epsilon itf)%Q /\ (0 <= eta itf)%Q)
  /\ match UnifiedV4.estimate_lambda_floor network stream 1 with
     | Returned reports =>
         Forall (v4_sound_report 1) reports
         /\ StronglySorted Qle (map UnifiedV4.action reports)
         /\ StronglySorted Z.lt (map UnifiedV4.time_step reports)
     | Raised e => e = ZeroDivisionError -> 1 = 0
     end.
Proof.
  cbv zeta.
  assert (H1 : forall itf, In itf (interfaces Examples.single_edge) ->
                           (0 <= epsilon itf)%Q /\ (0 <= eta itf)%Q).
  { intros itf [<-|[]]. split; vm_compute; congruence. }
  split; [exact H1|].
  exact (v4_floor_reports_are_sound Examples.single_edge
           (map (fun i => mkObligation i "A" "B" 1) [0; 1; 2]) 1 H1).
Defined.

(** ** The breakdown of a routing analysis *)

Lemma fold_set_spec {V} (f : Interface -> V) itfs : forall (base : PyDict.dict V),
  NoDup (PyDict.keys base ++ map name itfs) ->
  let d := fold_left (fun d itf => PyDict.set d (name itf) (f itf)) itfs base in
  PyDict.keys d = PyDict.keys base ++ map name itfs
  /\ (forall itf, In itf itfs -> PyDict.get d (name itf) = Some (f itf))
  /\ (forall k, ~ In k (map name itfs) -> PyDict.get d k = PyDict.get base k).
Proof.
  induction itfs as [|x l IH]; intros base Hnd; cbv zeta; cbn [fold_left map].
  - rewrite app_nil_r. split; [reflexivity|]. split; [intros itf []|reflexivity].
  - cbn [map] in Hnd.
    assert (Hx : ~ In (name x) (PyDict.keys base)).
    { intros H. apply NoDup_remove_2 in Hnd. apply Hnd.
      apply in_or_app. now left. }
    assert (Hxl : ~ In (name x) (map name l)).
    { intros H. apply NoDup_remove_2 in Hnd. apply Hnd.
      apply in_or_app. now right. }
    assert (Hkeys : PyDict.keys (PyDict.set base (name x) (f x))
                    = PyDict.keys base ++ [name x]).
    { rewrite keys_set.
      destruct (PyDict.contains base (name x)) eqn:E; [|reflexivity].
      apply contains_In in E. contradiction. }
    destruct (IH (PyDict.set base (name x) (f x))) as (H1 & H2 & H3).
    { rewrite Hkeys, <- app_assoc. exact Hnd. }
    cbv zeta in H1, H2, H3. split; [|split].
    + rewrite H1, Hkeys, <- app_assoc. reflexivity.
    + intros itf [<-|Hin]; [|now apply H2].
      rewrite (H3 _ Hxl). apply get_set_same.
    + intros k Hk. rewrite H3 by (intros H; apply Hk; now right).
      apply get_set_other. intros E. apply Hk. left. exact E.
Qed.

Lemma analyze_fold_parts L itfs : forall a,
  let a' := fold_left (RoutingEngine.analyze_step L) itfs a in
  RoutingEngine.costs a'
  = fold_left (fun d itf => PyDict.set d (name itf) (cost itf (lv_get L (name itf))))
              itfs (RoutingEngine.costs a)
  /\ RoutingEngine.headrooms a'
     = fold_left (fun d itf =>
                    PyDict.set d (name itf) (headroom itf (lv_get L (name itf))))
                 itfs (RoutingEngine.headrooms a)
  /\ (RoutingEngine.min_headroom a', RoutingEngine.bottleneck a')
     = fold_left
         (fun '(worst_h, bottleneck) itf =>
            let h := headroom itf (lv_get L (name itf)) in
            if match worst_h with None => true | Some w => Qlt_bool h w end
            then (Some h, name itf) else (worst_h, bottleneck))
         itfs (RoutingEngine.min_headroom a, RoutingEngine.bottleneck a).
Proof.
  induction itfs as [|x l IH]; intros a; cbv zeta; cbn [fold_left].
  - repeat split.
  - destruct (IH (RoutingEngine.analyze_step L a x)) as (H1 & H2 & H3).
    cbv zeta in H1, H2, H3. rewrite H1, H2, H3.
    unfold RoutingEngine.analyze_step.
    cbn [RoutingEngine.costs RoutingEngine.headrooms RoutingEngine.min_headroom
         RoutingEngine.bottleneck].
    split; [reflexivity|]. split; [reflexivity|].
    f_equal. destruct (RoutingEngine.min_headroom a) as [w|]; [|reflexivity].
    now destruct (Qlt_bool _ w).
Qed.

(** X28.  [analyze_routing] reports on the load [existing + path]: its
    minimal headroom and bottleneck are those of [min_headroom] on that
    load, its total cost is the sum of the interface costs, and it is
    admissible exactly when [is_admissible] holds.  When the interface
    names are distinct, the [costs] and [headrooms] dictionaries have one
    entry per interface, in the order of the interfaces, holding the cost
    and the headroom of that interface. *)
Theorem routing_analysis_breakdown :
  forall p itfs existing,
    let r := RoutingEngine.analyze_routing p itfs existing in
    let L := total_load existing p in
    RoutingEngine.r_path r = p
    /\ RoutingEngine.r_load_vector r = L
    /\ (RoutingEngine.r_min_headroom r, RoutingEngine.r_bottleneck r)
       = min_headroom L itfs
    /\ RoutingEngine.r_total_cost r = UnifiedV4.total_cost L itfs
    /\ RoutingEngine.r_is_admissible r = is_admissible L itfs
    /\ (NoDup (map name itfs) ->
        PyDict.keys (RoutingEngine.r_costs r) = map name itfs
        /\ PyDict.keys (RoutingEngine.r_headrooms r) = map name itfs
        /\ forall itf, In itf itfs ->
             PyDict.get (RoutingEngine.r_costs r) (name itf)
             = Some (cost itf (lv_get L (name itf)))
             /\ PyDict.get (RoutingEngine.r_headrooms r) (name itf)
                = Some (capacity itf - cost itf (lv_get L (name itf)))%Q).
Proof.
  intros p itfs existing r L.
  destruct (analyze_routing_facts p itfs existing) as (Hp & Hlv & Hadm & Hcost).
  cbv zeta in Hp, Hlv, Hadm, Hcost. fold r in Hp, Hlv, Hadm, Hcost.
  fold L in Hlv, Hadm, Hcost.
  destruct (analyze_fold_parts L itfs
              (RoutingEngine.mkAnalysis [] [] 0%Q None EmptyString))
    as (Hc & Hh & Hm).
  cbv zeta in Hc, Hh, Hm.
  cbn [RoutingEngine.costs RoutingEngine.headrooms RoutingEngine.min_headroom
       RoutingEngine.bottleneck] in Hc, Hh, Hm.
  split; [exact Hp|]. split; [exact Hlv|]. split; [exact Hm|].
  split; [exact Hcost|]. split; [exact Hadm|].
  intros Hnd.
  destruct (fold_set_spec (fun itf => cost itf (lv_get L (name itf))) itfs [] Hnd)
    as (K1 & G1 & _).
  destruct (fold_set_spec (fun itf => headroom itf (lv_get L (name itf))) itfs []
                          Hnd) as (K2 & G2 & _).
  cbv zeta in K1, G1, K2, G2.
  change (RoutingEngine.r_costs r)
    with (RoutingEngine.costs
            (fold_left (RoutingEngine.analyze_step L) itfs
                       (RoutingEngine.mkAnalysis [] [] 0%Q None EmptyString))).
  change (RoutingEngine.r_headrooms r)
    with (RoutingEngine.headrooms
            (fold_left (RoutingEngine.analyze_step L) itfs
                       (RoutingEngine.mkAnalysis [] [] 0%Q None EmptyString))).
  rewrite Hc, Hh. split; [exact K1|]. split; [exact K2|].
  intros itf Hin. split; [now apply G1 | now apply G2].
Qed.

(** ** The two implementations of a history *)

Lemma last_error_map {A B} (f : A -> B) (l : list A) :
  last_error (map f l) = option_map f (last_error l).
Proof.
  destruct l as [|x l] using rev_ind; [reflexivity|].
  rewrite map_app. cbn [map]. now rewrite !last_error_snoc.
Qed.

Lemma append_fields_agree hv ha ld :
  UnifiedV4.h_interfaces hv = AccumulatedCost.h_interfaces ha ->
  map v4_fields (UnifiedV4.steps hv) = map ac_fields (AccumulatedCost.steps ha) ->
  UnifiedV4.h_interfaces (UnifiedV4.append hv ld)
  = AccumulatedCost.h_interfaces (AccumulatedCost.append ha ld)
  /\ map v4_fields (UnifiedV4.steps (UnifiedV4.append hv ld))
     = map ac_fields (AccumulatedCost.steps (AccumulatedCost.append ha ld)).
Proof.
  intros Hi Hs.
  pose proof (f_equal last_error Hs) as Hl. rewrite !last_error_map in Hl.
  unfold UnifiedV4.append, AccumulatedCost.append, AccumulatedCost._make_step.
  rewrite <- Hi.
  destruct (last_error (UnifiedV4.steps hv)) as [pv|];
    destruct (last_error (AccumulatedCost.steps ha)) as [pa|];
    try discriminate; cbn [option_map] in Hl.
  - injection Hl as Hload Htime _ _ _ _.
    destruct (min_headroom ld (UnifiedV4.h_interfaces hv)) as [h bn].
    cbn [UnifiedV4.h_interfaces UnifiedV4.steps AccumulatedCost.h_interfaces
         AccumulatedCost.steps].
    split; [reflexivity|]. rewrite !map_app, Hs. cbn [map]. f_equal.
    unfold v4_fields, ac_fields.
    cbn [UnifiedV4.load UnifiedV4.time UnifiedV4.step_cost
         UnifiedV4.step_admissible UnifiedV4.step_min_headroom
         UnifiedV4.step_bottleneck AccumulatedCost.load AccumulatedCost.time
         AccumulatedCost.step_cost AccumulatedCost.step_admissible
         AccumulatedCost.step_min_headroom AccumulatedCost.step_bottleneck].
    now rewrite Hload, Htime.
  - destruct (min_headroom ld (UnifiedV4.h_interfaces hv)) as [h bn].
    cbn [UnifiedV4.h_interfaces UnifiedV4.steps AccumulatedCost.h_interfaces
         AccumulatedCost.steps].
    split; [reflexivity|]. rewrite !map_app, Hs. reflexivity.
Qed.

(** X29.  The [History] of V4 and the [History] of accumulated_cost.py,
    grown from the same interfaces by appending the same loads, hold the
    same steps: load, time, transition cost, admissibility flag, minimal
    headroom and bottleneck agree step by step. *)
Theorem history_implementations_agree :
  forall itfs lds,
    UnifiedV4.h_interfaces (v4_appended itfs lds)
    = AccumulatedCost.h_interfaces (AccumulatedCost.appended itfs lds)
    /\ map v4_fields (UnifiedV4.steps (v4_appended itfs lds))
       = map ac_fields (AccumulatedCost.steps (AccumulatedCost.appended itfs lds)).
Proof.
  intros itfs lds. induction lds as [|ld lds IH] using rev_ind.
  - split; reflexivity.
  - rewrite v4_appended_snoc, ac_appended_snoc.
    destruct IH as [Hi Hs]. now apply append_fields_agree.
Qed.

(** ** Ticks of emergent time *)

(** * The code over binary64 *)

(** ** Literals and conversions *)

Section Binary64Literals.
Import PrimFloat.

(** The constants of the code and some decimal literals, against the
    doubles that Python prints for them with [float.hex]. *)
Example to_float_of_literals :
  Binary64.to_float EPS_SLACK = 0x1.0c6f7a0b5ed8dp-20%float
  /\ Binary64.to_float EPS_COST = 0x1.12e0be826d695p-30%float
  /\ Binary64.to_float ETA_ZERO = 0x1.19799812dea11p-40%float
  /\ Binary64.to_float (1 # 10) = 0x1.999999999999ap-4%float
  /\ Binary64.to_float (18 # 5) = 0x1.ccccccccccccdp+1%float
  /\ Binary64.to_float (-1 # 3) = (-0x1.5555555555555p-2)%float
  /\ Binary64.to_float (1 # 2) = 0.5%float
  /\ Binary64.to_float 8 = 8%float.
Proof. repeat split; vm_compute; reflexivity. Qed.

(** [0.1 * 3] is not [0.3], and four units at [0.1] cost less than one
    more unit over three. *)
Example rounding_is_felt :
  Binary64.cost (mkInterface "I" 8 (1 # 10) 0) 3
  = Returned 0x1.3333333333334p-2%float
  /\ Binary64.to_float (3 # 10) = 0x1.3333333333333p-2%float
  /\ Binary64.cost (mkInterface "I" 8 (1 # 10) 0) 4
     = Returned 0x1.999999999999ap-2%float.
Proof. repeat split; vm_compute; reflexivity. Qed.

(** [FLOAT_OVERFLOW] is the first integer that rounds to an infinity; the
    integer before it rounds to the largest double. *)
Example float_overflow_is_the_threshold :
  Binary64.round Binary64.FLOAT_OVERFLOW 0 = infinity
  /\ Binary64.round (Binary64.FLOAT_OVERFLOW - 1) 0
     = 0x1.fffffffffffffp+1023%float
  /\ Binary64.float_of_int (Binary64.FLOAT_OVERFLOW - 1)
     = Returned 0x1.fffffffffffffp+1023%float
  /\ Binary64.float_of_int Binary64.FLOAT_OVERFLOW = Raised OverflowError.
Proof. repeat split; vm_compute; reflexivity. Qed.

(** [int] truncates towards zero and refuses an infinity and a NaN. *)
Example int_of_float_truncates :
  Binary64.int_of_float 2.75%float = Returned 2
  /\ Binary64.int_of_float (-2.75)%float = Returned (-2)
  /\ Binary64.int_of_float 0x1.93e5939a08ceap+99%float = Returned (10 ^ 30 + 19884624838656)
  /\ Binary64.int_of_float infinity = Raised OverflowError
  /\ Binary64.int_of_float nan = Raised ValueError.
Proof. repeat split; vm_compute; reflexivity. Qed.

End Binary64Literals.

(** ** The largest feasible load *)

(** C6, at the failing input.  On the interface of the spec's scenario,
    [{capacity = 8, linear = 1, quadratic = 0.5}], [max_n] answers 4 in
    every file, with [cost(4) = 7 <= 8 < cost(5)].  But it is not always
    the largest [n] with [cost(n) <= capacity], although the positive root
    of the quadratic is what it computes: the root is rounded.  On
    [Interface("I", 3.6, 1.0, 0.2)] it answers 2 although three units cost
    [3.6 <= 3.6]; with capacity [7 - 2^-50], linear coefficient 1 and
    quadratic coefficient 0.5 it answers 4 although four units cost 7,
    more than the capacity; and with capacity [1e308] and a linear
    coefficient [1e-308] alone the quotient is infinite and [int] raises
    OverflowError. *)
Theorem max_n_misses_the_largest_feasible_load :
  (Binary64.max_n Examples.I1 = Returned 4
   /\ Binary64.V4.max_n Examples.I1 = Returned 4
   /\ Binary64.cost Examples.I1 4 = Returned (Binary64.to_float 7)
   /\ feasible Examples.I1 4
   /\ ~ feasible Examples.I1 5)
  /\ (let itf := mkInterface "I" (18 # 5) 1 (1 # 5) in
      (0 < epsilon itf)%Q /\ (0 <= eta itf)%Q
      /\ Binary64.max_n itf = Returned 2
      /\ Binary64.V4.max_n itf = Returned 2
      /\ feasible itf 3)
  /\ (let itf := mkInterface "I" (7 - (1 # 2 ^ 50)) 1 (1 # 2) in
      (0 < epsilon itf)%Q /\ (0 <= eta itf)%Q
      /\ Binary64.max_n itf = Returned 4
      /\ Binary64.V4.max_n itf = Returned 4
      /\ Binary64.cost itf 4 = Returned (Binary64.to_float 7)
      /\ ~ feasible itf 4)
  /\ (let itf := mkInterface "I" (10 ^ 308) (1 # 10 ^ 308) 0 in
      (0 < epsilon itf)%Q /\ (0 <= eta itf)%Q
      /\ Binary64.max_n itf = Raised OverflowError
      /\ Binary64.V4.max_n itf = Raised OverflowError).
Proof.
  assert (Hno : forall itf n c,
             Binary64.cost itf n = Returned c ->
             PrimFloat.leb c (Binary64.to_float (capacity itf)) = false ->
             ~ feasible itf n).
  { intros itf n c Hc Hle (c' & Hc' & Hle'). congruence. }
  split; [|split; [|split]]; cbv zeta.
  - split; [vm_compute; reflexivity|]. split; [vm_compute; reflexivity|].
    split; [vm_compute; reflexivity|]. split.
    + eexists. split; vm_compute; reflexivity.
    + eapply Hno; vm_compute; reflexivity.
  - split; [reflexivity|]. split; [discriminate|].
    split; [vm_compute; reflexivity|]. split; [vm_compute; reflexivity|].
    eexists. split; vm_compute; reflexivity.
  - split; [reflexivity|]. split; [discriminate|].
    split; [vm_compute; reflexivity|]. split; [vm_compute; reflexivity|].
    split; [vm_compute; reflexivity|].
    eapply Hno; vm_compute; reflexivity.
  - split; [vm_compute; reflexivity|]. split; [discriminate|].
    split; vm_compute; reflexivity.
Qed.

(** ** The order of binary64 numbers

    [<] on floats is transitive, and a number that is not below [b] is
    above everything below [b]; a NaN compares with nothing. *)

Lemma SFcompare_finite_lt s1 m1 e1 s2 m2 e2 :
  SpecFloat.SFcompare (SpecFloat.S754_finite s1 m1 e1)
                      (SpecFloat.S754_finite s2 m2 e2) = Some Lt
  <-> match s1, s2 with
      | true, false => True
      | false, true => False
      | false, false => e1 < e2 \/ (e1 = e2 /\ (m1 < m2)%positive)
      | true, true => e2 < e1 \/ (e1 = e2 /\ (m2 < m1)%positive)
      end.
Proof.
  cbn [SpecFloat.SFcompare].
  change (Pos.compare_cont Eq m1 m2) with (Pos.compare m1 m2).
  destruct s1, s2;
    try (split; [intros Hx; try exact I; discriminate
                | intros Hx; try reflexivity; contradiction]).
  - destruct (Z.compare_spec e1 e2), (Pos.compare_spec m1 m2); cbn [CompOpp];
      split; intros Hx; try discriminate; try reflexivity; try lia.
  - destruct (Z.compare_spec e1 e2), (Pos.compare_spec m1 m2);
      split; intros Hx; try discriminate; try reflexivity; try lia.
Qed.

Ltac sf_cases :=
  repeat match goal with
         | s : bool |- _ => destruct s
         end;
  cbn [SpecFloat.SFcompare] in *;
  try discriminate; try reflexivity; try congruence.

Lemma SFcompare_lt_trans x y z :
  SpecFloat.SFcompare x y = Some Lt -> SpecFloat.SFcompare y z = Some Lt ->
  SpecFloat.SFcompare x z = Some Lt.
Proof.
  destruct x as [sx|sx| |sx mx ex], y as [sy|sy| |sy my ey],
           z as [sz|sz| |sz mz ez];
    try (sf_cases; fail).
  rewrite !SFcompare_finite_lt. destruct sx, sy, sz; try tauto; lia.
Qed.

Lemma SFcompare_lt_total x y z :
  SpecFloat.SFcompare x y = Some Lt -> SpecFloat.SFcompare z y <> Some Lt ->
  z <> SpecFloat.S754_nan ->
  SpecFloat.SFcompare x z = Some Lt.
Proof.
  destruct x as [sx|sx| |sx mx ex], y as [sy|sy| |sy my ey],
           z as [sz|sz| |sz mz ez];
    try (intros H1 H2 H3; sf_cases;
         try (exfalso; apply H2; reflexivity);
         try (exfalso; apply H3; reflexivity); fail).
  rewrite !SFcompare_finite_lt. destruct sx, sy, sz; try tauto; try lia.
Qed.

Lemma SFcompare_lt_asym x y :
  SpecFloat.SFcompare x y = Some Lt -> SpecFloat.SFcompare y x = Some Gt.
Proof.
  destruct x as [sx|sx| |sx mx ex], y as [sy|sy| |sy my ey];
    try (sf_cases; fail).
  cbn [SpecFloat.SFcompare].
  change (Pos.compare_cont Eq mx my) with (Pos.compare mx my).
  change (Pos.compare_cont Eq my mx) with (Pos.compare my mx).
  rewrite (Z.compare_antisym ex ey), (Pos.compare_antisym mx my).
  destruct sx, sy, (Z.compare ex ey), (Pos.compare mx my); cbn [CompOpp];
    congruence.
Qed.

Lemma SFcompare_refl x : x <> SpecFloat.S754_nan -> SpecFloat.SFcompare x x = Some Eq.
Proof.
  destruct x as [s|s| |s m e]; intros H; try congruence; cbn [SpecFloat.SFcompare].
  - now destruct s.
  - now destruct s.
  - change (Pos.compare_cont Eq m m) with (Pos.compare m m).
    rewrite Z.compare_refl, Pos.compare_refl. now destruct s.
Qed.

Lemma SFltb_Lt x y :
  SpecFloat.SFltb x y = true <-> SpecFloat.SFcompare x y = Some Lt.
Proof.
  unfold SpecFloat.SFltb.
  destruct (SpecFloat.SFcompare x y) as [[]|]; split; congruence.
Qed.

Lemma b64_eqb_refl_nan c :
  PrimFloat.eqb c c = true <-> FloatOps.Prim2SF c <> SpecFloat.S754_nan.
Proof.
  rewrite FloatAxioms.eqb_spec. unfold SpecFloat.SFeqb. split.
  - intros H E. rewrite E in H. discriminate.
  - intros H. now rewrite SFcompare_refl.
Qed.

Lemma b64_ltb_trans a b c :
  PrimFloat.ltb a b = true -> PrimFloat.ltb b c = true ->
  PrimFloat.ltb a c = true.
Proof.
  rewrite !FloatAxioms.ltb_spec, !SFltb_Lt. apply SFcompare_lt_trans.
Qed.

Lemma b64_ltb_total a b c :
  PrimFloat.ltb a b = true -> PrimFloat.ltb c b = false ->
  PrimFloat.eqb c c = true ->
  PrimFloat.ltb a c = true.
Proof.
  rewrite b64_eqb_refl_nan, !FloatAxioms.ltb_spec, !SFltb_Lt.
  intros H1 H2 H3. apply (SFcompare_lt_total _ _ _ H1); [|exact H3].
  intros H. apply SFltb_Lt in H. congruence.
Qed.

Lemma b64_ltb_not_leb a b :
  PrimFloat.ltb a b = true -> PrimFloat.leb b a = false.
Proof.
  rewrite FloatAxioms.ltb_spec, FloatAxioms.leb_spec, SFltb_Lt.
  intros H. unfold SpecFloat.SFleb. now rewrite (SFcompare_lt_asym _ _ H).
Qed.

Lemma b64_nan_not_leb a b :
  PrimFloat.eqb a a = false -> PrimFloat.leb a b = false.
Proof.
  rewrite FloatAxioms.eqb_spec, FloatAxioms.leb_spec.
  unfold SpecFloat.SFeqb, SpecFloat.SFleb.
  destruct (FloatOps.Prim2SF a) as [s|s| |s m e] eqn:E; try reflexivity;
    intros H; exfalso;
    rewrite SFcompare_refl in H by discriminate; discriminate.
Qed.

(** ** Admission over binary64

    Within the float range nothing raises: [cost] converts its load, and
    every other operation of the admission functions is a float operation
    or a comparison. *)

Lemma float_overflow_positive : 0 < Binary64.FLOAT_OVERFLOW.
Proof. vm_compute. reflexivity. Qed.

Lemma b64_cost_returns itf n :
  n < Binary64.FLOAT_OVERFLOW -> exists c, Binary64.cost itf n = Returned c.
Proof.
  intros H. unfold Binary64.cost.
  destruct (n <=? 0) eqn:E; [eauto|]. apply Z.leb_gt in E.
  unfold Binary64.float_of_int.
  assert (E1 : (Binary64.FLOAT_OVERFLOW <=? Z.abs n) = false)
    by (apply Z.leb_gt; lia).
  assert (E2 : (Binary64.FLOAT_OVERFLOW <=? Z.abs (n - 1)) = false)
    by (apply Z.leb_gt; lia).
  rewrite E1, E2. cbn [Binary64.bind]. eauto.
Qed.

Lemma b64_cost_raises itf n :
  Binary64.FLOAT_OVERFLOW <= n -> Binary64.cost itf n = Raised OverflowError.
Proof.
  intros H. pose proof float_overflow_positive as P. unfold Binary64.cost.
  destruct (n <=? 0) eqn:E; [apply Z.leb_le in E; lia|].
  unfold Binary64.float_of_int.
  assert (E1 : (Binary64.FLOAT_OVERFLOW <=? Z.abs n) = true)
    by (apply Z.leb_le; lia).
  rewrite E1. reflexivity.
Qed.

Lemma lv_get_in_range L nm :
  in_float_range L -> lv_get L nm < Binary64.FLOAT_OVERFLOW.
Proof.
  destruct L as [d]. unfold in_float_range, lv_get, PyDict.get_default.
  cbn [loads]. induction d as [|[k v] r IH]; intros H; cbn [PyDict.get].
  - exact float_overflow_positive.
  - inversion H as [|? ? Hv Hr]; subst.
    destruct (String.eqb k nm); [exact Hv | now apply IH].
Qed.

Lemma b64_headroom_returns itf n :
  n < Binary64.FLOAT_OVERFLOW -> exists h, Binary64.headroom itf n = Returned h.
Proof.
  intros H. unfold Binary64.headroom.
  destruct (b64_cost_returns itf n H) as [c ->]. cbn [Binary64.bind]. eauto.
Qed.

Lemma b64_is_admissible_returns L itfs :
  in_float_range L -> exists b, Binary64.is_admissible L itfs = Returned b.
Proof.
  intros H. induction itfs as [|i r IH]; cbn [Binary64.is_admissible]; [eauto|].
  destruct (b64_headroom_returns i (lv_get L (name i)) (lv_get_in_range _ _ H))
    as [h ->].
  cbn [Binary64.bind]. destruct (PrimFloat.leb _ _); eauto.
Qed.

Lemma b64_total_cost_returns L itfs :
  in_float_range L -> exists c, Binary64.total_cost L itfs = Returned c.
Proof.
  intros H. unfold Binary64.total_cost. cbv zeta.
  match goal with
  | |- exists c, fold_left ?f _ (Returned ?z) = _ => set (F := f); generalize z
  end.
  unfold in_float_range in H.
  induction H as [|[nm n] r Hn Hr IH]; intros a; cbn [fold_left]; [eauto|].
  assert (Hstep : exists a', F (Returned a) (nm, n) = Returned a').
  { unfold F. cbn [Binary64.bind].
    destruct (PyDict.get _ nm) as [itf|]; [|eauto].
    cbn [snd] in Hn. destruct (b64_cost_returns itf n Hn) as [c ->].
    cbn [Binary64.bind]. eauto. }
  destruct Hstep as [a' ->]. apply IH.
Qed.

Lemma b64_is_admissible_true L itfs :
  Binary64.is_admissible L itfs = Returned true <-> b64_admissible_load L itfs.
Proof.
  unfold b64_admissible_load.
  induction itfs as [|i r IH]; cbn [Binary64.is_admissible].
  - split; [intros _ itf [] | reflexivity].
  - destruct (Binary64.headroom i (lv_get L (name i))) as [h|e] eqn:Eh;
      cbn [Binary64.bind].
    + destruct (PrimFloat.leb h (Binary64.to_float EPS_SLACK)) eqn:El.
      * split; [discriminate|]. intros H.
        destruct (H i (or_introl eq_refl)) as (h' & Hh & Hl). congruence.
      * rewrite IH. split.
        -- intros H itf [<-|Hin]; [eauto | now apply H].
        -- intros H itf Hin. apply H. now right.
    + split; [discriminate|]. intros H.
      destruct (H i (or_introl eq_refl)) as (h' & Hh & _). congruence.
Qed.

Lemma b64_is_admissible_false L itfs :
  Binary64.is_admissible L itfs = Returned false -> ~ b64_admissible_load L itfs.
Proof.
  intros H Hadm. apply b64_is_admissible_true in Hadm. congruence.
Qed.

(** The loop that keeps the first strictly cheapest admissible candidate,
    as [route_obligation] and [best_routing] run it: [chosen] and
    [best_cost] read the loop's state, [kept] is what the loop maintains
    besides. *)
Section B64Selection.
Variables A S : Type.
Variable adm : A -> outcome bool.
Variable c : A -> outcome PrimFloat.float.
Variable step : outcome S -> A -> outcome S.
Variable chosen : S -> option A.
Variable best_cost : S -> PrimFloat.float.
Variable kept : S -> Prop.
Variable all : list A.

Hypothesis step_spec :
  forall s x,
    In x all -> kept s ->
    exists ok,
      adm x = Returned ok
      /\ if ok
         then exists cx,
             c x = Returned cx
             /\ if PrimFloat.ltb cx (best_cost s)
                then exists s', step (Returned s) x = Returned s'
                                /\ chosen s' = Some x /\ best_cost s' = cx
                                /\ kept s'
                else step (Returned s) x = Returned s
         else step (Returned s) x = Returned s.

Let selected (done : list A) (s : S) : Prop :=
  kept s
  /\ match chosen s with
     | Some p => b64_first_cheapest adm c done p /\ c p = Returned (best_cost s)
     | None =>
         best_cost s = PrimFloat.infinity
         /\ forall q, In q done ->
                      adm q = Returned false
                      \/ exists cq, c q = Returned cq
                                    /\ PrimFloat.ltb cq PrimFloat.infinity = false
     end.

Lemma b64_select_step done s x :
  In x all -> selected done s ->
  exists s', step (Returned s) x = Returned s' /\ selected (done ++ [x]) s'.
Proof.
  intros Hx [Hk Hs].
  destruct (step_spec s x Hx Hk) as (ok & Hadm & Hstep).
  destruct ok.
  - destruct Hstep as (cx & Hcx & Hstep).
    destruct (PrimFloat.ltb cx (best_cost s)) eqn:Elt.
    + destruct Hstep as (s' & Hs' & Hch & Hbc & Hk').
      exists s'. split; [exact Hs'|]. split; [exact Hk'|]. rewrite Hch, Hbc.
      split; [|exact Hcx]. split; [exact Hadm|].
      exists cx, done, []. split; [exact Hcx|].
      destruct (chosen s) as [p|].
      * destruct Hs as [(Hp & cp & l1 & l2 & Hcp & Hinf & Hdone & H1 & H2) Hbest].
        assert (Ecp : cp = best_cost s) by congruence. subst cp.
        split; [exact (b64_ltb_trans _ _ _ Elt Hinf)|]. split; [reflexivity|].
        split; [|intros q cq []].
        intros q cq Hq Hqa Hqc Hnan. rewrite Hdone in Hq.
        apply in_app_or in Hq. destruct Hq as [Hq|[<-|Hq]].
        -- exact (b64_ltb_trans _ _ _ Elt (H1 q cq Hq Hqa Hqc Hnan)).
        -- congruence.
        -- exact (b64_ltb_total _ _ _ Elt (H2 q cq Hq Hqa Hqc) Hnan).
      * destruct Hs as [Hinf Hnone]. rewrite Hinf in Elt.
        split; [exact Elt|]. split; [reflexivity|].
        split; [|intros q cq []].
        intros q cq Hq Hqa Hqc Hnan.
        destruct (Hnone q Hq) as [Hf|(cq' & Hcq' & Hlt)]; [congruence|].
        assert (cq' = cq) by congruence. subst cq'.
        exact (b64_ltb_total _ _ _ Elt Hlt Hnan).
    + exists s. split; [exact Hstep|]. split; [exact Hk|].
      destruct (chosen s) as [p|].
      * destruct Hs as [(Hp & cp & l1 & l2 & Hcp & Hinf & Hdone & H1 & H2) Hbest].
        assert (Ecp : cp = best_cost s) by congruence. subst cp.
        split; [|exact Hbest]. split; [exact Hp|].
        exists (best_cost s), l1, (l2 ++ [x]). split; [exact Hcp|].
        split; [exact Hinf|]. split.
        { rewrite Hdone, <- app_assoc. reflexivity. }
        split; [exact H1|].
        intros q cq Hq Hqa Hqc. apply in_app_or in Hq.
        destruct Hq as [Hq|[<-|[]]]; [now apply (H2 q)|].
        assert (cq = cx) by congruence. subst cq. exact Elt.
      * destruct Hs as [Hinf Hnone]. split; [exact Hinf|].
        intros q Hq. apply in_app_or in Hq.
        destruct Hq as [Hq|[<-|[]]]; [now apply Hnone|].
        right. exists cx. split; [exact Hcx|]. now rewrite <- Hinf.
  - exists s. split; [exact Hstep|]. split; [exact Hk|].
    destruct (chosen s) as [p|].
    + destruct Hs as [(Hp & cp & l1 & l2 & Hcp & Hinf & Hdone & H1 & H2) Hbest].
      split; [|exact Hbest]. split; [exact Hp|].
      exists cp, l1, (l2 ++ [x]). split; [exact Hcp|].
      split; [exact Hinf|]. split.
      { rewrite Hdone, <- app_assoc. reflexivity. }
      split; [exact H1|].
      intros q cq Hq Hqa Hqc. apply in_app_or in Hq.
      destruct Hq as [Hq|[<-|[]]]; [now apply (H2 q) | congruence].
    + destruct Hs as [Hinf Hnone]. split; [exact Hinf|].
      intros q Hq. apply in_app_or in Hq.
      destruct Hq as [Hq|[<-|[]]]; [now apply Hnone | now left].
Qed.

Lemma b64_select_fold l :
  forall done s,
    incl l all -> selected done s ->
    exists s', fold_left step l (Returned s) = Returned s'
               /\ selected (done ++ l) s'.
Proof.
  induction l as [|x l IH]; intros done s Hincl Hs; cbn [fold_left].
  - exists s. now rewrite app_nil_r.
  - destruct (b64_select_step done s x (Hincl x (or_introl eq_refl)) Hs)
      as (s1 & -> & Hs1).
    destruct (IH (done ++ [x]) s1) as (s' & Hf & Hs'); [|exact Hs1|].
    { intros q Hq. apply Hincl. now right. }
    exists s'. split; [exact Hf|]. now rewrite <- app_assoc in Hs'.
Qed.

Lemma b64_select_all s0 :
  kept s0 -> chosen s0 = None -> best_cost s0 = PrimFloat.infinity ->
  exists s,
    fold_left step all (Returned s0) = Returned s
    /\ kept s
    /\ match chosen s with
       | Some p => b64_first_cheapest adm c all p /\ c p = Returned (best_cost s)
       | None =>
           forall q, In q all ->
                     adm q = Returned false
                     \/ exists cq, c q = Returned cq
                                   /\ PrimFloat.ltb cq PrimFloat.infinity = false
       end.
Proof.
  intros Hk Hc Hb.
  destruct (b64_select_fold all [] s0 (incl_refl _)) as (s & Hf & Hk' & Hs).
  { split; [exact Hk|]. rewrite Hc. split; [exact Hb | intros q []]. }
  exists s. split; [exact Hf|]. split; [exact Hk'|].
  cbn [app] in Hs. destruct (chosen s); [exact Hs | exact (proj2 Hs)].
Qed.
End B64Selection.

Lemma b64_route_obligation_spec network ob existing max_paths :
  let paths :=
    LambdaFloor.candidate_paths network (source ob) (target ob) max_paths in
  let itfs := interfaces network in
  let new_load p := hypothetical_load existing p (demand ob) in
  (forall p, In p paths -> in_float_range (new_load p)) ->
  exists r,
    Binary64.route_obligation network ob existing max_paths = Returned r
    /\ match r with
       | Some r =>
           obligation r = ob
           /\ b64_admissible_load (new_load (path r)) itfs
           /\ b64_first_cheapest
                (fun p => Binary64.is_admissible (new_load p) itfs)
                (fun p => Binary64.total_cost (new_load p) itfs)
                paths (path r)
       | None =>
           forall q, In q paths ->
                     ~ b64_admissible_load (new_load q) itfs
                     \/ exists cq,
                         Binary64.total_cost (new_load q) itfs = Returned cq
                         /\ PrimFloat.ltb cq PrimFloat.infinity = false
       end.
Proof.
  intros paths itfs new_load Hrange.
  unfold Binary64.route_obligation. cbv zeta. fold paths. fold itfs.
  destruct (b64_select_all
              Path (option Path * PrimFloat.float)
              (fun p => Binary64.is_admissible (new_load p) itfs)
              (fun p => Binary64.total_cost (new_load p) itfs)
              (Binary64.route_step itfs ob existing)
              fst snd (fun _ => True) paths) with (s0 := (None : option Path, PrimFloat.infinity))
    as ([bp bc] & -> & _ & Hsel); try reflexivity.
  - intros s x Hx _. unfold Binary64.route_step. cbn [Binary64.bind].
    change (mkLoad (add_contribution (loads existing) (load_contribution x)
                                     (demand ob)))
      with (new_load x).
    destruct (b64_is_admissible_returns _ itfs (Hrange x Hx)) as [ok Hok].
    exists ok. split; [exact Hok|]. rewrite Hok. cbn [Binary64.bind].
    destruct ok; cbn [negb]; [|reflexivity].
    destruct (b64_total_cost_returns _ itfs (Hrange x Hx)) as [cx Hcx].
    exists cx. split; [exact Hcx|]. rewrite Hcx. cbn [Binary64.bind].
    destruct (PrimFloat.ltb cx (snd s)); [|reflexivity].
    eexists. split; [reflexivity|]. cbn [fst snd]. auto.
  - cbn [Binary64.bind fst snd] in *. eexists. split; [reflexivity|].
    destruct bp as [p|]; cbn [option_map].
    + destruct Hsel as [Hfc _]. cbn [obligation path].
      split; [reflexivity|]. split; [|exact Hfc].
      apply b64_is_admissible_true. exact (proj1 Hfc).
    + intros q Hq. destruct (Hsel q Hq) as [Hf|Hc]; [left | right; exact Hc].
      now apply b64_is_admissible_false.
Qed.

Lemma b64_ltb_irrefl a : PrimFloat.ltb a a = false.
Proof.
  rewrite FloatAxioms.ltb_spec. unfold SpecFloat.SFltb.
  destruct (FloatOps.Prim2SF a) as [s|s| |s m e] eqn:E; try reflexivity;
    rewrite SFcompare_refl by discriminate; reflexivity.
Qed.

(** The interface loop of [analyze_routing]: no headroom met so far is
    below the running minimum. *)
Lemma b64_analyze_fold L : forall l done a,
  in_float_range L ->
  (forall itf, In itf done ->
     exists h, Binary64.headroom itf (lv_get L (name itf)) = Returned h
               /\ PrimFloat.ltb h (Binary64.a_min_headroom a) = false) ->
  exists a',
    fold_left (Binary64.analyze_step L) l (Returned a) = Returned a'
    /\ forall itf, In itf (done ++ l) ->
         exists h, Binary64.headroom itf (lv_get L (name itf)) = Returned h
                   /\ PrimFloat.ltb h (Binary64.a_min_headroom a') = false.
Proof.
  induction l as [|i l IH]; intros done a HL Hdone; cbn [fold_left].
  - exists a. split; [reflexivity|]. now rewrite app_nil_r.
  - unfold Binary64.analyze_step at 2. cbn [Binary64.bind].
    pose proof (lv_get_in_range _ (name i) HL) as Hn.
    destruct (b64_cost_returns i _ Hn) as [ci Hci]. rewrite Hci.
    destruct (b64_headroom_returns i _ Hn) as [h Hh]. rewrite Hh.
    cbn [Binary64.bind].
    match goal with
    | |- exists a', fold_left _ l (Returned ?a1) = _ /\ _ =>
        destruct (IH (done ++ [i]) a1 HL) as (a' & Hf & Ha')
    end.
    + cbn [Binary64.a_min_headroom]. intros itf Hin.
      apply in_app_or in Hin.
      destruct (PrimFloat.ltb h (Binary64.a_min_headroom a)) eqn:Elt.
      * destruct Hin as [Hin|[<-|[]]].
        -- destruct (Hdone itf Hin) as (h' & Hh' & Hm). exists h'.
           split; [exact Hh'|].
           destruct (PrimFloat.ltb h' h) eqn:E; [|reflexivity].
           pose proof (b64_ltb_trans _ _ _ E Elt). congruence.
        -- exists h. split; [exact Hh | apply b64_ltb_irrefl].
      * destruct Hin as [Hin|[<-|[]]]; [now apply Hdone|].
        exists h. split; [exact Hh | exact Elt].
    + exists a'. split; [exact Hf|]. now rewrite <- app_assoc in Ha'.
Qed.

Lemma b64_analyze_routing_spec p itfs existing :
  in_float_range (total_load existing p) ->
  exists r,
    Binary64.analyze_routing p itfs existing = Returned r
    /\ Binary64.r_path r = p
    /\ Binary64.r_load_vector r = total_load existing p
    /\ (Binary64.r_is_admissible r = true ->
        b64_admissible_load (total_load existing p) itfs).
Proof.
  intros H. unfold Binary64.analyze_routing. cbv zeta.
  change (match existing with
          | Some e => lv_add e (load_vector p)
          | None => load_vector p
          end) with (total_load existing p).
  match goal with
  | |- context [fold_left _ itfs (Returned ?a)] =>
      destruct (b64_analyze_fold (total_load existing p) itfs [] a H)
        as (a' & -> & Ha'); [intros itf []|]
  end.
  cbn [Binary64.bind app] in *. eexists. split; [reflexivity|].
  cbn [Binary64.r_path Binary64.r_load_vector Binary64.r_is_admissible].
  split; [reflexivity|]. split; [reflexivity|].
  intros Hadm itf Hin. destruct (Ha' itf Hin) as (h & Hh & Hm).
  exists h. split; [exact Hh|].
  destruct (PrimFloat.eqb h h) eqn:Enan.
  - apply b64_ltb_not_leb. exact (b64_ltb_total _ _ _ Hadm Hm Enan).
  - now apply b64_nan_not_leb.
Qed.

Lemma b64_best_routing_spec network s t existing k :
  let paths := find_k_shortest_paths network s t k in
  let itfs := interfaces network in
  (forall p, In p paths -> in_float_range (total_load existing p)) ->
  exists r,
    Binary64.best_routing network s t existing k = Returned r
    /\ match r with
       | Some r =>
           Binary64.analyze_routing (Binary64.r_path r) itfs existing = Returned r
           /\ Binary64.r_load_vector r = total_load existing (Binary64.r_path r)
           /\ b64_admissible_load (Binary64.r_load_vector r) itfs
           /\ b64_first_cheapest (b64_analysis_admissible itfs existing)
                                 (b64_analysis_cost itfs existing)
                                 paths (Binary64.r_path r)
       | None =>
           forall q, In q paths ->
                     b64_analysis_admissible itfs existing q = Returned false
                     \/ exists cq,
                         b64_analysis_cost itfs existing q = Returned cq
                         /\ PrimFloat.ltb cq PrimFloat.infinity = false
       end.
Proof.
  intros paths itfs Hrange.
  unfold Binary64.best_routing. cbv zeta. fold paths. fold itfs.
  destruct (b64_select_all
              Path (option Binary64.RoutingResult * PrimFloat.float)
              (b64_analysis_admissible itfs existing)
              (b64_analysis_cost itfs existing)
              (Binary64.best_step itfs existing)
              (fun b => option_map Binary64.r_path (fst b)) snd
              (fun b => match fst b with
                        | Some r =>
                            Binary64.analyze_routing (Binary64.r_path r) itfs
                                                     existing = Returned r
                        | None => True
                        end)
              paths)
    with (s0 := (None : option Binary64.RoutingResult, PrimFloat.infinity))
    as ([br bc] & -> & Hk & Hsel); try reflexivity; try exact I.
  - intros b x Hx _. unfold Binary64.best_step. cbn [Binary64.bind].
    unfold b64_analysis_admissible, b64_analysis_cost.
    destruct (b64_analyze_routing_spec x itfs existing (Hrange x Hx))
      as (r & Hr & Hpath & _).
    rewrite Hr. cbn [Binary64.bind].
    exists (Binary64.r_is_admissible r). split; [reflexivity|].
    destruct (Binary64.r_is_admissible r); cbn [andb]; [|reflexivity].
    exists (Binary64.r_total_cost r). split; [reflexivity|].
    destruct (PrimFloat.ltb (Binary64.r_total_cost r) (snd b)); [|reflexivity].
    eexists. split; [reflexivity|]. cbn [fst snd option_map].
    rewrite Hpath. split; [reflexivity|]. split; [reflexivity|]. exact Hr.
  - cbn [Binary64.bind fst snd] in *. eexists. split; [reflexivity|].
    destruct br as [r|]; cbn [option_map] in Hsel; [|exact Hsel].
    destruct Hsel as [Hfc _]. split; [exact Hk|].
    assert (Hin : In (Binary64.r_path r) paths).
    { destruct Hfc as (_ & cp & l1 & l2 & _ & _ & -> & _).
      apply in_or_app. right. now left. }
    destruct (b64_analyze_routing_spec _ itfs existing (Hrange _ Hin))
      as (r' & Hr' & _ & Hload & Hadm).
    assert (r' = r) by congruence. subst r'.
    split; [exact Hload|]. split; [|exact Hfc].
    rewrite Hload. apply Hadm.
    destruct Hfc as (Ha & _). unfold b64_analysis_admissible in Ha.
    rewrite Hk in Ha. cbn [Binary64.bind] in Ha. congruence.
Qed.

Lemma hypothetical_load_at existing p d nm :
  lv_get (hypothetical_load existing p d) nm
  = lv_get existing nm + path_hops p nm * d.
Proof.
  destruct (load_contribution_fold (p_edges p) nm [] (NoDup_nil _)) as [Hnd Hget].
  cbv zeta in Hnd, Hget. fold (load_contribution p) in Hnd, Hget.
  change (PyDict.get_default [] nm 0) with 0 in Hget.
  fold (path_hops p nm) in Hget.
  rewrite hypothetical_load_get, (contribution_weight_unique _ nm Hnd). lia.
Qed.



